(** * Analysis index of the Python Override Hint extension

    A shallow embedding of [src/extension.ts]: the worker link
    ([PythonProcessManager], lines 644-812), the override index cache
    ([IntelligentCache], lines 817-956), the analyzer facade
    ([PythonOverrideAnalyzer], lines 961-1090) and the debouncing
    [DocumentManager]s, followed by the properties established about
    them.  The file holds two listings of the extension: the one these
    classes come from (from line 598 on), whose [DocumentManager]
    (lines 1416-1569) debounces by file path, and an earlier one (up to
    line 598), whose [DocumentManager] (lines 366-457) debounces by
    editor and listens to the closing of documents.  Further modules
    embed the framing of the worker's output (the [data] listener and
    [processOutput], lines 688-734), the choice of the interpreter
    ([findPythonPath], lines 1050-1076), the start and the end of the
    analyzer ([initialize], [dispose]), the two providers
    ([OverrideDecorationProvider], lines 1095-1273;
    [OverrideCodeLensProvider], lines 1278-1411) and, of the earlier
    listing, [AnalysisCache] (lines 36-69) and the analyzer that spawns
    a process per analysis (lines 74-179).

    Conventions of the embedding.
    - A JavaScript [Map] keyed by strings is a [gmap string _] where
      only lookups, insertions and deletions are observed; the maps the
      providers iterate over are association lists in insertion order
      ([OrderedMap]).
    - A [number] holding a time stamp ([mtimeMs], [lastModified]) is a
      [Z]: the code only stores and compares these values.
    - The code runs on one event loop.  Every callback (a method call, a
      listener, a timer) is a function from state to state; what the
      runtime holds for the code (armed timers, the state of promises,
      bytes written to the child's stdin) is part of the state, so that
      [clearTimeout], [resolve] and [reject] have something to act on. *)

From Stdlib Require Import ZArith Lia Bool.
From stdpp Require Import base option list strings pretty gmap fin_maps.

Local Open Scope string_scope.
Local Open Scope list_scope.

(** ** Data model *)

(** Truthiness of an optional string field ([undefined] and the empty
    string are falsy). *)
Definition truthy (v : option string) : bool :=
  match v with
  | Some s => negb (String.eqb s "")
  | None => false
  end.

(** [interface OverrideInfo].  Every field but [class] is copied from the
    worker's answer unchecked, hence optional at run time. *)
Record OverrideInfo := mkOverrideInfo {
  class_ : string;
  method : option string;
  line : option Z;
  signature : option string;
  type_ : option string;
  base : option string;
  base_file : option string;
  base_file_path : option string;
  base_line : option Z;
  base_signature : option string;
  child : option string;
  child_file : option string;
  child_file_path : option string;
  child_line : option Z;
  child_signature : option string
}.

(** One element of a worker [result] array, before normalisation. *)
Record RawOverride := mkRawOverride {
  r_class : option string;
  r_class_name : option string;
  r_method : option string;
  r_line : option Z;
  r_signature : option string;
  r_type : option string;
  r_base : option string;
  r_base_file : option string;
  r_base_file_path : option string;
  r_base_line : option Z;
  r_base_signature : option string;
  r_child : option string;
  r_child_file : option string;
  r_child_file_path : option string;
  r_child_line : option Z;
  r_child_signature : option string
}.

(** An element of [ProjectIndex.files]. *)
Record Entry := mkEntry {
  overrides : list OverrideInfo;
  lastModified : Z
}.

(** [interface ProjectIndex]. *)
Record ProjectIndex := mkProjectIndex {
  files : gmap string Entry;
  dependencies : gmap string (list string);
  lastScan : Z
}.

(** What the cache sees of the file system: [mtime !! p] is
    [fs.statSync(p).mtimeMs], absent when [statSync] throws; [writable]
    tells whether writing [override_cache.json] succeeds. *)
Record Disk := mkDisk {
  mtime : gmap string Z;
  writable : bool
}.

(** ** The override index cache *)

Module IntelligentCache.

(** The object: [projectIndex], and next to it the snapshot file it
    writes ([stored], its latest content, and [writes], the number of
    [writeFileSync] calls that succeeded). *)
Record t := mk {
  projectIndex : ProjectIndex;
  stored : option ProjectIndex;
  writes : nat
}.

Definition with_files (fs : gmap string Entry) (c : t) : t :=
  mk (mkProjectIndex fs (dependencies (projectIndex c)) (lastScan (projectIndex c)))
     (stored c) (writes c).

Definition with_dependencies (ds : gmap string (list string)) (c : t) : t :=
  mk (mkProjectIndex (files (projectIndex c)) ds (lastScan (projectIndex c)))
     (stored c) (writes c).

(** [loadCache] (lines 850-864), as run by the constructor: a readable
    snapshot is taken over, anything else leaves the index empty. *)
Definition loadCache (snapshot : option ProjectIndex) : t :=
  match snapshot with
  | Some pi => mk pi snapshot 0
  | None => mk (mkProjectIndex ∅ ∅ 0%Z) None 0
  end.

(** [persistCache] (lines 866-883): a failure is logged and swallowed. *)
Definition persistCache (d : Disk) (c : t) : t :=
  if writable d then mk (projectIndex c) (Some (projectIndex c)) (S (writes c))
  else c.

(** [Array.from(new Set(xs))]: first occurrences, in order. *)
Fixpoint unique (seen : list string) (xs : list string) : list string :=
  match xs with
  | [] => []
  | x :: xs' =>
      if bool_decide (x ∈ seen) then unique seen xs'
      else x :: unique (x :: seen) xs'
  end.

(** [setDependencies] (lines 831-835). *)
Definition setDependencies (d : Disk) (filePath : string) (deps : list string)
    (c : t) : t :=
  let unique_deps := unique [] (filter (λ s, truthy (Some s) = true) deps) in
  persistCache d
    (with_dependencies (<[filePath := unique_deps]> (dependencies (projectIndex c))) c).

(** [get] (lines 885-901): the result, [None] for [null], and the cache
    after the call. *)
Definition get (d : Disk) (filePath : string) (c : t)
    : option (list OverrideInfo) * t :=
  match files (projectIndex c) !! filePath with
  | None => (None, c)
  | Some cached =>
      match mtime d !! filePath with
      | Some mtimeMs =>
          if (lastModified cached <? mtimeMs)%Z
          then (None, with_files (delete filePath (files (projectIndex c))) c)
          else (Some (overrides cached), c)
      | None => (None, with_files (delete filePath (files (projectIndex c))) c)
      end
  end.

(** [set] (lines 903-914): when [statSync] throws, the [catch] block
    ignores it. *)
Definition set (d : Disk) (filePath : string) (ovs : list OverrideInfo)
    (c : t) : t :=
  match mtime d !! filePath with
  | Some mtimeMs =>
      persistCache d
        (with_files (<[filePath := mkEntry ovs mtimeMs]> (files (projectIndex c))) c)
  | None => c
  end.

(** [findDependents] (lines 930-938). *)
Definition findDependents (filePath : string) (c : t) : list string :=
  omap (λ entry : string * list string,
          if bool_decide (filePath ∈ entry.2) then Some entry.1 else None)
       (map_to_list (dependencies (projectIndex c))).

(** [invalidateFile] (lines 916-922), the listener of the watcher's
    [onDidChange]. *)
Definition invalidateFile (d : Disk) (filePath : string) (c : t) : t :=
  let files1 := delete filePath (files (projectIndex c)) in
  let dependents := findDependents filePath c in
  persistCache d
    (with_files (fold_left (λ fs dep, delete dep fs) dependents files1) c).

(** [removeFile] (lines 924-928), the listener of the watcher's
    [onDidDelete]. *)
Definition removeFile (d : Disk) (filePath : string) (c : t) : t :=
  persistCache d
    (with_dependencies (delete filePath (dependencies (projectIndex c)))
       (with_files (delete filePath (files (projectIndex c))) c)).

(** [delete(filePath)] (lines 946-949), named [delete_] next to the map
    operation. *)
Definition delete_ (d : Disk) (filePath : string) (c : t) : t :=
  persistCache d (with_files (delete filePath (files (projectIndex c))) c).

(** [clear] (lines 951-955). *)
Definition clear (d : Disk) (c : t) : t :=
  persistCache d (with_dependencies ∅ (with_files ∅ c)).

End IntelligentCache.

(** ** The worker link *)

Module PythonProcessManager.

(** A decoded line of the worker's stdout, as far as the code looks at
    it.  An [id] that is absent or not a string is [None]: it matches no
    key of [pendingRequests]. *)
Record Response := mkResponse {
  rsp_type : option string;
  rsp_id : option string;
  rsp_error : option string;
  rsp_result : option (list RawOverride)
}.

(** A complete line of output: blank ([line.trim()] is empty), rejected
    by [JSON.parse], or decoded. *)
Inductive Line :=
| Blank
| Malformed
| Message (response : Response).

(** State of the promise returned by one [analyzeFile] call. *)
Inductive Settled :=
| Resolved (result : list RawOverride)
| Rejected (message : string).

(** An element of [pendingRequests]: [resolve] and [reject] act on the
    promise named [promise], [timeout] names the timer. *)
Record Request := mkRequest {
  promise : string;
  timeout : option string
}.

(** What the child processes see of the manager, and the manager of
    them. *)
Inductive Obs :=
| Spawned (child : nat)
| Killed (child : nat)
| ReadyFrom (child : nat)
| Wrote (child : nat) (id filePath : string).

(** The fields of the object, then what the runtime holds:
    [children] counts the processes spawned (child [k] has handle [k]),
    [awaitingReady] are the [analyzeFile] calls suspended on
    [await this.readyPromise] (with the outcome their write will have),
    [timers] maps an armed timeout to the [filePath] its callback
    captured, [promises] gives the state of the settled promises,
    [calls] the [filePath] of the call behind each promise, and [log]
    records spawns, kills, ready signals and the request lines written
    to stdin, newest first. *)
Record t := mk {
  pythonProcess : option nat;
  messageId : nat;
  pendingRequests : gmap string Request;
  isReady : bool;
  readyPromise : bool;
  children : nat;
  awaitingReady : list (string * option string);
  timers : gmap string string;
  promises : gmap string Settled;
  calls : gmap string string;
  log : list Obs
}.

Definition set_pythonProcess v s :=
  mk v (messageId s) (pendingRequests s) (isReady s) (readyPromise s) (children s)
     (awaitingReady s) (timers s) (promises s) (calls s) (log s).
Definition set_messageId v s :=
  mk (pythonProcess s) v (pendingRequests s) (isReady s) (readyPromise s) (children s)
     (awaitingReady s) (timers s) (promises s) (calls s) (log s).
Definition set_pendingRequests v s :=
  mk (pythonProcess s) (messageId s) v (isReady s) (readyPromise s) (children s)
     (awaitingReady s) (timers s) (promises s) (calls s) (log s).
Definition set_isReady v s :=
  mk (pythonProcess s) (messageId s) (pendingRequests s) v (readyPromise s) (children s)
     (awaitingReady s) (timers s) (promises s) (calls s) (log s).
Definition set_readyPromise v s :=
  mk (pythonProcess s) (messageId s) (pendingRequests s) (isReady s) v (children s)
     (awaitingReady s) (timers s) (promises s) (calls s) (log s).
Definition set_children v s :=
  mk (pythonProcess s) (messageId s) (pendingRequests s) (isReady s) (readyPromise s) v
     (awaitingReady s) (timers s) (promises s) (calls s) (log s).
Definition set_awaitingReady v s :=
  mk (pythonProcess s) (messageId s) (pendingRequests s) (isReady s) (readyPromise s)
     (children s) v (timers s) (promises s) (calls s) (log s).
Definition set_timers v s :=
  mk (pythonProcess s) (messageId s) (pendingRequests s) (isReady s) (readyPromise s)
     (children s) (awaitingReady s) v (promises s) (calls s) (log s).
Definition set_promises v s :=
  mk (pythonProcess s) (messageId s) (pendingRequests s) (isReady s) (readyPromise s)
     (children s) (awaitingReady s) (timers s) v (calls s) (log s).
Definition set_calls v s :=
  mk (pythonProcess s) (messageId s) (pendingRequests s) (isReady s) (readyPromise s)
     (children s) (awaitingReady s) (timers s) (promises s) v (log s).
Definition observe o s :=
  mk (pythonProcess s) (messageId s) (pendingRequests s) (isReady s) (readyPromise s)
     (children s) (awaitingReady s) (timers s) (promises s) (calls s) (o :: log s).

(** The constructor (lines 653-657): [readyPromise] is created here,
    once. *)
Definition new : t := mk None 0 ∅ false false 0 [] ∅ ∅ ∅ [].

(** A promise is settled by the first [resolve] or [reject] only. *)
Definition settle (p : string) (v : Settled) (ps : gmap string Settled)
    : gmap string Settled :=
  match ps !! p with
  | Some _ => ps
  | None => <[p := v]> ps
  end.

Definition resolve (p : string) (result : list RawOverride) (s : t) : t :=
  set_promises (settle p (Resolved result) (promises s)) s.

Definition reject (p : string) (message : string) (s : t) : t :=
  set_promises (settle p (Rejected message) (promises s)) s.

(** [if (request.timeout) clearTimeout(request.timeout)]. *)
Definition clearTimeout (h : option string) (ts : gmap string string)
    : gmap string string :=
  match h with
  | Some h => delete h ts
  | None => ts
  end.

(** [`req_${n}`]. *)
Definition request_id (n : nat) : string := "req_" +:+ pretty n.

Inductive StartResult :=
| Throws
| ReturnsReadyPromise.

(** [start()] (lines 659-681); [spawn_ok] tells whether [spawn] returns
    or throws. *)
Definition start (spawn_ok : bool) (s : t) : StartResult * t :=
  match pythonProcess s with
  | Some _ => (ReturnsReadyPromise, s)
  | None =>
      if spawn_ok then
        let child := S (children s) in
        (ReturnsReadyPromise,
         observe (Spawned child) (set_children child (set_pythonProcess (Some child) s)))
      else (Throws, s)
  end.

(** [handleResponse] (lines 736-752). *)
Definition handleResponse (response : Response) (s : t) : t :=
  match rsp_id response with
  | None => s
  | Some requestId =>
      match pendingRequests s !! requestId with
      | None => s
      | Some request =>
          let s1 := set_timers (clearTimeout (timeout request) (timers s)) s in
          let s2 := set_pendingRequests (delete requestId (pendingRequests s1)) s1 in
          if truthy (rsp_error response)
          then reject (promise request) (default "" (rsp_error response)) s2
          else resolve (promise request) (default [] (rsp_result response)) s2
      end
  end.

(** The body of the loop of [processOutput] (lines 716-733), for a line
    read from [child]. *)
Definition processLine (child : nat) (l : Line) (s : t) : t :=
  match l with
  | Blank | Malformed => s
  | Message response =>
      if bool_decide (rsp_type response = Some "ready")
      then observe (ReadyFrom child) (set_readyPromise true (set_isReady true s))
      else handleResponse response s
  end.

(** The executor of the promise of [analyzeFile] (lines 759-782);
    [write_error] is the error [stdin.write] throws, if it does, and
    nothing is written when [pythonProcess] is null. *)
Definition send (filePath : string) (write_error : option string) (s : t) : t :=
  let n := S (messageId s) in
  let id := request_id n in
  let s1 := set_messageId n s in
  let s2 := set_calls (<[id := filePath]> (calls s1)) s1 in
  let s3 := set_timers (<[id := filePath]> (timers s2)) s2 in
  let s4 := set_pendingRequests
              (<[id := mkRequest id (Some id)]> (pendingRequests s3)) s3 in
  match pythonProcess s4 with
  | None => s4
  | Some child =>
      match write_error with
      | None => observe (Wrote child id filePath) s4
      | Some error =>
          let s5 := set_pendingRequests (delete id (pendingRequests s4)) s4 in
          let s6 := set_timers (clearTimeout (Some id) (timers s5)) s5 in
          reject id error s6
      end
  end.

(** [analyzeFile] (lines 754-783): the call goes on to the executor at
    once when [isReady] holds, after a tick when [readyPromise] is
    already resolved, and is suspended otherwise. *)
Definition analyzeFile (filePath : string) (write_error : option string) (s : t)
    : t :=
  if isReady s then send filePath write_error s
  else if readyPromise s then send filePath write_error s
  else set_awaitingReady (awaitingReady s ++ [(filePath, write_error)]) s.

(** The calls suspended on [readyPromise] continue, in order. *)
Definition release (s : t) : t :=
  foldl (λ s' '(filePath, write_error), send filePath write_error s')
        (set_awaitingReady [] s) (awaitingReady s).

(** The stdout listener (lines 688-693, 712-734), for the complete lines
    of one chunk; the suspended calls continue once the listener has
    returned, if it resolved [readyPromise]. *)
Definition processOutput (child : nat) (lines : list Line) (s : t) : t :=
  let s' := foldl (λ s' l, processLine child l s') s lines in
  if negb (readyPromise s) && readyPromise s' then release s' else s'.

(** The callback of the timer [h] of [analyzeFile] (lines 767-770); a
    timer that is not armed does not fire. *)
Definition timeoutFires (h : string) (s : t) : t :=
  match timers s !! h with
  | None => s
  | Some filePath =>
      let s1 := set_timers (delete h (timers s)) s in
      let s2 := set_pendingRequests (delete h (pendingRequests s1)) s1 in
      reject h ("Analysis timeout for " +:+ filePath) s2
  end.

(** [cleanup] (lines 785-797), the listener of the child's [error] and
    [exit]. *)
Definition cleanup (s : t) : t :=
  let s1 := set_pythonProcess None (set_isReady false s) in
  let ts := map_fold (λ _ request ts, clearTimeout (timeout request) ts)
              (timers s1) (pendingRequests s1) in
  let ps := map_fold
              (λ _ request ps,
                 settle (promise request) (Rejected "Python process terminated") ps)
              (promises s1) (pendingRequests s1) in
  set_pendingRequests ∅ (set_promises ps (set_timers ts s1)).

(** [dispose] (lines 805-811). *)
Definition dispose (s : t) : t :=
  match pythonProcess s with
  | Some child => cleanup (set_pythonProcess None (observe (Killed child) s))
  | None => cleanup s
  end.

(** What can happen to a manager: its methods are called, a child that
    was spawned emits output, fails or exits, a timer fires.
    [restart()] (lines 799-803) is [Dispose], and a second later
    [Start]. *)
Inductive Event :=
| Start (spawn_ok : bool)
| Stdout (child : nat) (lines : list Line)
| ChildError (child : nat)
| ChildExit (child : nat)
| AnalyzeFile (filePath : string) (write_error : option string)
| TimeoutFires (h : string)
| Dispose.

Definition is_child (child : nat) (s : t) : bool :=
  (1 <=? child)%nat && (child <=? children s)%nat.

Definition step (e : Event) (s : t) : t :=
  match e with
  | Start spawn_ok => (start spawn_ok s).2
  | Stdout child lines => if is_child child s then processOutput child lines s else s
  | ChildError child => if is_child child s then cleanup s else s
  | ChildExit child => if is_child child s then cleanup s else s
  | AnalyzeFile filePath write_error => analyzeFile filePath write_error s
  | TimeoutFires h => timeoutFires h s
  | Dispose => dispose s
  end.

Definition run (es : list Event) (s : t) : t := foldl (λ s' e, step e s') s es.

Inductive reachable : t → Prop :=
| reachable_new : reachable new
| reachable_step e s : reachable s → reachable (step e s).

End PythonProcessManager.

(** ** The analyzer facade *)

Module PythonOverrideAnalyzer.

Module Link := PythonProcessManager.
Module Cache := IntelligentCache.

(** The object literal of [raw.map(r => ...)] (lines 1012-1028): [class]
    is [r.class ?? r.class_name ?? ''], the other fields are copied. *)
Definition normalize (r : RawOverride) : OverrideInfo :=
  mkOverrideInfo
    (match r_class r with
     | Some c => c
     | None => default "" (r_class_name r)
     end)
    (r_method r) (r_line r) (r_signature r) (r_type r)
    (r_base r) (r_base_file r) (r_base_file_path r) (r_base_line r) (r_base_signature r)
    (r_child r) (r_child_file r) (r_child_file_path r) (r_child_line r)
    (r_child_signature r).

(** The loop that fills [deps] from the overrides (lines 1033-1037). *)
Definition deps_of (ovs : list OverrideInfo) : list string :=
  flat_map
    (λ o,
       (if bool_decide (type_ o = Some "child_override") && truthy (base_file_path o)
        then [default "" (base_file_path o)] else [])
       ++
       (if bool_decide (type_ o = Some "parent_overridden") && truthy (child_file_path o)
        then [default "" (child_file_path o)] else []))
    ovs.

(** The analyzer from the moment [isInitialized] is true.  From then on
    [initialize()] returns at its first line, so [processManager] holds
    the same manager for good, in whatever state that manager is by
    then: [isInitialized] is set when some manager has signalled
    readiness, which need not be the one the field holds (see
    [AnalyzerStartup] for the time before, and for the calls that
    [initialize()] rejects).  [disk] is the file system the cache looks
    at.  The calls of [analyzeFile] that are suspended in the [try] block
    are those of [awaiting] (on the promise of the request whose id is
    the key), of [restarting] (in the [catch] block, during the second
    that [restart()] waits) and of [starting] (in the [catch] block, on
    the promise [start()] returned); calls the manager itself suspended,
    until its child signals readiness, are in its [awaitingReady].
    [jobs] are the reactions to settled promises that have not run yet,
    in the order of settlement; [returned] lists the calls that returned,
    newest first. *)
Record t := mk {
  processManager : Link.t;
  cache : Cache.t;
  disk : Disk;
  awaiting : gmap string string;
  restarting : gmap string string;
  starting : gmap string string;
  jobs : list string;
  returned : list (string * list OverrideInfo)
}.

Definition set_processManager v st :=
  mk v (cache st) (disk st) (awaiting st) (restarting st) (starting st) (jobs st)
     (returned st).
Definition set_cache v st :=
  mk (processManager st) v (disk st) (awaiting st) (restarting st) (starting st)
     (jobs st) (returned st).
Definition set_disk v st :=
  mk (processManager st) (cache st) v (awaiting st) (restarting st) (starting st)
     (jobs st) (returned st).
Definition set_awaiting v st :=
  mk (processManager st) (cache st) (disk st) v (restarting st) (starting st)
     (jobs st) (returned st).
Definition set_restarting v st :=
  mk (processManager st) (cache st) (disk st) (awaiting st) v (starting st)
     (jobs st) (returned st).
Definition set_starting v st :=
  mk (processManager st) (cache st) (disk st) (awaiting st) (restarting st) v
     (jobs st) (returned st).
Definition set_jobs v st :=
  mk (processManager st) (cache st) (disk st) (awaiting st) (restarting st)
     (starting st) v (returned st).
Definition returns (filePath : string) (ovs : list OverrideInfo) st :=
  mk (processManager st) (cache st) (disk st) (awaiting st) (restarting st)
     (starting st) (jobs st) ((filePath, ovs) :: returned st).

(** The analyzer at that moment, holding manager [m]: no call has
    reached the [try] block yet. *)
Definition initialized_with (m : Link.t) (c : Cache.t) (d : Disk) : t :=
  mk m c d ∅ ∅ ∅ [] [].

(** The manager as a single call of [initialize()] leaves it: started,
    and ready. *)
Definition initialized_manager : Link.t :=
  Link.processOutput 1 [Link.Message (Link.mkResponse (Some "ready") None None None)]
    (Link.start true Link.new).2.

Definition initialized (c : Cache.t) (d : Disk) : t :=
  initialized_with initialized_manager c d.

Definition settled (m : Link.t) (id : string) : bool :=
  bool_decide (is_Some (Link.promises m !! id)).

(** The promises among [candidates] that were settled between two states
    of the manager. *)
Definition settled_since (before after : Link.t) (candidates : list string)
    : list string :=
  List.filter (λ id, negb (settled before id) && settled after id) candidates.

Definition enqueue (before : Link.t) (candidates : list string) (st : t) : t :=
  set_jobs (jobs st ++ settled_since before (processManager st) candidates) st.

(** The rest of the [try] block (lines 1010-1040), for a call that
    awaited request [id] and got [result]. *)
Definition analyzeFile_resolved (id filePath : string) (result : list RawOverride)
    (st : t) : t :=
  let ovs := normalize <$> result in
  let c1 := Cache.set (disk st) filePath ovs (cache st) in
  let c2 := Cache.setDependencies (disk st) filePath (deps_of ovs) c1 in
  returns filePath ovs (set_cache c2 (set_awaiting (delete id (awaiting st)) st)).

(** The [catch] block (lines 1041-1045) up to the second that
    [restart()] waits: [restart()] has called [dispose()], which rejects
    what was pending. *)
Definition analyzeFile_rejected (id filePath : string) (message : string)
    (st : t) : t :=
  let m := processManager st in
  let st1 := set_awaiting (delete id (awaiting st)) st in
  let st2 := set_processManager (Link.dispose m) st1 in
  let st3 := enqueue m (map_to_list (Link.pendingRequests m)).*1 st2 in
  set_restarting (<[id := filePath]> (restarting st3)) st3.

(** The rest of [restart()] and of the [catch] block: [start()] is
    called; if it throws, or once the promise it returns is resolved, the
    call returns the empty array. *)
Definition restart_elapsed (id : string) (spawn_ok : bool) (st : t) : t :=
  match restarting st !! id with
  | None => st
  | Some filePath =>
      let st1 := set_restarting (delete id (restarting st)) st in
      match Link.start spawn_ok (processManager st1) with
      | (Link.Throws, m) => returns filePath [] (set_processManager m st1)
      | (Link.ReturnsReadyPromise, m) =>
          if Link.readyPromise m
          then returns filePath [] (set_processManager m st1)
          else set_starting (<[id := filePath]> (starting st1)) (set_processManager m st1)
      end
  end.

(** The reaction to the settlement of the promise of request [id]. *)
Definition reaction (id : string) (st : t) : t :=
  match awaiting st !! id, Link.promises (processManager st) !! id with
  | Some filePath, Some (Link.Resolved result) =>
      analyzeFile_resolved id filePath result st
  | Some filePath, Some (Link.Rejected message) =>
      analyzeFile_rejected id filePath message st
  | _, _ => st
  end.

Definition run_jobs (st : t) : t :=
  foldl (λ st' id, reaction id st') (set_jobs [] st) (jobs st).

(** The reactions run once the callback has returned.  Those that
    [dispose()] rejects in a first round run in a second one, and nothing
    is left after it ([PythonOverrideAnalyzerFacts.step_leaves_no_job]). *)
Definition drain (st : t) : t := run_jobs (run_jobs st).

(** The head of the [try] block (lines 1008-1009): the call of
    [processManager.analyzeFile], which makes the request at once or
    leaves the call among the manager's [awaitingReady]. *)
Definition request (filePath : string) (write_error : option string) (st : t) : t :=
  let m := processManager st in
  let st1 := set_processManager (Link.analyzeFile filePath write_error m) st in
  if Link.isReady m || Link.readyPromise m then
    let id := Link.request_id (S (Link.messageId m)) in
    enqueue m [id] (set_awaiting (<[id := filePath]> (awaiting st1)) st1)
  else st1.

(** [analyzeFile(filePath)] (lines 998-1009) up to its first
    suspension; [isInitialized] being true, line 1005 is skipped. *)
Definition analyzeFile (filePath : string) (write_error : option string) (st : t)
    : t :=
  match Cache.get (disk st) filePath (cache st) with
  | (Some cached, c) => returns filePath cached (set_cache c st)
  | (None, c) => request filePath write_error (set_cache c st)
  end.

(** The calls the manager releases when [readyPromise] is resolved, with
    the ids their requests get. *)
Fixpoint released (n : nat) (ws : list (string * option string))
    : list (string * string) :=
  match ws with
  | [] => []
  | (filePath, _) :: ws' => (Link.request_id (S n), filePath) :: released (S n) ws'
  end.

(** The promises the lines of a chunk settle, in that order. *)
Fixpoint settled_by_lines (c : nat) (lines : list Link.Line) (m : Link.t)
    : list string :=
  match lines with
  | [] => []
  | l :: lines' =>
      let m' := Link.processLine c l m in
      let ids := match l with
                 | Link.Message response => option_list (Link.rsp_id response)
                 | _ => []
                 end in
      settled_since m m' ids ++ settled_by_lines c lines' m'
  end.

(** The stdout listener of the manager, seen from the analyzer. *)
Definition stdout (c : nat) (lines : list Link.Line) (st : t) : t :=
  let m := processManager st in
  let m1 := foldl (λ m' l, Link.processLine c l m') m lines in
  let st1 := set_jobs (jobs st ++ settled_by_lines c lines m)
               (set_processManager (Link.processOutput c lines m) st) in
  if negb (Link.readyPromise m) && Link.readyPromise m1 then
    let adopted := released (Link.messageId m1) (Link.awaitingReady m1) in
    let st2 := set_awaiting (list_to_map adopted ∪ awaiting st1) st1 in
    let st3 := enqueue m1 adopted.*1 st2 in
    foldl (λ st' '(_, filePath), returns filePath [] st')
          (set_starting ∅ st3) (map_to_list (starting st3))
  else st1.

Definition exited (st : t) : t :=
  let m := processManager st in
  enqueue m (map_to_list (Link.pendingRequests m)).*1
    (set_processManager (Link.cleanup m) st).

Definition timed_out (h : string) (st : t) : t :=
  let m := processManager st in
  enqueue m [h] (set_processManager (Link.timeoutFires h m) st).

(** [clearCache(filePath?)] (lines 1078-1084). *)
Definition clearCache (filePath : option string) (st : t) : t :=
  if truthy filePath
  then set_cache (Cache.delete_ (disk st) (default "" filePath) (cache st)) st
  else set_cache (Cache.clear (disk st) (cache st)) st.

(** [dispose()] (lines 1086-1089): the manager is disposed of, which
    rejects what is pending, and [cache.dispose()] persists the index. *)
Definition dispose (st : t) : t :=
  let m := processManager st in
  enqueue m (map_to_list (Link.pendingRequests m)).*1
    (set_cache (Cache.persistCache (disk st) (cache st))
       (set_processManager (Link.dispose m) st)).

(** What can happen to an initialised analyzer: [analyzeFile] is called;
    a call that found [isInitialized] false before the cache missed, and
    has been suspended in [initialize()] since, goes on with the [try]
    block ([Resumed]); the manager's child or timers call back; the
    second of a [restart()] is over; the file watcher of the cache
    reports a change or a deletion; [clearCache] or [dispose] is called;
    the disk changes. *)
Inductive Event :=
| AnalyzeFile (filePath : string) (write_error : option string)
| Stdout (c : nat) (lines : list Link.Line)
| ChildError (c : nat)
| ChildExit (c : nat)
| TimeoutFires (h : string)
| RestartElapsed (id : string) (spawn_ok : bool)
| FileChanged (filePath : string)
| FileDeleted (filePath : string)
| ClearCache (filePath : option string)
| Touch (filePath : string) (mtimeMs : Z)
| Unlink (filePath : string)
| Storage (is_writable : bool)
| Resumed (filePath : string) (write_error : option string)
| Dispose.

Definition handle (e : Event) (st : t) : t :=
  match e with
  | AnalyzeFile filePath write_error => analyzeFile filePath write_error st
  | Resumed filePath write_error => request filePath write_error st
  | Dispose => dispose st
  | Stdout c lines =>
      if Link.is_child c (processManager st) then stdout c lines st else st
  | ChildError c => if Link.is_child c (processManager st) then exited st else st
  | ChildExit c => if Link.is_child c (processManager st) then exited st else st
  | TimeoutFires h => timed_out h st
  | RestartElapsed id spawn_ok => restart_elapsed id spawn_ok st
  | FileChanged filePath =>
      set_cache (Cache.invalidateFile (disk st) filePath (cache st)) st
  | FileDeleted filePath =>
      set_cache (Cache.removeFile (disk st) filePath (cache st)) st
  | ClearCache filePath => clearCache filePath st
  | Touch filePath mtimeMs =>
      set_disk (mkDisk (<[filePath := mtimeMs]> (mtime (disk st))) (writable (disk st))) st
  | Unlink filePath =>
      set_disk (mkDisk (delete filePath (mtime (disk st))) (writable (disk st))) st
  | Storage is_writable => set_disk (mkDisk (mtime (disk st)) is_writable) st
  end.

Definition step (e : Event) (st : t) : t := drain (handle e st).

Definition run (es : list Event) (st : t) : t := foldl (λ st' e, step e st') st es.

(** The states of an initialised analyzer: it holds a manager in any
    state a manager can be in. *)
Inductive reachable : t → Prop :=
| reachable_initialized m c d : Link.reachable m → reachable (initialized_with m c d)
| reachable_step e st : reachable st → reachable (step e st).

End PythonOverrideAnalyzer.

(** ** The document managers *)

(** What the listeners read of a [vscode.TextDocument]. *)
Record TextDocument := mkTextDocument {
  fileName : string;
  languageId : string
}.

Definition is_python (document : TextDocument) : bool :=
  String.eqb (languageId document) "python".

(** The [DocumentManager] that debounces by file path ([analysisQueue],
    lines 1416-1569). *)
Module DocumentManager.

(** [analysisQueue] maps a file path to the handle of its timer.  The
    runtime holds the armed timers of [scheduleAnalysis] ([timers]:
    handle, to the [filePath] the callback captured and the delay), the
    number of handles given out ([nextTimer]) and the active editor's
    file; [performed] lists the invocations of [performAnalysis],
    [rendered] those that found their file in the active editor and went
    on to update the decorations, [cleared] the calls of
    [analyzer.clearCache]; all newest first.  The timers that hide the
    status bar item (lines 1451-1453 and 1538-1540) schedule no analysis
    and are not among [timers]; [dispose()] does not clear them
    ([DocumentManagerStatusBar] adds them). *)
Record t := mk {
  analysisQueue : gmap string nat;
  timers : gmap nat (string * nat);
  nextTimer : nat;
  activeTextEditor : option string;
  performed : list string;
  rendered : list string;
  cleared : list string
}.

Definition new : t := mk ∅ ∅ 0 None [] [] [].

(** [scheduleAnalysis] (lines 1512-1526). *)
Definition scheduleAnalysis (filePath : string) (delay : nat) (s : t) : t :=
  let timers1 :=
    match analysisQueue s !! filePath with
    | Some existingTimeout => delete existingTimeout (timers s)
    | None => timers s
    end in
  let timeout := S (nextTimer s) in
  mk (<[filePath := timeout]> (analysisQueue s))
     (<[timeout := (filePath, delay)]> timers1)
     timeout (activeTextEditor s) (performed s) (rendered s) (cleared s).

(** [performAnalysis] (lines 1528-1546), up to the call of
    [updateDecorations]; what follows the [await] (the refresh of the
    lenses, the status text and the timer that hides it) touches neither
    the queue nor its timers. *)
Definition performAnalysis (filePath : string) (s : t) : t :=
  mk (analysisQueue s) (timers s) (nextTimer s) (activeTextEditor s)
     (filePath :: performed s)
     (if bool_decide (activeTextEditor s = Some filePath)
      then filePath :: rendered s else rendered s)
     (cleared s).

(** The callback of a timer of [scheduleAnalysis] (lines 1520-1523); a
    timer that is not armed does not fire. *)
Definition timerFires (h : nat) (s : t) : t :=
  match timers s !! h with
  | None => s
  | Some (filePath, _) =>
      let s1 := mk (analysisQueue s) (delete h (timers s)) (nextTimer s)
                   (activeTextEditor s) (performed s) (rendered s) (cleared s) in
      let s2 := performAnalysis filePath s1 in
      mk (delete filePath (analysisQueue s2)) (timers s2) (nextTimer s2)
         (activeTextEditor s2) (performed s2) (rendered s2) (cleared s2)
  end.

Definition clearCache (filePath : string) (s : t) : t :=
  mk (analysisQueue s) (timers s) (nextTimer s) (activeTextEditor s)
     (performed s) (rendered s) (filePath :: cleared s).

(** [dispose()] (lines 1553-1558): every timer of the queue is cleared,
    the queue emptied. *)
Definition dispose (s : t) : t :=
  mk ∅ (map_fold (λ _ timeout ts, delete timeout ts) (timers s) (analysisQueue s))
     (nextTimer s) (activeTextEditor s) (performed s) (rendered s) (cleared s).

(** The events of the editor and of the runtime.  [setupEventListeners]
    (lines 1468-1510) subscribes to the first four; it subscribes to no
    close event. *)
Inductive Event :=
| DidOpenTextDocument (document : TextDocument)
| DidChangeActiveTextEditor (editor : option TextDocument)
| DidSaveTextDocument (document : TextDocument)
| DidChangeTextDocument (document : TextDocument)
| DidCloseTextDocument (document : TextDocument)
| TimerFires (h : nat)
| Dispose.

Definition handle (e : Event) (s : t) : t :=
  match e with
  | DidOpenTextDocument document =>
      if is_python document then scheduleAnalysis (fileName document) 100 s else s
  | DidChangeActiveTextEditor editor =>
      let s1 := mk (analysisQueue s) (timers s) (nextTimer s) (fileName <$> editor)
                   (performed s) (rendered s) (cleared s) in
      match editor with
      | Some document =>
          if is_python document then scheduleAnalysis (fileName document) 50 s1 else s1
      | None => s1
      end
  | DidSaveTextDocument document =>
      if is_python document
      then scheduleAnalysis (fileName document) 200 (clearCache (fileName document) s)
      else s
  | DidChangeTextDocument document =>
      if is_python document then scheduleAnalysis (fileName document) 1000 s else s
  | DidCloseTextDocument _ => s
  | TimerFires h => timerFires h s
  | Dispose => dispose s
  end.

Definition run (es : list Event) (s : t) : t := foldl (λ s' e, handle e s') s es.

Inductive reachable : t → Prop :=
| reachable_new : reachable new
| reachable_handle e s : reachable s → reachable (handle e s).

End DocumentManager.

(** The same [DocumentManager] together with its status bar item.
    [manager] is the state above.  [decorating] are the calls of
    [performAnalysis] that are suspended in
    [await this.decorationProvider.updateDecorations(editor)], oldest
    first; [hiding] is the number of armed timers whose callback is
    [this.statusBarItem.hide()] (lines 1451-1453 and 1538-1540: their
    handles are not kept); [disposed] tells whether [dispose()] has run,
    and [hides] lists the calls of [hide()], newest first, each with the
    value of [disposed] at that time. *)
Module DocumentManagerStatusBar.

Record t := mk {
  manager : DocumentManager.t;
  decorating : list string;
  hiding : nat;
  disposed : bool;
  hides : list bool
}.

Definition new : t := mk DocumentManager.new [] 0 false [].

Definition set_manager v s := mk v (decorating s) (hiding s) (disposed s) (hides s).

(** [performAnalysis] (lines 1528-1546) up to its suspension: when the
    file is the one of the active editor, the call awaits
    [updateDecorations]. *)
Definition performAnalysis (filePath : string) (s : t) : t :=
  mk (DocumentManager.performAnalysis filePath (manager s))
     (if bool_decide (DocumentManager.activeTextEditor (manager s) = Some filePath)
      then decorating s ++ [filePath] else decorating s)
     (hiding s) (disposed s) (hides s).

(** The callback of a timer of [scheduleAnalysis] (lines 1520-1523). *)
Definition timerFires (h : nat) (s : t) : t :=
  match DocumentManager.timers (manager s) !! h with
  | None => s
  | Some (filePath, _) =>
      set_manager (DocumentManager.timerFires h (manager s))
        (performAnalysis filePath s)
  end.

(** The rest of [performAnalysis] (lines 1536-1545) for the [k]-th
    suspended call: when [updateDecorations] has returned, the status is
    updated and a timer is armed that hides the item two seconds later;
    when it has thrown, the [catch] block arms none. *)
Definition decorationsUpdated (k : nat) (ok : bool) (s : t) : t :=
  match decorating s !! k with
  | None => s
  | Some _ =>
      mk (manager s) (delete k (decorating s))
         (if ok then S (hiding s) else hiding s) (disposed s) (hides s)
  end.

(** The rest of [preloadAnalyzer] (lines 1447-1453) when
    [analyzer.initialize()] has returned: a timer is armed that hides the
    item three seconds later. *)
Definition analyzerInitialized (s : t) : t :=
  mk (manager s) (decorating s) (S (hiding s)) (disposed s) (hides s).

(** The callback of one of these timers: [this.statusBarItem.hide()]. *)
Definition statusTimerFires (s : t) : t :=
  match hiding s with
  | 0 => s
  | S n => mk (manager s) (decorating s) n (disposed s) (disposed s :: hides s)
  end.

(** [refreshAnalysis] (lines 1548-1551) up to its suspension. *)
Definition refreshAnalysis (filePath : string) (s : t) : t :=
  performAnalysis filePath (set_manager (DocumentManager.clearCache filePath (manager s)) s).

(** [dispose()] (lines 1553-1568): the timers of the queue are cleared
    and the status bar item is disposed of; the timers that hide the item
    are not cleared. *)
Definition dispose (s : t) : t :=
  mk (DocumentManager.dispose (manager s)) (decorating s) (hiding s) true (hides s).

Inductive Event :=
| Manager (e : DocumentManager.Event)
| AnalyzerInitialized
| RefreshAnalysis (filePath : string)
| DecorationsUpdated (k : nat) (ok : bool)
| StatusTimerFires.

Definition handle (e : Event) (s : t) : t :=
  match e with
  | Manager (DocumentManager.TimerFires h) => timerFires h s
  | Manager DocumentManager.Dispose => dispose s
  | Manager e' => set_manager (DocumentManager.handle e' (manager s)) s
  | AnalyzerInitialized => analyzerInitialized s
  | RefreshAnalysis filePath => refreshAnalysis filePath s
  | DecorationsUpdated k ok => decorationsUpdated k ok s
  | StatusTimerFires => statusTimerFires s
  end.

Definition run (es : list Event) (s : t) : t := foldl (λ s' e, handle e s') s es.

Inductive reachable : t → Prop :=
| reachable_new : reachable new
| reachable_handle e s : reachable s → reachable (handle e s).

End DocumentManagerStatusBar.

(** The [DocumentManager] that debounces by editor ([debounceTimers],
    lines 366-457); a document is identified by its [fileName]. *)
Module EditorDocumentManager.

(** [debounceTimers] maps a file path to the handle of its timer.  The
    runtime holds the armed timers with the [filePath] of the editor their
    callback captured, the handles given out, the active editor's file,
    and the callbacks that have fired and are suspended in
    [await updateDecorations(editor)] ([updating]); [updated] lists the
    calls of [updateDecorations], [cleared] those of
    [analyzer.clearFileCache], newest first. *)
Record t := mk {
  debounceTimers : gmap string nat;
  timers : gmap nat string;
  nextTimer : nat;
  activeTextEditor : option string;
  updating : list string;
  updated : list string;
  cleared : list string
}.

Definition new : t := mk ∅ ∅ 0 None [] [] [].

(** [scheduleAnalysis] (lines 423-447), for the [fileName] of the
    editor's document. *)
Definition scheduleAnalysis (filePath : string) (s : t) : t :=
  let timers1 :=
    match debounceTimers s !! filePath with
    | Some existingTimer => delete existingTimer (timers s)
    | None => timers s
    end in
  let timer := S (nextTimer s) in
  mk (<[filePath := timer]> (debounceTimers s)) (<[timer := filePath]> timers1)
     timer (activeTextEditor s) (updating s) (updated s) (cleared s).

(** The callback of a timer (lines 435-444) up to
    [await updateDecorations(editor)]. *)
Definition timerFires (h : nat) (s : t) : t :=
  match timers s !! h with
  | None => s
  | Some filePath =>
      mk (debounceTimers s) (delete h (timers s)) (nextTimer s) (activeTextEditor s)
         (updating s ++ [filePath]) (filePath :: updated s) (cleared s)
  end.

(** The [finally] block of the [k]-th suspended callback. *)
Definition callbackFinishes (k : nat) (s : t) : t :=
  match updating s !! k with
  | None => s
  | Some filePath =>
      mk (delete filePath (debounceTimers s)) (timers s) (nextTimer s)
         (activeTextEditor s) (take k (updating s) ++ drop (S k) (updating s))
         (updated s) (cleared s)
  end.

Definition clearFileCache (filePath : string) (s : t) : t :=
  mk (debounceTimers s) (timers s) (nextTimer s) (activeTextEditor s)
     (updating s) (updated s) (filePath :: cleared s).

(** The listener of [onDidCloseTextDocument] (lines 409-420). *)
Definition didClose (document : TextDocument) (s : t) : t :=
  if is_python document then
    let s1 := clearFileCache (fileName document) s in
    match debounceTimers s1 !! fileName document with
    | Some timerId =>
        mk (delete (fileName document) (debounceTimers s1)) (delete timerId (timers s1))
           (nextTimer s1) (activeTextEditor s1) (updating s1) (updated s1) (cleared s1)
    | None => s1
    end
  else s.

Inductive Event :=
| DidChangeActiveTextEditor (editor : option TextDocument)
| DidSaveTextDocument (document : TextDocument)
| DidCloseTextDocument (document : TextDocument)
| TimerFires (h : nat)
| CallbackFinishes (k : nat).

Definition handle (e : Event) (s : t) : t :=
  match e with
  | DidChangeActiveTextEditor editor =>
      let s1 := mk (debounceTimers s) (timers s) (nextTimer s) (fileName <$> editor)
                   (updating s) (updated s) (cleared s) in
      match editor with
      | Some document =>
          if is_python document then scheduleAnalysis (fileName document) s1 else s1
      | None => s1
      end
  | DidSaveTextDocument document =>
      if is_python document then
        let s1 := clearFileCache (fileName document) s in
        if bool_decide (activeTextEditor s1 = Some (fileName document))
        then scheduleAnalysis (fileName document) s1 else s1
      else s
  | DidCloseTextDocument document => didClose document s
  | TimerFires h => timerFires h s
  | CallbackFinishes k => callbackFinishes k s
  end.

Definition run (es : list Event) (s : t) : t := foldl (λ s' e, handle e s') s es.

Inductive reachable : t → Prop :=
| reachable_new : reachable new
| reachable_handle e s : reachable s → reachable (handle e s).

End EditorDocumentManager.

(** ** The worker's stdout, chunk by chunk *)

(** The [data] listener of the child's stdout and the head of
    [processOutput] (lines 688-693 and 712-717): what [outputBuffer] does
    between the chunks the child writes and the lines the loop decodes.
    A string of the runtime is the list of its UTF-16 code units. *)
Module PythonProcessStdout.
Import PythonProcessManager.

Definition newline : N := 10.

(** [s.split('\n')]: the pieces between the line feeds, at least one. *)
Fixpoint split (s : list N) : list (list N) :=
  match s with
  | [] => [[]]
  | c :: s' =>
      if (c =? newline)%N then [] :: split s'
      else match split s' with
           | piece :: pieces => (c :: piece) :: pieces
           | [] => [[c]]
           end
  end.

(** [lines] once [lines.pop()] has taken the last piece out, for
    [this.outputBuffer + output]. *)
Definition complete_lines (outputBuffer output : list N) : list (list N) :=
  removelast (split (outputBuffer ++ output)).

(** [lines.pop() || ''], the new [outputBuffer]. *)
Definition remainder (outputBuffer output : list N) : list N :=
  default [] (last (split (outputBuffer ++ output))).

(** The code units [trim()] strips: white space and line terminators. *)
Definition is_whitespace (c : N) : bool :=
  bool_decide
    (c ∈ [9; 10; 11; 12; 13; 32; 160; 5760; 8232; 8233; 8239; 8287; 12288; 65279]%N)
  || ((8192 <=? c) && (c <=? 8202))%N.

Section Parser.

(** [JSON.parse(line)] as far as the loop reads its value: [None] when
    it throws, or yields [null] so that reading [response.type] throws;
    both end in the [catch] of line 729. *)
Variable JSON_parse : list N → option Response.

(** The guard [line.trim()] and the [try] block of lines 717-731. *)
Definition decode (line : list N) : Line :=
  if forallb is_whitespace line then Blank
  else match JSON_parse line with
       | Some response => Message response
       | None => Malformed
       end.

(** The manager together with its [outputBuffer]. *)
Record t := mk {
  manager : PythonProcessManager.t;
  outputBuffer : list N
}.

(** The [data] listener, for the string [output] that [data.toString()]
    gives for a chunk of [child] (line 689); the decoding of the bytes is
    not part of the model. *)
Definition onData (child : nat) (output : list N) (s : t) : t :=
  mk (processOutput child (decode <$> complete_lines (outputBuffer s) output) (manager s))
     (remainder (outputBuffer s) output).

(** Every other callback of the manager: [outputBuffer] is written at
    lines 691 and 714 only. *)
Definition control (e : PythonProcessManager.Event) (s : t) : t :=
  mk (PythonProcessManager.step e (manager s)) (outputBuffer s).

End Parser.

End PythonProcessStdout.

(** ** The analyzer before it is initialised *)

(** [findPythonPath] (lines 1050-1076). *)
Module PythonPath.

(** What [pythonApi.settings.getExecutionDetails] gives: the API is
    absent, reading it or calling it throws, or the call returns and
    [details?.execCommand?.[0]] has the given value. *)
Inductive ExecutionDetails :=
| NoApi
| ApiThrows
| ExecCommand (first : option string).

(** What the function reads of its host: the Python extension (its
    [isActive] flag and API) if installed, the two settings of the
    [python] section, and [process.platform]. *)
Record Host := mkHost {
  pythonExtension : option (bool * ExecutionDetails);
  pythonPath : option string;
  defaultInterpreterPath : option string;
  platform : string
}.

Definition fromConfiguration (h : Host) : string :=
  let configured :=
    if truthy (pythonPath h) then pythonPath h else defaultInterpreterPath h in
  if truthy configured then default "" configured
  else if String.eqb (platform h) "win32" then "python" else "python3".

Definition findPythonPath (h : Host) : string :=
  match pythonExtension h with
  | Some (true, ExecCommand first) =>
      if truthy first then default "" first else fromConfiguration h
  | _ => fromConfiguration h
  end.

End PythonPath.

(** [initialize], the head of [analyzeFile] and [dispose] of
    [PythonOverrideAnalyzer] (lines 970-1009 and 1086-1089), from the
    construction of the analyzer on: [isInitialized] may be false. *)
Module AnalyzerStartup.

Module Link := PythonProcessManager.
Module Cache := IntelligentCache.

(** [processManager] names the manager the field holds by its rank among
    the managers created ([managers], in order of creation: an object the
    field no longer holds is still there, with its child).
    [initializing] are the calls of [initialize] suspended on
    [await this.processManager.start()]: the rank of the manager each has
    created and, when the call was made by [analyzeFile], the [filePath]
    of that call and the outcome its write will have. *)
Record t := mk {
  processManager : option nat;
  isInitialized : bool;
  cache : Cache.t;
  disk : Disk;
  managers : list Link.t;
  initializing : list (nat * option (string * option string))
}.

Definition set_isInitialized v st :=
  mk (processManager st) v (cache st) (disk st) (managers st) (initializing st).
Definition set_cache v st :=
  mk (processManager st) (isInitialized st) v (disk st) (managers st) (initializing st).
Definition set_managers v st :=
  mk (processManager st) (isInitialized st) (cache st) (disk st) v (initializing st).
Definition set_initializing v st :=
  mk (processManager st) (isInitialized st) (cache st) (disk st) (managers st) v.

(** The constructor (lines 966-968), over the snapshot [loadCache]
    finds. *)
Definition new (snapshot : option ProjectIndex) (d : Disk) : t :=
  mk None false (Cache.loadCache snapshot) d [] [].

Inductive Completion :=
| Returns
| Throws
| Suspended.

(** [initialize()] (lines 970-996) up to its suspension, for the call
    [caller] of [analyzeFile] if there is one; [script_exists] is
    [fs.existsSync(scriptPath)], [spawn_ok] tells whether [spawn]
    returns. *)
Definition initialize_for (caller : option (string * option string))
    (script_exists spawn_ok : bool) (st : t) : Completion * t :=
  if isInitialized st then (Returns, st)
  else if negb script_exists then (Throws, st)
  else
    let k := length (managers st) in
    let '(started, m) := Link.start spawn_ok Link.new in
    let st1 := mk (Some k) (isInitialized st) (cache st) (disk st)
                  (managers st ++ [m]) (initializing st) in
    match started with
    | Link.Throws => (Throws, st1)
    | Link.ReturnsReadyPromise =>
        if Link.readyPromise m then (Returns, set_isInitialized true st1)
        else (Suspended, set_initializing (initializing st1 ++ [(k, caller)]) st1)
    end.

Definition initialize : bool → bool → t → Completion * t := initialize_for None.

(** How a call of [analyzeFile] leaves its first stretch (lines
    998-1009): it returns, it is rejected by the error [initialize()]
    throws (the [await] of line 1005 is outside the [try] block), or it
    is suspended, on [initialize()] or on the request it made. *)
Inductive Outcome :=
| Returned (overrides : list OverrideInfo)
| Rejected
| Waiting.

(** [this.processManager!.analyzeFile(filePath)] (line 1009), inside the
    [try] block: on a null [processManager] the call throws, and the
    [catch] block returns the empty array. *)
Definition request (filePath : string) (write_error : option string) (st : t)
    : Outcome * t :=
  match processManager st with
  | Some k =>
      match managers st !! k with
      | Some m =>
          (Waiting,
           set_managers (<[k := Link.analyzeFile filePath write_error m]> (managers st)) st)
      | None => (Returned [], st)
      end
  | None => (Returned [], st)
  end.

(** [analyzeFile(filePath)] (lines 998-1009). *)
Definition analyzeFile (filePath : string) (write_error : option string)
    (script_exists spawn_ok : bool) (st : t) : Outcome * t :=
  match Cache.get (disk st) filePath (cache st) with
  | (Some cached, c) => (Returned cached, set_cache c st)
  | (None, c) =>
      let st1 := set_cache c st in
      if isInitialized st1 then request filePath write_error st1
      else
        match initialize_for (Some (filePath, write_error)) script_exists spawn_ok st1 with
        | (Throws, st2) => (Rejected, st2)
        | (Suspended, st2) => (Waiting, st2)
        | (Returns, st2) => request filePath write_error st2
        end
  end.

(** A call of [initialize] goes on once [start()] has returned: it sets
    [isInitialized], and the call of [analyzeFile] behind it makes its
    request, to the manager the field holds by then. *)
Definition resume (st : t) (call : nat * option (string * option string)) : t :=
  let st1 := set_isInitialized true st in
  match call.2 with
  | Some (filePath, write_error) => (request filePath write_error st1).2
  | None => st1
  end.

(** The stdout listener of manager [k], for the complete lines of a
    chunk of its child [c]; when the chunk resolves [readyPromise], the
    calls of [initialize] that await it go on. *)
Definition stdout (k c : nat) (lines : list Link.Line) (st : t) : t :=
  match managers st !! k with
  | None => st
  | Some m =>
      if Link.is_child c m then
        let m' := Link.processOutput c lines m in
        let st1 := set_managers (<[k := m']> (managers st)) st in
        if negb (Link.readyPromise m) && Link.readyPromise m' then
          foldl resume
            (set_initializing (filter (λ call, call.1 ≠ k) (initializing st1)) st1)
            (filter (λ call, call.1 = k) (initializing st1))
        else st1
      else st
  end.

(** The [exit] and [error] listeners of manager [k]. *)
Definition exited (k c : nat) (st : t) : t :=
  match managers st !! k with
  | None => st
  | Some m =>
      if Link.is_child c m
      then set_managers (<[k := Link.cleanup m]> (managers st)) st
      else st
  end.

(** [dispose()] (lines 1086-1089): [this.processManager?.dispose()],
    then [this.cache.dispose()], which persists the index. *)
Definition dispose (st : t) : t :=
  let st1 :=
    match processManager st with
    | Some k =>
        match managers st !! k with
        | Some m => set_managers (<[k := Link.dispose m]> (managers st)) st
        | None => st
        end
    | None => st
    end in
  set_cache (Cache.persistCache (disk st1) (cache st1)) st1.

Inductive Event :=
| Initialize (script_exists spawn_ok : bool)
| AnalyzeFile (filePath : string) (write_error : option string)
    (script_exists spawn_ok : bool)
| Stdout (k c : nat) (lines : list Link.Line)
| ChildExit (k c : nat)
| Dispose.

Definition step (e : Event) (st : t) : t :=
  match e with
  | Initialize script_exists spawn_ok => (initialize script_exists spawn_ok st).2
  | AnalyzeFile filePath write_error script_exists spawn_ok =>
      (analyzeFile filePath write_error script_exists spawn_ok st).2
  | Stdout k c lines => stdout k c lines st
  | ChildExit k c => exited k c st
  | Dispose => dispose st
  end.

Definition run (es : list Event) (st : t) : t := foldl (λ st' e, step e st') st es.

Inductive reachable : t → Prop :=
| reachable_new snapshot d : reachable (new snapshot d)
| reachable_step e st : reachable st → reachable (step e st).

(** The managers that hold a child: one that was spawned and has neither
    exited nor been killed by [dispose]. *)
Definition running (st : t) : list Link.t :=
  filter (λ m, is_Some (Link.pythonProcess m)) (managers st).

End AnalyzerStartup.

(** ** Decorations and code lenses *)

(** A JavaScript [Map] whose iteration order matters: the entries in
    the order of the first insertion of their keys. *)
Module OrderedMap.
Section OrderedMap.
Context {K V : Type} `{EqDecision K}.

Fixpoint get (k : K) (m : list (K * V)) : option V :=
  match m with
  | [] => None
  | (k', v) :: m' => if decide (k = k') then Some v else get k m'
  end.

Fixpoint set (k : K) (v : V) (m : list (K * V)) : list (K * V) :=
  match m with
  | [] => [(k, v)]
  | (k', v') :: m' =>
      if decide (k = k') then (k, v) :: m' else (k', v') :: set k v m'
  end.

End OrderedMap.
End OrderedMap.

(** What the providers read of a document: its [fileName] and
    [languageId], and [lineAt(i).text] for [i] below [lineCount]. *)
Record Editor := mkEditor {
  document : TextDocument;
  text : list string
}.

Definition lineCount (editor : Editor) : nat := length (text editor).

(** [OverrideDecorationProvider] (lines 1095-1273). *)
Module OverrideDecorationProvider.

(** A [vscode.DecorationOptions]: the line of its empty [range], and the
    override [createHoverMessage] builds its [hoverMessage] from, if it
    has one. *)
Record Decoration := mkDecoration {
  range : Z;
  hoverMessage : option OverrideInfo
}.

(** A value of [lineMap]. *)
Record LineEntry := mkLineEntry {
  entry_child : option Decoration;
  entry_parent : option Decoration
}.

(** A value of [classMap]. *)
Record ClassFlags := mkClassFlags {
  flag_child : bool;
  flag_parent : bool
}.

(** The three arrays handed to [setDecorations]. *)
Record Decorations := mkDecorations {
  childOverrideDecorations : list Decoration;
  parentOverriddenDecorations : list Decoration;
  bothDecorations : list Decoration
}.

Definition is_child_override (override : OverrideInfo) : bool :=
  bool_decide (type_ override = Some "child_override").

Definition is_parent_overridden (override : OverrideInfo) : bool :=
  bool_decide (type_ override = Some "parent_overridden").

(** The body of the loop over [overrides] (lines 1160-1183); a [line]
    that is not a number fails both comparisons. *)
Definition collect (count : nat)
    (maps : list (Z * LineEntry) * list (string * ClassFlags))
    (override : OverrideInfo) : list (Z * LineEntry) * list (string * ClassFlags) :=
  let '(lineMap, classMap) := maps in
  let lineMap1 :=
    match line override with
    | Some n =>
        let line := (n - 1)%Z in
        if (0 <=? line)%Z && (line <? Z.of_nat count)%Z then
          let decoration := mkDecoration line (Some override) in
          let entry := default (mkLineEntry None None) (OrderedMap.get line lineMap) in
          let entry1 :=
            if is_child_override override
            then mkLineEntry (Some decoration) (entry_parent entry)
            else if is_parent_overridden override
            then mkLineEntry (entry_child entry) (Some decoration)
            else entry in
          OrderedMap.set line entry1 lineMap
        else lineMap
    | None => lineMap
    end in
  let info := default (mkClassFlags false false)
                (OrderedMap.get (class_ override) classMap) in
  let info1 := mkClassFlags (is_child_override override || flag_child info)
                 (is_parent_overridden override || flag_parent info) in
  (lineMap1, OrderedMap.set (class_ override) info1 classMap).

(** The body of the loop over [lineMap] (lines 1186-1194). *)
Definition assign (arrays : Decorations) (types : LineEntry) : Decorations :=
  match entry_child types, entry_parent types with
  | Some child, Some _ =>
      mkDecorations (childOverrideDecorations arrays)
        (parentOverriddenDecorations arrays) (bothDecorations arrays ++ [child])
  | Some child, None =>
      mkDecorations (childOverrideDecorations arrays ++ [child])
        (parentOverriddenDecorations arrays) (bothDecorations arrays)
  | None, Some parent =>
      mkDecorations (childOverrideDecorations arrays)
        (parentOverriddenDecorations arrays ++ [parent]) (bothDecorations arrays)
  | None, None => arrays
  end.

(** The arrays once the first two loops have run: the method-level
    decorations. *)
Definition methodDecorations (count : nat) (overrides : list OverrideInfo)
    : Decorations :=
  let lineMap := (foldl (collect count) ([], []) overrides).1 in
  foldl assign (mkDecorations [] [] []) lineMap.*2.

Section ClassPattern.

(** [new RegExp(`^\\s*class\\s+${className}\\b`)]: [None] when the
    constructor throws on the pattern, otherwise the [test] of the
    expression. *)
Variable class_pattern : string → option (string → bool).

(** [findClassLine] (lines 1132-1141): [None] when it throws, otherwise
    the line found or [null]. *)
Definition findClassLine (editor : Editor) (className : string)
    : option (option nat) :=
  match class_pattern className with
  | Some test => Some (fst <$> list_find (λ t, test t = true) (text editor))
  | None => None
  end.

(** The body of the loop over [classMap] (lines 1197-1210); [None] once
    [findClassLine] has thrown. *)
Definition assignClass (editor : Editor) (arrays : option Decorations)
    (entry : string * ClassFlags) : option Decorations :=
  match arrays with
  | Some arrays =>
      match findClassLine editor entry.1 with
      | Some (Some classLine) =>
          let decoration := mkDecoration (Z.of_nat classLine) None in
          if flag_child entry.2 && flag_parent entry.2 then
            Some (mkDecorations (childOverrideDecorations arrays)
                    (parentOverriddenDecorations arrays)
                    (bothDecorations arrays ++ [decoration]))
          else if flag_child entry.2 then
            Some (mkDecorations (childOverrideDecorations arrays ++ [decoration])
                    (parentOverriddenDecorations arrays) (bothDecorations arrays))
          else if flag_parent entry.2 then
            Some (mkDecorations (childOverrideDecorations arrays)
                    (parentOverriddenDecorations arrays ++ [decoration])
                    (bothDecorations arrays))
          else Some arrays
      | Some None => Some arrays
      | None => None
      end
  | None => None
  end.

(** [updateDecorations(editor)] (lines 1143-1221), given how the call of
    [analyzer.analyzeFile] ends ([None]: it is rejected): the arrays
    handed to the three [setDecorations] calls, or [None] when the
    function returns before them, at line 1145 or through the [catch]
    block. *)
Definition updateDecorations (editor : Editor)
    (analysis : option (list OverrideInfo)) : option Decorations :=
  if negb (is_python (document editor)) then None
  else
    match analysis with
    | Some overrides =>
        let classMap := (foldl (collect (lineCount editor)) ([], []) overrides).2 in
        foldl (assignClass editor)
              (Some (methodDecorations (lineCount editor) overrides)) classMap
    | None => None
    end.

End ClassPattern.

End OverrideDecorationProvider.

(** [OverrideCodeLensProvider] (lines 1278-1411) and the command
    [pythonOverrideHint.quickPickRelations] its class lenses run (lines
    1599-1606). *)
Module OverrideCodeLensProvider.

(** A value of the maps [bases] and [children]. *)
Record Target := mkTarget {
  target_name : string;
  target_path : string;
  target_line : Z
}.

(** A value of [byClassDetail]. *)
Record ClassDetail := mkClassDetail {
  bases : list (string * Target);
  children : list (string * Target)
}.

(** An element of the [items] a class lens passes to its command. *)
Record Item := mkItem {
  item_label : string;
  item_detail : string;
  item_path : string;
  item_line : Z
}.

(** The [title] of a lens, by the template it is built from and the
    values the template interpolates:
    [`↑ Go to base: ${override.base}`],
    [`↓ Go to override: ${override.child}`], and for the lens of a class
    [`↑ Base: ${size} 父类`] or [`↑ Base: ${names}`], and
    [`↓ Overridden by: ${size} 子类`] or [`↓ Overridden by: ${names}`],
    where [names] is joined by a comma and a space. *)
Inductive Title :=
| GoToBase (base : option string)
| GoToOverride (child : option string)
| BaseCount (size : nat)
| BaseNames (names : list string)
| OverriddenByCount (size : nat)
| OverriddenByNames (names : list string).

(** The command of a lens: [vscode.open] on [file], with the line of
    the selection when the override has one, or
    [pythonOverrideHint.quickPickRelations] on [items]. *)
Inductive Command :=
| VscodeOpen (title : Title) (file : string) (selection : option Z)
| QuickPickRelations (title : Title) (items : list Item).

(** A [vscode.CodeLens]: the line of its empty [range] and its
    command. *)
Record CodeLens := mkCodeLens {
  lens_range : Z;
  lens_command : Command
}.

(** The settings [classCodeLens.enabled] and [classCodeLens.style]. *)
Record Configuration := mkConfiguration {
  classLensEnabled : bool;
  classLensStyle : string
}.

(** Truthiness of an optional number. *)
Definition truthy_number (v : option Z) : bool :=
  match v with
  | Some n => negb (n =? 0)%Z
  | None => false
  end.

Section Editor.

(** [class_pattern] is as for the decorations.  [selection_ok] tells
    whether [new vscode.Range(n, 0, n, 0)] returns rather than throws
    for the number [n] that [base_line! - 1] or [child_line! - 1]
    yields, unchecked, from the given line of an override ([None] when
    the override has none). *)
Variable class_pattern : string → option (string → bool).
Variable selection_ok : option Z → bool.

(** The body of the loop of lines 1313-1339; [None] once the
    construction of a lens has thrown. *)
Definition methodLens (count : nat) (lenses : option (list CodeLens))
    (override : OverrideInfo) : option (list CodeLens) :=
  match lenses with
  | Some codeLenses =>
      match line override with
      | Some n =>
          let line := (n - 1)%Z in
          if (0 <=? line)%Z && (line <? Z.of_nat count)%Z then
            if OverrideDecorationProvider.is_child_override override
               && truthy (base_file_path override) then
              let selection := Z.pred <$> base_line override in
              if selection_ok (base_line override) then
                Some (codeLenses ++
                      [mkCodeLens line
                         (VscodeOpen (GoToBase (base override))
                            (default "" (base_file_path override)) selection)])
              else None
            else if OverrideDecorationProvider.is_parent_overridden override
                    && truthy (child_file_path override) then
              let selection := Z.pred <$> child_line override in
              if selection_ok (child_line override) then
                Some (codeLenses ++
                      [mkCodeLens line
                         (VscodeOpen (GoToOverride (child override))
                            (default "" (child_file_path override)) selection)])
              else None
            else Some codeLenses
          else Some codeLenses
      | None => Some codeLenses
      end
  | None => None
  end.

(** The body of the loop of lines 1344-1353. *)
Definition collectDetail (byClassDetail : list (string * ClassDetail))
    (o : OverrideInfo) : list (string * ClassDetail) :=
  let entry := default (mkClassDetail [] [])
                 (OrderedMap.get (class_ o) byClassDetail) in
  let entry1 :=
    if OverrideDecorationProvider.is_child_override o && truthy (base o)
       && truthy (base_file_path o) && truthy_number (base_line o)
    then mkClassDetail
           (OrderedMap.set (default "" (base o))
              (mkTarget (default "" (base o)) (default "" (base_file_path o))
                 (default 0%Z (base_line o)))
              (bases entry))
           (children entry)
    else entry in
  let entry2 :=
    if OverrideDecorationProvider.is_parent_overridden o && truthy (child o)
       && truthy (child_file_path o) && truthy_number (child_line o)
    then mkClassDetail (bases entry1)
           (OrderedMap.set (default "" (child o))
              (mkTarget (default "" (child o)) (default "" (child_file_path o))
                 (default 0%Z (child_line o)))
              (children entry1))
    else entry1 in
  OrderedMap.set (class_ o) entry2 byClassDetail.

(** [Array.from(targets.values()).map(...)], the [items] of a class
    lens. *)
Definition items_of (targets : list (string * Target)) : list Item :=
  (λ b, mkItem (target_name b) (target_path b) (target_path b) (target_line b))
    <$> targets.*2.

Definition names_of (targets : list (string * Target)) : list string :=
  target_name <$> targets.*2.

(** The body of the loop of lines 1355-1398; [None] once
    [findClassLine] has thrown. *)
Definition classLens (editor : Editor) (style : string)
    (lenses : option (list CodeLens)) (entry : string * ClassDetail)
    : option (list CodeLens) :=
  match lenses with
  | Some codeLenses =>
      match OverrideDecorationProvider.findClassLine class_pattern editor entry.1 with
      | Some (Some classLine) =>
          let range := Z.of_nat classLine in
          let codeLenses1 :=
            match bases entry.2 with
            | [] => codeLenses
            | _ =>
                codeLenses ++
                [mkCodeLens range
                   (QuickPickRelations
                      (if String.eqb style "summary"
                       then BaseCount (length (bases entry.2))
                       else BaseNames (names_of (bases entry.2)))
                      (items_of (bases entry.2)))]
            end in
          let codeLenses2 :=
            match children entry.2 with
            | [] => codeLenses1
            | _ =>
                codeLenses1 ++
                [mkCodeLens range
                   (QuickPickRelations
                      (if String.eqb style "summary"
                       then OverriddenByCount (length (children entry.2))
                       else OverriddenByNames (names_of (children entry.2)))
                      (items_of (children entry.2)))]
            end in
          Some codeLenses2
      | Some None => Some codeLenses
      | None => None
      end
  | None => None
  end.

(** [provideCodeLenses(document)] (lines 1298-1406), given how the call
    of [analyzer.analyzeFile] ends ([None]: it is rejected). *)
Definition provideCodeLenses (editor : Editor) (config : Configuration)
    (analysis : option (list OverrideInfo)) : list CodeLens :=
  if negb (is_python (document editor)) then []
  else
    match analysis with
    | Some overrides =>
        let methodLenses := foldl (methodLens (lineCount editor)) (Some []) overrides in
        default []
          (if classLensEnabled config
           then foldl (classLens editor (classLensStyle config)) methodLenses
                  (foldl collectDetail [] overrides)
           else methodLenses)
    | None => []
    end.

End Editor.

(** The command [pythonOverrideHint.quickPickRelations] (lines
    1599-1606) up to [if (matched)]: [choice] is the rank of the entry
    the user picks in the list [showQuickPick] shows, if any; the result
    is the item whose file the command goes on to show. *)
Definition quickPickRelations (items : list Item) (choice : option nat)
    : option Item :=
  let shown := (λ i, (item_label i, item_detail i)) <$> items in
  match choice ≫= (shown !!.) with
  | Some pick =>
      List.find
        (λ i, bool_decide (item_label i = pick.1) && bool_decide (item_detail i = pick.2))
        items
  | None => None
  end.

End OverrideCodeLensProvider.

(** ** The earlier listing: one process per analysis *)

(** [AnalysisCache] (lines 36-69); [now] is [Date.now()]. *)
Module AnalysisCache.

Record Cached := mkCached {
  cached_overrides : list OverrideInfo;
  timestamp : Z
}.

Definition t := gmap string Cached.

Definition CACHE_DURATION : Z := 30000.

Definition set (now : Z) (filePath : string) (overrides : list OverrideInfo) (c : t)
    : t :=
  <[filePath := mkCached overrides now]> c.

(** [get]: the result, [None] for [null], and the cache after the
    call. *)
Definition get (now : Z) (filePath : string) (c : t)
    : option (list OverrideInfo) * t :=
  match c !! filePath with
  | None => (None, c)
  | Some cached =>
      if (CACHE_DURATION <? now - timestamp cached)%Z
      then (None, delete filePath c)
      else (Some (cached_overrides cached), c)
  end.

Definition clear (c : t) : t := ∅.

Definition delete_ (filePath : string) (c : t) : t := delete filePath c.

End AnalysisCache.

(** The [PythonOverrideAnalyzer] of the earlier listing (lines 74-179),
    which spawns a process for every analysis. *)
Module ProcessAnalyzer.

(** [pendingAnalysis] maps a file to the promise [runPythonAnalysis]
    returned for it, named by the rank of the process it spawned.  The
    runtime holds the promises that are not settled ([analyses]: for
    each, the [filePath] of the call that created it and awaits it in
    the [try] block) and the number of further calls that returned the
    same promise ([joined]); [spawned] counts the processes, [returned]
    lists the calls that are over, newest first, with their result
    ([None]: the call was rejected). *)
Record t := mk {
  cache : AnalysisCache.t;
  pendingAnalysis : gmap string nat;
  spawned : nat;
  analyses : gmap nat string;
  joined : gmap nat nat;
  returned : list (string * option (list OverrideInfo))
}.

Definition new : t := mk ∅ ∅ 0 ∅ ∅ [].

(** [analyzeFile] (lines 83-107) up to its end or its suspension. *)
Definition analyzeFile (now : Z) (filePath : string) (st : t) : t :=
  match AnalysisCache.get now filePath (cache st) with
  | (Some cached, c) =>
      mk c (pendingAnalysis st) (spawned st) (analyses st) (joined st)
         ((filePath, Some cached) :: returned st)
  | (None, c) =>
      match pendingAnalysis st !! filePath with
      | Some pending =>
          mk c (pendingAnalysis st) (spawned st) (analyses st)
             (<[pending := S (default 0 (joined st !! pending))]> (joined st))
             (returned st)
      | None =>
          let analysisPromise := S (spawned st) in
          mk c (<[filePath := analysisPromise]> (pendingAnalysis st)) analysisPromise
             (<[analysisPromise := filePath]> (analyses st)) (joined st) (returned st)
      end
  end.

(** What the [close] listener resolves the promise with (lines
    137-157): [code] is the exit code, [parsed] the value of
    [JSON.parse(stdout)], [None] when the [try] block throws. *)
Definition result_of (code : option Z) (parsed : option (list OverrideInfo))
    : list OverrideInfo :=
  if bool_decide (code = Some 0%Z) then default [] parsed else [].

(** The calls that wait for a promise get its outcome. *)
Definition settle (analysisPromise : nat) (filePath : string)
    (outcome : option (list OverrideInfo)) (st : t)
    : list (string * option (list OverrideInfo)) :=
  replicate (S (default 0 (joined st !! analysisPromise))) (filePath, outcome)
  ++ returned st.

(** The [close] listener of process [analysisPromise], and the rest of
    the calls that awaited its promise (lines 101-106): the call that
    created the promise stores the result and removes the entry of
    [pendingAnalysis].  A promise that is settled stays as it is. *)
Definition closed (analysisPromise : nat) (code : option Z)
    (parsed : option (list OverrideInfo)) (now : Z) (st : t) : t :=
  match analyses st !! analysisPromise with
  | None => st
  | Some filePath =>
      let result := result_of code parsed in
      mk (AnalysisCache.set now filePath result (cache st))
         (delete filePath (pendingAnalysis st)) (spawned st)
         (delete analysisPromise (analyses st)) (delete analysisPromise (joined st))
         (settle analysisPromise filePath (Some result) st)
  end.

(** The [error] listener (lines 159-162): the promise is rejected, the
    [finally] block removes the entry of [pendingAnalysis]. *)
Definition failed (analysisPromise : nat) (st : t) : t :=
  match analyses st !! analysisPromise with
  | None => st
  | Some filePath =>
      mk (cache st) (delete filePath (pendingAnalysis st)) (spawned st)
         (delete analysisPromise (analyses st)) (delete analysisPromise (joined st))
         (settle analysisPromise filePath None st)
  end.

Definition set_cache (c : AnalysisCache.t) (st : t) : t :=
  mk c (pendingAnalysis st) (spawned st) (analyses st) (joined st) (returned st).

Inductive Event :=
| AnalyzeFile (now : Z) (filePath : string)
| Close (analysisPromise : nat) (code : option Z)
    (parsed : option (list OverrideInfo)) (now : Z)
| Error (analysisPromise : nat)
| ClearCache
| ClearFileCache (filePath : string).

Definition step (e : Event) (st : t) : t :=
  match e with
  | AnalyzeFile now filePath => analyzeFile now filePath st
  | Close analysisPromise code parsed now => closed analysisPromise code parsed now st
  | Error analysisPromise => failed analysisPromise st
  | ClearCache => set_cache (AnalysisCache.clear (cache st)) st
  | ClearFileCache filePath => set_cache (AnalysisCache.delete_ filePath (cache st)) st
  end.

Definition run (es : list Event) (st : t) : t := foldl (λ st' e, step e st') st es.

Inductive reachable : t → Prop :=
| reachable_new : reachable new
| reachable_step e st : reachable st → reachable (step e st).

End ProcessAnalyzer.

(* ================================================================== *)
(** * Properties *)

(** ** The worker link: invariants of the pending-request table *)

Module PythonProcessManagerFacts.
Import PythonProcessManager.

Lemma settle_lookup p v (ps : gmap string Settled) q :
  settle p v ps !! q =
    match ps !! q with
    | Some x => Some x
    | None => if decide (p = q) then Some v else None
    end.
Proof.
  unfold settle. destruct (ps !! p) eqn:Hp.
  - destruct (ps !! q) eqn:Hq; [done|]. case_decide; congruence.
  - rewrite lookup_insert. case_decide; subst.
    + by rewrite Hp.
    + by destruct (ps !! q).
Qed.

Lemma settle_keeps p v (ps : gmap string Settled) q x :
  ps !! q = Some x → settle p v ps !! q = Some x.
Proof. intros H. by rewrite settle_lookup, H. Qed.

Lemma request_id_inj n m : request_id n = request_id m → n = m.
Proof.
  unfold request_id. intros H. apply (inj (String.append "req_")) in H.
  by apply (inj pretty) in H.
Qed.

(** Entries of [pendingRequests] are keyed by the name of their promise
    and of their timer. *)
Definition well_keyed (pend : gmap string Request) : Prop :=
  ∀ id req, pend !! id = Some req → promise req = id ∧ timeout req = Some id.

Lemma well_keyed_insert id (pend : gmap string Request) :
  well_keyed pend → well_keyed (<[id := mkRequest id (Some id)]> pend).
Proof.
  intros H k req. rewrite lookup_insert. case_decide; subst.
  - intros [= <-]. done.
  - apply H.
Qed.

Lemma well_keyed_delete id (pend : gmap string Request) :
  well_keyed pend → well_keyed (delete id pend).
Proof.
  intros H k req. rewrite lookup_delete. case_decide; [done|]. apply H.
Qed.

Lemma reject_all_lookup v (pend : gmap string Request) (ps : gmap string Settled) :
  well_keyed pend →
  ∀ id,
    map_fold (λ _ request ps', settle (promise request) v ps') ps pend !! id =
      match ps !! id with
      | Some x => Some x
      | None => match pend !! id with Some _ => Some v | None => None end
      end.
Proof.
  revert pend.
  apply (map_fold_weak_ind
           (λ r m, well_keyed m → ∀ id,
              r !! id = match ps !! id with
                        | Some x => Some x
                        | None => match m !! id with Some _ => Some v | None => None end
                        end)).
  - intros _ id. rewrite lookup_empty. by destruct (ps !! id).
  - intros i x m r Hi IH Hk id.
    assert (promise x = i) as ->.
    { apply (Hk i x). by rewrite lookup_insert_eq. }
    assert (well_keyed m) as Hm.
    { intros k req Hreq. apply Hk. rewrite lookup_insert_ne; [done|].
      intros ->. congruence. }
    rewrite settle_lookup, (IH Hm id), lookup_insert.
    destruct (ps !! id); [done|].
    case_decide; subst; [by rewrite Hi|]. by destruct (m !! id).
Qed.

Lemma clear_all_lookup (pend : gmap string Request) (ts : gmap string string) :
  well_keyed pend →
  ∀ h,
    map_fold (λ _ request ts', clearTimeout (timeout request) ts') ts pend !! h =
      match pend !! h with Some _ => None | None => ts !! h end.
Proof.
  revert pend.
  apply (map_fold_weak_ind
           (λ r m, well_keyed m → ∀ h, r !! h = match m !! h with Some _ => None | None => ts !! h end)).
  - intros _ h. by rewrite lookup_empty.
  - intros i x m r Hi IH Hk h.
    assert (timeout x = Some i) as ->.
    { apply (Hk i x). by rewrite lookup_insert_eq. }
    assert (well_keyed m) as Hm.
    { intros k req Hreq. apply Hk. rewrite lookup_insert_ne; [done|].
      intros ->. congruence. }
    simpl. rewrite lookup_delete, lookup_insert.
    case_decide; subst; [done|]. by apply IH.
Qed.

(** The invariant of the request table, its timers and its promises. *)
Record consistent (s : t) : Prop := {
  keyed : well_keyed (pendingRequests s);
  pending_unsettled :
    ∀ id, is_Some (pendingRequests s !! id) → promises s !! id = None;
  pending_armed :
    ∀ id, is_Some (pendingRequests s !! id) → is_Some (timers s !! id);
  armed_pending :
    ∀ h filePath, timers s !! h = Some filePath →
      is_Some (pendingRequests s !! h) ∧ calls s !! h = Some filePath;
  settled_called :
    ∀ id, is_Some (promises s !! id) → is_Some (calls s !! id);
  called_issued :
    ∀ id, is_Some (calls s !! id) →
      ∃ k, (1 ≤ k ≤ messageId s)%nat ∧ id = request_id k
}.

Lemma consistent_new : consistent new.
Proof.
  split; simpl; try (intros ? [? H]; by rewrite lookup_empty in H).
  - intros ? ?. by rewrite lookup_empty.
  - intros ? ?. by rewrite lookup_empty.
Qed.

Lemma fresh_id s :
  consistent s → calls s !! request_id (S (messageId s)) = None.
Proof.
  intros Hc. destruct (calls s !! _) eqn:E; [|done]. exfalso.
  destruct (called_issued s Hc _ (mk_is_Some _ _ E)) as (k & Hk & Heq).
  apply request_id_inj in Heq. lia.
Qed.

Lemma pending_called s id :
  consistent s → is_Some (pendingRequests s !! id) → is_Some (calls s !! id).
Proof.
  intros Hc Hp. destruct (pending_armed s Hc id Hp) as [f Hf].
  destruct (armed_pending s Hc id f Hf) as [_ ->]. done.
Qed.

Lemma consistent_observe o s : consistent s → consistent (observe o s).
Proof. intros [? ? ? ? ? ?]. by split. Qed.

Lemma consistent_start ok s : consistent s → consistent (start ok s).2.
Proof.
  intros Hc. unfold start. destruct (pythonProcess s); [done|].
  destruct ok; [|done]. simpl. destruct Hc. by split.
Qed.

(** The request table once the executor has registered the request. *)
Definition registered (filePath : string) (s : t) : t :=
  let id := request_id (S (messageId s)) in
  set_pendingRequests (<[id := mkRequest id (Some id)]> (pendingRequests s))
    (set_timers (<[id := filePath]> (timers s))
       (set_calls (<[id := filePath]> (calls s))
          (set_messageId (S (messageId s)) s))).

Lemma consistent_registered filePath s :
  consistent s → consistent (registered filePath s).
Proof.
  intros Hc. pose proof (fresh_id s Hc) as Hfresh.
  destruct Hc as [Hk Hu Ha Ht Hs Hi]. unfold registered.
  split; simpl.
  - by apply well_keyed_insert.
  - intros id. rewrite lookup_insert. case_decide; subst.
    + intros _. destruct (promises s !! _) eqn:E; [|done].
      destruct (Hs _ (mk_is_Some _ _ E)) as [? ?]. congruence.
    + apply Hu.
  - intros id. rewrite !lookup_insert. case_decide; subst; [by eauto|]. apply Ha.
  - intros h f. rewrite !lookup_insert. case_decide; subst.
    + intros [= <-]. eauto.
    + apply Ht.
  - intros id Hid. rewrite lookup_insert. case_decide; [by eauto|]. by apply Hs.
  - intros id. rewrite lookup_insert. case_decide; subst.
    + intros _. exists (S (messageId s)). split; [lia|done].
    + intros Hid. destruct (Hi id Hid) as (k & Hk' & ->). exists k. split; [lia|done].
Qed.

Lemma consistent_send filePath w s : consistent s → consistent (send filePath w s).
Proof.
  intros Hc. pose proof (fresh_id s Hc) as Hfresh.
  pose proof (consistent_registered filePath s Hc) as Hr.
  unfold send. fold (registered filePath s).
  change (pythonProcess _) with (pythonProcess s).
  destruct (pythonProcess s) as [child|]; [|done].
  destruct w as [e|]; [|by apply consistent_observe].
  set (id := request_id (S (messageId s))) in *.
  destruct Hc as [Hk Hu Ha Ht Hs Hi].
  assert (promises s !! id = None) as Hps.
  { destruct (promises s !! id) eqn:E; [|done].
    destruct (Hs _ (mk_is_Some _ _ E)) as [? ?]. congruence. }
  assert (pendingRequests s !! id = None) as Hpd.
  { destruct (pendingRequests s !! id) eqn:E; [|done].
    destruct (Ha _ (mk_is_Some _ _ E)) as [f Hf].
    destruct (Ht _ _ Hf) as [_ ?]. congruence. }
  assert (timers s !! id = None) as Htm.
  { destruct (timers s !! id) eqn:E; [|done].
    destruct (Ht _ _ E) as [_ ?]. congruence. }
  unfold reject, registered. simpl. fold id.
  rewrite !delete_insert_eq, (delete_id _ _ Hpd), (delete_id _ _ Htm).
  unfold settle. rewrite Hps.
  split; simpl.
  - done.
  - intros k Hk'. rewrite lookup_insert. case_decide; subst.
    + rewrite Hpd in Hk'. by destruct Hk'.
    + by apply Hu.
  - done.
  - intros h f Hh. destruct (Ht h f Hh) as [? ?]. split; [done|].
    rewrite lookup_insert_ne; [done|]. intros <-. congruence.
  - intros k. rewrite !lookup_insert. repeat case_decide; subst; eauto.
  - intros k. rewrite lookup_insert. case_decide; subst.
    + intros _. exists (S (messageId s)). split; [lia|done].
    + intros Hid. destruct (Hi k Hid) as (k' & Hk' & ->). exists k'. split; [lia|done].
Qed.

(** The request table once request [id] has been taken out of it and
    its promise settled with [v]. *)
Definition retired (id : string) (v : Settled) (s : t) : t :=
  set_promises (settle id v (promises s))
    (set_pendingRequests (delete id (pendingRequests s))
       (set_timers (delete id (timers s)) s)).

Lemma consistent_retired id v s :
  consistent s → is_Some (pendingRequests s !! id) → consistent (retired id v s).
Proof.
  intros Hc Hid. pose proof (pending_called s id Hc Hid) as Hcall.
  destruct Hc as [Hk Hu Ha Ht Hs Hi]. unfold retired. split; simpl.
  - by apply well_keyed_delete.
  - intros k. rewrite lookup_delete, settle_lookup.
    case_decide; subst; [by intros [? ?]|]. intros Hk'. by rewrite (Hu k Hk').
  - intros k. rewrite !lookup_delete. case_decide; subst; [by intros [? ?]|]. apply Ha.
  - intros h f. rewrite !lookup_delete. case_decide; subst; [done|]. apply Ht.
  - intros k. rewrite settle_lookup. destruct (promises s !! k) eqn:E.
    + intros _. apply Hs. by rewrite E.
    + case_decide; subst; [done|]. by intros [? ?].
  - done.
Qed.

Lemma handleResponse_matched response id request s :
  well_keyed (pendingRequests s) →
  rsp_id response = Some id →
  pendingRequests s !! id = Some request →
  handleResponse response s =
    retired id (if truthy (rsp_error response)
                then Rejected (default "" (rsp_error response))
                else Resolved (default [] (rsp_result response))) s.
Proof.
  intros Hk Hid Hreq. unfold handleResponse. rewrite Hid, Hreq.
  destruct (Hk id request Hreq) as [-> ->].
  by destruct (truthy (rsp_error response)).
Qed.

Lemma handleResponse_unmatched response s :
  (∀ id, rsp_id response = Some id → pendingRequests s !! id = None) →
  handleResponse response s = s.
Proof.
  intros H. unfold handleResponse. destruct (rsp_id response) as [id|]; [|done].
  by rewrite (H id eq_refl).
Qed.

Lemma consistent_handleResponse response s :
  consistent s → consistent (handleResponse response s).
Proof.
  intros Hc. destruct (rsp_id response) as [id|] eqn:Hid.
  - destruct (pendingRequests s !! id) as [request|] eqn:Hreq.
    + rewrite (handleResponse_matched _ id request); [|by apply Hc|done..].
      apply consistent_retired; [done|by rewrite Hreq].
    + rewrite handleResponse_unmatched; [done|]. intros ? ?. congruence.
  - rewrite handleResponse_unmatched; [done|]. intros ? ?. congruence.
Qed.

Lemma consistent_processLine child l s :
  consistent s → consistent (processLine child l s).
Proof.
  intros Hc. destruct l as [| |response]; simpl; [done..|].
  case_bool_decide.
  - destruct Hc. by split.
  - by apply consistent_handleResponse.
Qed.

Lemma timeoutFires_armed h filePath s :
  timers s !! h = Some filePath →
  timeoutFires h s = retired h (Rejected ("Analysis timeout for " +:+ filePath)) s.
Proof. intros H. unfold timeoutFires. by rewrite H. Qed.

Lemma consistent_timeoutFires h s : consistent s → consistent (timeoutFires h s).
Proof.
  intros Hc. destruct (timers s !! h) as [f|] eqn:E.
  - rewrite (timeoutFires_armed h f); [|done].
    apply consistent_retired; [done|]. by apply (armed_pending s Hc h f).
  - unfold timeoutFires. by rewrite E.
Qed.

Lemma cleanup_promises s id :
  consistent s →
  promises (cleanup s) !! id =
    match promises s !! id with
    | Some x => Some x
    | None =>
        match pendingRequests s !! id with
        | Some _ => Some (Rejected "Python process terminated")
        | None => None
        end
    end.
Proof. intros Hc. unfold cleanup. simpl. apply reject_all_lookup, Hc. Qed.

Lemma cleanup_timers s h : consistent s → timers (cleanup s) !! h = None.
Proof.
  intros Hc. unfold cleanup. simpl. rewrite clear_all_lookup; [|apply Hc].
  destruct (pendingRequests s !! h) eqn:Hp; [done|].
  destruct (timers s !! h) eqn:E; [|done].
  destruct (armed_pending s Hc h _ E) as [[? ?] _]. congruence.
Qed.

Lemma consistent_cleanup s : consistent s → consistent (cleanup s).
Proof.
  intros Hc. split.
  - intros ? ?. unfold cleanup. simpl. by rewrite lookup_empty.
  - intros ? [? H]. unfold cleanup in H. simpl in H. by rewrite lookup_empty in H.
  - intros ? [? H]. unfold cleanup in H. simpl in H. by rewrite lookup_empty in H.
  - intros h f. by rewrite cleanup_timers.
  - intros id. rewrite cleanup_promises by done.
    change (calls (cleanup s)) with (calls s).
    destruct (promises s !! id) eqn:E.
    + intros _. apply (settled_called s Hc). by rewrite E.
    + destruct (pendingRequests s !! id) eqn:E'; [|by intros [? ?]].
      intros _. apply pending_called; [done|]. by rewrite E'.
  - apply Hc.
Qed.

Lemma consistent_dispose s : consistent s → consistent (dispose s).
Proof.
  intros Hc. unfold dispose. destruct (pythonProcess s).
  - apply consistent_cleanup. destruct Hc. by split.
  - by apply consistent_cleanup.
Qed.

Lemma consistent_release_fold ws s :
  consistent s →
  consistent (foldl (λ s' '(filePath, write_error), send filePath write_error s') s ws).
Proof.
  revert s. induction ws as [|[f w] ws IH]; intros s Hc; simpl; [done|].
  by apply IH, consistent_send.
Qed.

Lemma consistent_release s : consistent s → consistent (release s).
Proof.
  intros Hc. unfold release. apply consistent_release_fold. destruct Hc. by split.
Qed.

Lemma consistent_lines child lines s :
  consistent s → consistent (foldl (λ s' l, processLine child l s') s lines).
Proof.
  revert s. induction lines as [|l lines IH]; intros s Hc; simpl; [done|].
  by apply IH, consistent_processLine.
Qed.

Lemma consistent_processOutput child lines s :
  consistent s → consistent (processOutput child lines s).
Proof.
  intros Hc. unfold processOutput.
  pose proof (consistent_lines child lines s Hc).
  destruct (negb _ && _); [by apply consistent_release|done].
Qed.

Lemma consistent_analyzeFile filePath w s :
  consistent s → consistent (analyzeFile filePath w s).
Proof.
  intros Hc. unfold analyzeFile.
  destruct (isReady s); [by apply consistent_send|].
  destruct (readyPromise s); [by apply consistent_send|].
  destruct Hc. by split.
Qed.

Lemma consistent_step e s : consistent s → consistent (step e s).
Proof.
  intros Hc. destruct e; simpl.
  - by apply consistent_start.
  - destruct (is_child _ _); [by apply consistent_processOutput|done].
  - destruct (is_child _ _); [by apply consistent_cleanup|done].
  - destruct (is_child _ _); [by apply consistent_cleanup|done].
  - by apply consistent_analyzeFile.
  - by apply consistent_timeoutFires.
  - by apply consistent_dispose.
Qed.

Lemma reachable_consistent s : reachable s → consistent s.
Proof.
  induction 1; [apply consistent_new|by apply consistent_step].
Qed.

Lemma reachable_run es s : reachable s → reachable (run es s).
Proof.
  revert s. induction es as [|e es IH]; intros s Hs; simpl; [done|].
  apply IH. by constructor.
Qed.

(** A settled promise stays as it is. *)
Lemma promises_send_keeps filePath w s id v :
  promises s !! id = Some v → promises (send filePath w s) !! id = Some v.
Proof.
  intros H. unfold send. simpl. destruct (pythonProcess s); [|done].
  destruct w; [|done]. simpl. by apply settle_keeps.
Qed.

Lemma promises_handleResponse_keeps response s id v :
  promises s !! id = Some v → promises (handleResponse response s) !! id = Some v.
Proof.
  intros H. unfold handleResponse. destruct (rsp_id response); [|done].
  destruct (pendingRequests s !! _); [|done].
  destruct (truthy _); simpl; by apply settle_keeps.
Qed.

Lemma promises_lines_keep child lines s id v :
  promises s !! id = Some v →
  promises (foldl (λ s' l, processLine child l s') s lines) !! id = Some v.
Proof.
  revert s. induction lines as [|l lines IH]; intros s H; simpl; [done|].
  apply IH. destruct l as [| |response]; simpl; [done..|].
  case_bool_decide; [done|]. by apply promises_handleResponse_keeps.
Qed.

Lemma promises_release_fold_keeps ws s id v :
  promises s !! id = Some v →
  promises (foldl (λ s' '(filePath, write_error), send filePath write_error s') s ws)
    !! id = Some v.
Proof.
  revert s. induction ws as [|[f w] ws IH]; intros s H; simpl; [done|].
  by apply IH, promises_send_keeps.
Qed.

Lemma promises_step_keeps e s id v :
  consistent s → promises s !! id = Some v → promises (step e s) !! id = Some v.
Proof.
  intros Hc H. destruct e as [ok|c lines|c|c|f w|h|]; simpl.
  - unfold start. destruct (pythonProcess s); [done|]. by destruct ok.
  - destruct (is_child _ _); [|done]. unfold processOutput.
    pose proof (promises_lines_keep c lines s id v H) as H'.
    destruct (negb _ && _); [|done]. unfold release.
    by apply promises_release_fold_keeps.
  - destruct (is_child _ _); [|done]. by rewrite cleanup_promises, H.
  - destruct (is_child _ _); [|done]. by rewrite cleanup_promises, H.
  - unfold analyzeFile. destruct (isReady s); [by apply promises_send_keeps|].
    destruct (readyPromise s); [by apply promises_send_keeps|done].
  - unfold timeoutFires. destruct (timers s !! h); [|done]. simpl.
    by apply settle_keeps.
  - unfold dispose. destruct (pythonProcess s).
    + rewrite cleanup_promises; [by simpl; rewrite H|]. destruct Hc. by split.
    + by rewrite cleanup_promises, H.
Qed.

Lemma promises_run_keeps es s id v :
  consistent s → promises s !! id = Some v → promises (run es s) !! id = Some v.
Proof.
  revert s. induction es as [|e es IH]; intros s Hc H; simpl; [done|].
  apply IH; [by apply consistent_step|by apply promises_step_keeps].
Qed.

(** What a response settles the promise of its request with. *)
Definition outcome (response : Response) : Settled :=
  if truthy (rsp_error response)
  then Rejected (default "" (rsp_error response))
  else Resolved (default [] (rsp_result response)).

Lemma handleResponse_cases response s :
  consistent s →
  handleResponse response s =
    match rsp_id response with
    | Some id =>
        match pendingRequests s !! id with
        | Some _ => retired id (outcome response) s
        | None => s
        end
    | None => s
    end.
Proof.
  intros Hc. destruct (rsp_id response) as [id|] eqn:Hid.
  - destruct (pendingRequests s !! id) as [request|] eqn:Hreq.
    + by rewrite (handleResponse_matched _ id request); [|apply Hc|..].
    + apply handleResponse_unmatched. intros ? ?. congruence.
  - apply handleResponse_unmatched. intros ? ?. congruence.
Qed.

Lemma settle_commute p q v w (ps : gmap string Settled) :
  p ≠ q → settle p v (settle q w ps) = settle q w (settle p v ps).
Proof.
  intros Hne. apply map_eq. intros k. rewrite !settle_lookup.
  destruct (ps !! k); [done|]. repeat case_decide; congruence.
Qed.

Lemma retired_commute id1 id2 v1 v2 s :
  id1 ≠ id2 →
  retired id1 v1 (retired id2 v2 s) = retired id2 v2 (retired id1 v1 s).
Proof.
  intros Hne. unfold retired. simpl.
  rewrite (settle_commute id1 id2) by done.
  rewrite (delete_delete (pendingRequests s) id1 id2).
  by rewrite (delete_delete (timers s) id1 id2).
Qed.

Lemma handleResponse_no_id response s :
  rsp_id response = None → handleResponse response s = s.
Proof. intros H. unfold handleResponse. by rewrite H. Qed.

Lemma handleResponse_commute r1 r2 s :
  consistent s → rsp_id r1 ≠ rsp_id r2 →
  handleResponse r1 (handleResponse r2 s) = handleResponse r2 (handleResponse r1 s).
Proof.
  intros Hc Hne.
  destruct (rsp_id r1) as [id1|] eqn:H1; [|by rewrite !(handleResponse_no_id r1)].
  destruct (rsp_id r2) as [id2|] eqn:H2; [|by rewrite !(handleResponse_no_id r2)].
  assert (id1 ≠ id2) as Hid by congruence.
  rewrite (handleResponse_cases r2 s Hc), (handleResponse_cases r1 s Hc), H1, H2.
  destruct (pendingRequests s !! id1) as [q1|] eqn:E1,
           (pendingRequests s !! id2) as [q2|] eqn:E2.
  - rewrite !handleResponse_cases by (apply consistent_retired; by rewrite ?E1, ?E2).
    rewrite H1, H2. unfold retired at 2 4. simpl.
    rewrite !lookup_delete_ne by done. rewrite E1, E2.
    by apply retired_commute.
  - rewrite (handleResponse_cases r1 s Hc), H1, E1.
    rewrite handleResponse_cases by (apply consistent_retired; by rewrite ?E1).
    rewrite H2. unfold retired at 1. simpl.
    by rewrite lookup_delete_ne, E2.
  - rewrite (handleResponse_cases r2 s Hc), H2, E2.
    rewrite handleResponse_cases by (apply consistent_retired; by rewrite ?E2).
    rewrite H1. unfold retired at 2. simpl.
    by rewrite lookup_delete_ne, E1.
  - by rewrite !handleResponse_cases, H1, H2, E1, E2.
Qed.

Lemma readyPromise_handleResponse response s :
  readyPromise (handleResponse response s) = readyPromise s.
Proof.
  unfold handleResponse. destruct (rsp_id response); [|done].
  destruct (pendingRequests s !! _); [|done]. by destruct (truthy _).
Qed.

Lemma processOutput_response c response s :
  rsp_type response ≠ Some "ready" →
  processOutput c [Message response] s = handleResponse response s.
Proof.
  intros Hty. unfold processOutput. simpl. rewrite bool_decide_eq_false_2 by done.
  rewrite readyPromise_handleResponse. by destruct (readyPromise s).
Qed.

(** *** Scenarios *)

Definition ready_line : Line := Message (mkResponse (Some "ready") None None None).

(** A manager whose first child has signalled readiness. *)
Definition started : t := run [Start true; Stdout 1 [ready_line]] new.

(** Three requests in flight: [req_1], [req_2] and [req_3]. *)
Definition three_pending : t :=
  run [AnalyzeFile "/p/a.py" None; AnalyzeFile "/p/b.py" None;
       AnalyzeFile "/p/c.py" None] started.

Lemma reachable_three_pending : reachable three_pending.
Proof. unfold three_pending, started. apply reachable_run, reachable_run, reachable_new. Qed.

(** *** Crash of the worker *)

(** C2.  When a child of the manager exits or fails, every request that
    was pending has its promise rejected with "Python process
    terminated", [pendingRequests] is empty, no timeout stays armed,
    [isReady] is false and [pythonProcess] is null. *)
Theorem exit_fails_every_pending_request s e c :
  reachable s →
  is_child c s = true →
  e = ChildExit c ∨ e = ChildError c →
  (∀ id, is_Some (pendingRequests s !! id) →
         promises (step e s) !! id = Some (Rejected "Python process terminated"))
  ∧ pendingRequests (step e s) = ∅
  ∧ timers (step e s) = ∅
  ∧ isReady (step e s) = false
  ∧ pythonProcess (step e s) = None.
Proof.
  intros Hr Hc He. apply reachable_consistent in Hr.
  assert (step e s = cleanup s) as ->.
  { destruct He as [-> | ->]; simpl; by rewrite Hc. }
  repeat split.
  - intros id [request Hid]. rewrite cleanup_promises, Hid by done.
    by rewrite (pending_unsettled s Hr id) by (by rewrite Hid).
  - apply map_eq. intros h. by rewrite cleanup_timers, lookup_empty.
Qed.

Lemma exit_fails_every_pending_request_witness :
  let s' := step (ChildExit 1) three_pending in
  promises s' !! "req_1" = Some (Rejected "Python process terminated")
  ∧ promises s' !! "req_2" = Some (Rejected "Python process terminated")
  ∧ promises s' !! "req_3" = Some (Rejected "Python process terminated")
  ∧ pendingRequests s' = ∅.
Proof.
  destruct (exit_fails_every_pending_request three_pending (ChildExit 1) 1)
    as (Hall & Hempty & _).
  - exact reachable_three_pending.
  - reflexivity.
  - left; reflexivity.
  - intros s'. split; [|split; [|split]]; [..|exact Hempty];
      apply Hall; vm_compute; eexists; reflexivity.
Defined.

(** *** Timeouts *)

(** C6.  When the timeout of a pending request fires, the entry leaves
    [pendingRequests] and the promise is rejected with "Analysis timeout
    for <filePath>"; the other entries stay.  Whatever happens next, a
    response bearing that id changes nothing: [handleResponse] finds no
    entry, and so does the stdout listener that calls it. *)
Theorem timeout_rejects_and_late_response_is_ignored s id request filePath :
  reachable s →
  pendingRequests s !! id = Some request →
  calls s !! id = Some filePath →
  let s1 := step (TimeoutFires id) s in
  pendingRequests s1 !! id = None
  ∧ promises s1 !! id = Some (Rejected ("Analysis timeout for " +:+ filePath))
  ∧ (∀ id', id' ≠ id → pendingRequests s1 !! id' = pendingRequests s !! id')
  ∧ ∀ es response,
      rsp_id response = Some id →
      handleResponse response (run es s1) = run es s1
      ∧ ∀ c, rsp_type response ≠ Some "ready" →
             step (Stdout c [Message response]) (run es s1) = run es s1.
Proof.
  intros Hr Hid Hcall s1. pose proof (reachable_consistent s Hr) as Hc.
  assert (timers s !! id = Some filePath) as Harmed.
  { destruct (pending_armed s Hc id) as [f Hf]; [by rewrite Hid|].
    destruct (armed_pending s Hc id f Hf) as [_ Hf']. congruence. }
  assert (promises s1 !! id = Some (Rejected ("Analysis timeout for " +:+ filePath)))
    as Hrej.
  { unfold s1. simpl. rewrite (timeoutFires_armed id filePath) by done.
    unfold retired. simpl. rewrite settle_lookup.
    rewrite (pending_unsettled s Hc id) by (by rewrite Hid). by rewrite decide_True. }
  assert (reachable s1) as Hr1 by (by constructor).
  split; [|split; [done|split]].
  - unfold s1. simpl. rewrite (timeoutFires_armed id filePath) by done.
    unfold retired. simpl. by rewrite lookup_delete_eq.
  - intros id' Hne. unfold s1. simpl. rewrite (timeoutFires_armed id filePath) by done.
    unfold retired. simpl. by rewrite lookup_delete_ne.
  - intros es response Hrsp.
    pose proof (reachable_consistent _ (reachable_run es s1 Hr1)) as Hc2.
    assert (pendingRequests (run es s1) !! id = None) as Hgone.
    { destruct (pendingRequests (run es s1) !! id) eqn:E; [|done].
      pose proof (pending_unsettled _ Hc2 id) as Hu. rewrite E in Hu.
      specialize (Hu (mk_is_Some _ _ eq_refl)).
      by rewrite (promises_run_keeps es s1 id _ (reachable_consistent _ Hr1) Hrej) in Hu. }
    assert (handleResponse response (run es s1) = run es s1) as Hnop.
    { apply handleResponse_unmatched. intros ? ?. congruence. }
    split; [done|]. intros c Hty. simpl.
    destruct (is_child c _); [|done]. by rewrite processOutput_response.
Qed.

Lemma timeout_rejects_and_late_response_is_ignored_witness :
  let s1 := step (TimeoutFires "req_2") three_pending in
  pendingRequests s1 !! "req_2" = None
  ∧ promises s1 !! "req_2" = Some (Rejected ("Analysis timeout for " +:+ "/p/b.py"))
  ∧ (∀ id', id' ≠ "req_2" →
       pendingRequests s1 !! id' = pendingRequests three_pending !! id')
  ∧ ∀ es response,
      rsp_id response = Some "req_2" →
      handleResponse response (run es s1) = run es s1
      ∧ ∀ c, rsp_type response ≠ Some "ready" →
             step (Stdout c [Message response]) (run es s1) = run es s1.
Proof.
  apply (timeout_rejects_and_late_response_is_ignored three_pending "req_2"
           (mkRequest "req_2" (Some "req_2")) "/p/b.py").
  - exact reachable_three_pending.
  - vm_compute. reflexivity.
  - vm_compute. reflexivity.
Defined.

(** *** Correlation by id *)

(** C7.  A response is matched by its id alone.  If the id is a key of
    [pendingRequests], that entry is removed and its promise settled with
    the payload of this response, and every other entry, timer and promise
    is as before; if not, nothing changes at all.  Two responses with
    different ids can be handled in either order: the resulting state is
    the same. *)
Theorem responses_are_matched_by_id s :
  reachable s →
  (∀ response id request,
     rsp_id response = Some id →
     pendingRequests s !! id = Some request →
     let s' := handleResponse response s in
     pendingRequests s' = delete id (pendingRequests s)
     ∧ promises s' !! id = Some (outcome response)
     ∧ ∀ id', id' ≠ id →
         pendingRequests s' !! id' = pendingRequests s !! id'
         ∧ timers s' !! id' = timers s !! id'
         ∧ promises s' !! id' = promises s !! id')
  ∧ (∀ response,
       (∀ id, rsp_id response = Some id → pendingRequests s !! id = None) →
       handleResponse response s = s)
  ∧ (∀ r1 r2,
       rsp_id r1 ≠ rsp_id r2 →
       handleResponse r1 (handleResponse r2 s) = handleResponse r2 (handleResponse r1 s)).
Proof.
  intros Hr. pose proof (reachable_consistent s Hr) as Hc. split; [|split].
  - intros response id request Hid Hreq s'. unfold s'.
    rewrite (handleResponse_cases response s Hc), Hid, Hreq. unfold retired. simpl.
    split; [done|split].
    + rewrite settle_lookup, (pending_unsettled s Hc id) by (by rewrite Hreq).
      by rewrite decide_True.
    + intros id' Hne. rewrite !lookup_delete_ne by done. repeat split.
      rewrite settle_lookup. destruct (promises s !! id'); [done|].
      by rewrite decide_False.
  - intros response. apply handleResponse_unmatched.
  - intros r1 r2. by apply handleResponse_commute.
Qed.

Lemma responses_are_matched_by_id_witness :
  let r3 := mkResponse None (Some "req_3") None (Some []) in
  let r1 := mkResponse None (Some "req_1") (Some "boom") None in
  let stray := mkResponse None (Some "req_9") None (Some []) in
  handleResponse r3 (handleResponse r1 three_pending)
    = handleResponse r1 (handleResponse r3 three_pending)
  ∧ handleResponse stray three_pending = three_pending.
Proof.
  destruct (responses_are_matched_by_id three_pending reachable_three_pending)
    as (_ & Hstray & Horder).
  split.
  - apply Horder. discriminate.
  - apply Hstray. intros id [= <-]. vm_compute. reflexivity.
Defined.

(** *** Readiness *)

Definition is_write (o : Obs) : bool :=
  match o with
  | Wrote _ _ _ => true
  | _ => false
  end.

(** What [isReady], [readyPromise] and the suspended calls have to do
    with each other.  [gate_open s] is the part that also holds while the
    stdout listener runs. *)
Record gate_open (s : t) : Prop := {
  ready_resolved : isReady s = true → readyPromise s = true;
  unresolved_idle :
    readyPromise s = false →
    messageId s = 0 ∧ ∀ o, o ∈ log s → is_write o = false;
  resolved_logged : readyPromise s = true → ∃ c, ReadyFrom c ∈ log s;
  process_is_child : ∀ c, pythonProcess s = Some c → is_child c s = true
}.

Record gated (s : t) : Prop := {
  gate : gate_open s;
  resolved_no_waiters : readyPromise s = true → awaitingReady s = []
}.

Lemma gated_new : gated new.
Proof.
  split; [split|]; simpl; try done.
  intros _. split; [done|]. intros o Ho. by apply elem_of_nil in Ho.
Qed.

Lemma gate_open_send filePath w s :
  readyPromise s = true → gate_open s → gate_open (send filePath w s).
Proof.
  intros Hres [H1 H2 H3 H4]. destruct s as [proc n pend rdy rp ch aw tm pr cl lg].
  unfold send, is_child in *. simpl in *.
  destruct proc as [c|]; [destruct w|]; split; simpl; try done; try congruence.
  intros _. destruct (H3 Hres) as [c' Hc']. exists c'. by apply elem_of_cons; right.
Qed.

Lemma send_keeps_gate_fields filePath w s :
  isReady (send filePath w s) = isReady s
  ∧ readyPromise (send filePath w s) = readyPromise s
  ∧ awaitingReady (send filePath w s) = awaitingReady s.
Proof.
  unfold send. simpl. destruct (pythonProcess s); [destruct w|]; done.
Qed.

Lemma gated_send filePath w s :
  readyPromise s = true → gated s → gated (send filePath w s).
Proof.
  intros Hres [Hg Hw]. destruct (send_keeps_gate_fields filePath w s) as (_ & Hr & Ha).
  split; [by apply gate_open_send|]. rewrite Ha. intros _. by apply Hw.
Qed.

Lemma gated_release_fold ws s :
  readyPromise s = true → gated s →
  gated (foldl (λ s' '(filePath, write_error), send filePath write_error s') s ws)
  ∧ readyPromise
      (foldl (λ s' '(filePath, write_error), send filePath write_error s') s ws) = true.
Proof.
  revert s. induction ws as [|[f w] ws IH]; intros s Hres Hg; simpl; [done|].
  apply IH; [|by apply gated_send].
  destruct (send_keeps_gate_fields f w s) as (_ & -> & _). done.
Qed.

Lemma gate_open_handleResponse response s :
  gate_open s → gate_open (handleResponse response s).
Proof.
  intros [H1 H2 H3 H4]. unfold handleResponse. destruct (rsp_id response); [|done].
  destruct (pendingRequests s !! _); [|done]. by destruct (truthy _).
Qed.

Lemma gate_open_processLine c l s :
  gate_open s → gate_open (processLine c l s).
Proof.
  intros Hg. destruct l as [| |response]; simpl; [done..|].
  case_bool_decide; [|by apply gate_open_handleResponse].
  destruct Hg as [H1 H2 H3 H4]. split; simpl; try done.
  intros _. exists c. by apply elem_of_cons; left.
Qed.

Lemma awaitingReady_handleResponse response s :
  awaitingReady (handleResponse response s) = awaitingReady s.
Proof.
  unfold handleResponse. destruct (rsp_id response); [|done].
  destruct (pendingRequests s !! _); [|done]. by destruct (truthy _).
Qed.

Lemma lines_keep_gate c lines s :
  gate_open s →
  gate_open (foldl (λ s' l, processLine c l s') s lines)
  ∧ awaitingReady (foldl (λ s' l, processLine c l s') s lines) = awaitingReady s
  ∧ (readyPromise s = true →
     readyPromise (foldl (λ s' l, processLine c l s') s lines) = true).
Proof.
  revert s. induction lines as [|l lines IH]; intros s Hg; simpl; [done|].
  destruct (IH (processLine c l s) (gate_open_processLine c l s Hg)) as (Hg' & Ha & Hr).
  split; [done|]. split.
  - rewrite Ha. destruct l as [| |response]; simpl; [done..|].
    case_bool_decide; [done|]. apply awaitingReady_handleResponse.
  - intros Hres. apply Hr. destruct l as [| |response]; simpl; [done..|].
    case_bool_decide; [done|]. by rewrite readyPromise_handleResponse.
Qed.

Lemma gated_processOutput c lines s :
  gated s → gated (processOutput c lines s).
Proof.
  intros [Hg Hw]. unfold processOutput.
  destruct (lines_keep_gate c lines s Hg) as (Hg' & Ha & Hr).
  set (s' := foldl _ s lines) in *.
  destruct (readyPromise s) eqn:Hres; simpl.
  - split; [done|]. intros _. rewrite Ha. by apply Hw.
  - destruct (readyPromise s') eqn:Hres'.
    + unfold release. apply gated_release_fold; [done|].
      destruct Hg' as [H1 H2 H3 H4]. split; [by split|done].
    + split; [done|]. congruence.
Qed.

Lemma gated_cleanup s : gated s → gated (cleanup s).
Proof.
  intros [[H1 H2 H3 H4] Hw]. split; [split|]; unfold cleanup; simpl; done.
Qed.

Lemma gated_step e s : gated s → gated (step e s).
Proof.
  intros Hg. destruct e as [ok|c lines|c|c|f w|h|]; simpl.
  - unfold start. destruct (pythonProcess s) eqn:Hp; [done|].
    destruct ok; [|done]. simpl. destruct Hg as [[H1 H2 H3 H4] Hw].
    split; [split|]; simpl; try done.
    + intros Hres. destruct (H2 Hres) as [? Hlog]. split; [done|].
      intros o [->|Ho]%elem_of_cons; [done|by apply Hlog].
    + intros Hres. destruct (H3 Hres) as [c' Hc']. exists c'.
      by apply elem_of_cons; right.
    + intros c [= <-]. unfold is_child. simpl. apply Nat.leb_refl.
  - destruct (is_child _ _); [by apply gated_processOutput|done].
  - destruct (is_child _ _); [by apply gated_cleanup|done].
  - destruct (is_child _ _); [by apply gated_cleanup|done].
  - unfold analyzeFile. destruct (isReady s) eqn:Hi.
    + apply gated_send; [|done]. by apply (ready_resolved s (gate s Hg)).
    + destruct (readyPromise s) eqn:Hres; [by apply gated_send|].
      destruct Hg as [[H1 H2 H3 H4] Hw]. split; [split|]; simpl; try done; congruence.
  - unfold timeoutFires. destruct (timers s !! h); [|done].
    destruct Hg as [[H1 H2 H3 H4] Hw]. split; [split|]; simpl; done.
  - unfold dispose. destruct (pythonProcess s) eqn:Hp; [|by apply gated_cleanup].
    apply gated_cleanup. destruct Hg as [[H1 H2 H3 H4] Hw].
    split; [split|]; simpl; try done.
    + intros Hres. destruct (H2 Hres) as [? Hlog]. split; [done|].
      intros o [->|Ho]%elem_of_cons; [done|by apply Hlog].
    + intros Hres. destruct (H3 Hres) as [c' Hc']. exists c'.
      by apply elem_of_cons; right.
Qed.

Lemma reachable_gated s : reachable s → gated s.
Proof. induction 1; [apply gated_new|by apply gated_step]. Qed.

(** Until the first ready signal has arrived, [analyzeFile] only queues
    the call: nothing is written, no id is allocated. *)
Lemma calls_before_first_ready_wait filePath w s :
  reachable s →
  readyPromise s = false →
  analyzeFile filePath w s = set_awaitingReady (awaitingReady s ++ [(filePath, w)]) s
  ∧ ∀ o, o ∈ log (analyzeFile filePath w s) → is_write o = false.
Proof.
  intros Hr Hres. pose proof (reachable_gated s Hr) as [[H1 H2 H3 H4] Hw].
  unfold analyzeFile. destruct (isReady s); [by specialize (H1 eq_refl); congruence|].
  rewrite Hres. split; [done|]. simpl. by apply H2.
Qed.

Global Instance Obs_eq_dec : EqDecision Obs.
Proof. solve_decision. Defined.

(** In a log (newest first), every request line went to a child whose
    ready signal had been received before. *)
Fixpoint writes_follow_ready (l : list Obs) : bool :=
  match l with
  | [] => true
  | Wrote c _ _ :: l' => bool_decide (ReadyFrom c ∈ l') && writes_follow_ready l'
  | _ :: l' => writes_follow_ready l'
  end.

(** A call made before the first ready signal is sent when the signal
    arrives. *)
Example queued_call_is_sent_on_ready :
  log (run [Start true; AnalyzeFile "/p/a.py" None] new) = [Spawned 1]
  ∧ log (run [Start true; AnalyzeFile "/p/a.py" None; Stdout 1 [ready_line]] new)
    = [Wrote 1 "req_1" "/p/a.py"; ReadyFrom 1; Spawned 1].
Proof. vm_compute. done. Qed.

(** The first child signals readiness and exits; [restart()] disposes of
    it and starts a second child; [analyzeFile] is called before the
    second child has said anything. *)
Definition crash_and_restart : list Event :=
  [Start true; Stdout 1 [ready_line]; ChildExit 1; Dispose; Start true;
   AnalyzeFile "/p/a.py" None].

(** C1, at the input where the code departs from it.  After a crash and a
    restart [isReady] is false again, but [readyPromise] is the promise of
    the constructor and stays resolved: the call is not held back, and
    [req_1] is written to the second child, which has not signalled
    readiness. *)
Theorem request_after_restart_is_not_held_back :
  let s := run crash_and_restart new in
  log s = [Wrote 2 "req_1" "/p/a.py"; Spawned 2; ReadyFrom 1; Spawned 1]
  ∧ isReady s = false
  ∧ readyPromise s = true
  ∧ awaitingReady s = []
  ∧ writes_follow_ready (log s) = false.
Proof. vm_compute. repeat split. Qed.

(** *** Which file a request is for *)

(** The manager remembers for good which file a request was made
    for. *)
Lemma calls_send_keeps filePath w m id f :
  consistent m →
  calls m !! id = Some f → calls (send filePath w m) !! id = Some f.
Proof.
  intros Hc H.
  assert (calls (send filePath w m)
          = <[request_id (S (messageId m)) := filePath]> (calls m)) as ->.
  { unfold send. simpl. destruct (pythonProcess m); [|done]. by destruct w. }
  rewrite lookup_insert_ne; [done|]. intros <-. by rewrite (fresh_id m Hc) in H.
Qed.

Lemma calls_handleResponse response m :
  calls (handleResponse response m) = calls m.
Proof.
  unfold handleResponse. destruct (rsp_id response); [|done].
  destruct (pendingRequests m !! _); [|done]. by destruct (truthy _).
Qed.

Lemma calls_lines c lines m :
  calls (foldl (λ s' l, processLine c l s') m lines) = calls m.
Proof.
  revert m. induction lines as [|l lines IH]; intros m; simpl; [done|].
  rewrite IH. destruct l as [| |response]; simpl; [done..|].
  case_bool_decide; [done|]. apply calls_handleResponse.
Qed.

Lemma calls_released_keep ws m id f :
  consistent m →
  calls m !! id = Some f →
  calls (foldl (λ s' '(filePath, write_error), send filePath write_error s')
                m ws) !! id = Some f.
Proof.
  revert m. induction ws as [|[g w] ws IH]; intros m Hc H; simpl; [done|].
  apply IH; [by apply consistent_send|by apply calls_send_keeps].
Qed.

Lemma calls_step_keeps e m id f :
  consistent m →
  calls m !! id = Some f → calls (step e m) !! id = Some f.
Proof.
  intros Hc H. destruct e as [ok|c lines|c|c|g w|h|]; simpl.
  - unfold start. destruct (pythonProcess m); [done|]. by destruct ok.
  - destruct (is_child c m); [|done]. unfold processOutput.
    destruct (negb _ && _).
    + unfold release. apply calls_released_keep.
      * pose proof (consistent_lines c lines m Hc) as [? ? ? ? ? ?]. by split.
      * simpl. by rewrite calls_lines.
    + by rewrite calls_lines.
  - by destruct (is_child c m).
  - by destruct (is_child c m).
  - unfold analyzeFile. destruct (isReady m); [by apply calls_send_keeps|].
    destruct (readyPromise m); [by apply calls_send_keeps|done].
  - unfold timeoutFires. by destruct (timers m !! h).
  - unfold dispose. by destruct (pythonProcess m).
Qed.

Lemma calls_run_keeps es m id f :
  consistent m → calls m !! id = Some f → calls (run es m) !! id = Some f.
Proof.
  revert m. induction es as [|e es IH]; intros m Hc H; simpl; [done|].
  apply IH; [by apply consistent_step|by apply calls_step_keeps].
Qed.

(** *** The counter of the requests *)

Lemma messageId_send filePath w s : messageId (send filePath w s) = S (messageId s).
Proof. unfold send. simpl. by destruct (pythonProcess s); [destruct w|]. Qed.

Lemma messageId_released ws s :
  (messageId s
   ≤ messageId (foldl (λ s' '(filePath, write_error), send filePath write_error s') s ws))%nat.
Proof.
  revert s. induction ws as [|[f w] ws IH]; intros s; simpl; [done|].
  etransitivity; [|apply IH]. rewrite messageId_send. lia.
Qed.

Lemma messageId_lines c lines s :
  messageId (foldl (λ s' l, processLine c l s') s lines) = messageId s.
Proof.
  revert s. induction lines as [|l lines IH]; intros s; simpl; [done|].
  rewrite IH. destruct l as [| |response]; simpl; [done..|].
  case_bool_decide; [done|]. unfold handleResponse.
  destruct (rsp_id response); [|done]. destruct (pendingRequests s !! _); [|done].
  by destruct (truthy _).
Qed.

(** No callback lowers [messageId]. *)
Lemma messageId_step e s : (messageId s ≤ messageId (step e s))%nat.
Proof.
  destruct e as [ok|c lines|c|c|f w|h|]; simpl.
  - unfold start. destruct (pythonProcess s); [done|]. by destruct ok.
  - destruct (is_child c s); [|done]. unfold processOutput.
    destruct (negb _ && _).
    + unfold release. etransitivity; [|apply messageId_released]. simpl.
      by rewrite messageId_lines.
    + by rewrite messageId_lines.
  - by destruct (is_child c s).
  - by destruct (is_child c s).
  - unfold analyzeFile. destruct (isReady s); [rewrite messageId_send; lia|].
    destruct (readyPromise s); [rewrite messageId_send; lia|done].
  - unfold timeoutFires. by destruct (timers s !! h).
  - unfold dispose. by destruct (pythonProcess s).
Qed.

Lemma readyPromise_send filePath w s :
  readyPromise (send filePath w s) = readyPromise s.
Proof. by destruct (send_keeps_gate_fields filePath w s) as (_ & ? & _). Qed.

Lemma readyPromise_released ws s :
  readyPromise (foldl (λ s' '(filePath, write_error), send filePath write_error s') s ws)
  = readyPromise s.
Proof.
  revert s. induction ws as [|[f w] ws IH]; intros s; simpl; [done|].
  by rewrite IH, readyPromise_send.
Qed.

(** *** The calls held back until the ready signal *)




End PythonProcessManagerFacts.

(** ** The override index cache *)

Module IntelligentCacheFacts.
Import IntelligentCache.

Lemma persistCache_projectIndex d c : projectIndex (persistCache d c) = projectIndex c.
Proof. unfold persistCache. by destruct (writable d). Qed.

Lemma delete_all_lookup (keys : list string) (fs : gmap string Entry) z :
  fold_left (λ fs' dep, delete dep fs') keys fs !! z =
    if bool_decide (z ∈ keys) then None else fs !! z.
Proof.
  revert fs. induction keys as [|k keys IH]; intros fs; simpl; [done|].
  rewrite IH. case_bool_decide as Hin; case_bool_decide as Hin'; try done.
  - exfalso. apply Hin'. by apply elem_of_cons; right.
  - apply elem_of_cons in Hin' as [->|?]; [by rewrite lookup_delete_eq|done].
  - rewrite lookup_delete_ne; [done|]. intros ->. apply Hin'. by apply elem_of_cons; left.
Qed.

Lemma elem_of_findDependents filePath c file :
  file ∈ findDependents filePath c ↔
  ∃ deps, dependencies (projectIndex c) !! file = Some deps ∧ filePath ∈ deps.
Proof.
  unfold findDependents. rewrite list_elem_of_omap. split.
  - intros [[file' deps] [Hin Hsome]]. apply elem_of_map_to_list in Hin.
    simpl in Hsome. case_bool_decide; [|done]. injection Hsome as ->. by exists deps.
  - intros (deps & Hdeps & Hin). exists (file, deps). split.
    + by apply elem_of_map_to_list.
    + simpl. by rewrite bool_decide_eq_true_2.
Qed.

(** C3.  [invalidateFile y] removes the entry of [y] and the entry of
    every file whose stored dependency list contains [y], and of no other
    file: a file other than [y] whose dependency list does not contain [y]
    keeps its entry, whatever else that list contains, so the dependents
    of the dependents are not followed.  The dependency map itself is left
    as it is. *)
Theorem invalidate_is_single_hop d y c :
  let c' := invalidateFile d y c in
  files (projectIndex c') !! y = None
  ∧ (∀ x deps,
       dependencies (projectIndex c) !! x = Some deps → y ∈ deps →
       files (projectIndex c') !! x = None)
  ∧ (∀ z,
       z ≠ y →
       (∀ deps, dependencies (projectIndex c) !! z = Some deps → y ∉ deps) →
       files (projectIndex c') !! z = files (projectIndex c) !! z)
  ∧ dependencies (projectIndex c') = dependencies (projectIndex c).
Proof.
  intros c'. unfold c', invalidateFile. rewrite persistCache_projectIndex. simpl.
  split; [|split; [|split]].
  - rewrite delete_all_lookup. case_bool_decide; [done|]. by rewrite lookup_delete_eq.
  - intros x deps Hdeps Hin. rewrite delete_all_lookup.
    rewrite bool_decide_eq_true_2; [done|]. apply elem_of_findDependents. by exists deps.
  - intros z Hne Hz. rewrite delete_all_lookup. rewrite bool_decide_eq_false_2.
    + by rewrite lookup_delete_ne.
    + intros (deps & Hdeps & Hin)%elem_of_findDependents. by apply (Hz deps).
  - done.
Qed.

(** The chain of the specification's open question: [z.py] depends on
    [x.py], which depends on [y.py]; invalidating [y.py] evicts [x.py] and
    keeps [z.py]. *)
Example invalidate_chain :
  let e := mkEntry [] 1%Z in
  let c := mk (mkProjectIndex {[ "/p/x.py" := e; "/p/y.py" := e; "/p/z.py" := e ]}
                 {[ "/p/x.py" := ["/p/y.py"]; "/p/z.py" := ["/p/x.py"] ]} 0%Z)
              None 0 in
  let c' := invalidateFile (mkDisk ∅ true) "/p/y.py" c in
  files (projectIndex c') !! "/p/y.py" = None
  ∧ files (projectIndex c') !! "/p/x.py" = None
  ∧ files (projectIndex c') !! "/p/z.py" = Some e.
Proof. vm_compute. done. Qed.

Example setDependencies_deduplicates :
  dependencies
    (projectIndex
       (setDependencies (mkDisk ∅ true) "/p/a.py" ["/p/b.py"; ""; "/p/c.py"; "/p/b.py"]
          (loadCache None))) !! "/p/a.py"
  = Some ["/p/b.py"; "/p/c.py"].
Proof. vm_compute. done. Qed.

(** C10.  When [statSync] throws for [filePath], [set] changes nothing:
    the index, the snapshot file and the number of writes are those of
    before, and the call returns normally. *)
Theorem set_of_missing_file_changes_nothing d filePath ovs c :
  mtime d !! filePath = None →
  set d filePath ovs c = c.
Proof. intros H. unfold set. by rewrite H. Qed.

Lemma set_of_missing_file_changes_nothing_witness :
  let c := mk (mkProjectIndex {[ "/p/a.py" := mkEntry [] 1%Z ]} ∅ 0%Z) None 0 in
  set (mkDisk ∅ true) "/p/a.py" [] c = c.
Proof.
  apply (set_of_missing_file_changes_nothing (mkDisk ∅ true) "/p/a.py" []).
  reflexivity.
Defined.



End IntelligentCacheFacts.

(** ** The document manager with [analysisQueue] *)

Module DocumentManagerFacts.
Import DocumentManager.

(** The queue and the armed timers mirror each other, and handles are
    never reused. *)
Record queue_consistent (s : t) : Prop := {
  queued_armed :
    ∀ f h, analysisQueue s !! f = Some h → ∃ d, timers s !! h = Some (f, d);
  armed_queued :
    ∀ h f d, timers s !! h = Some (f, d) → analysisQueue s !! f = Some h;
  armed_bound : ∀ h, is_Some (timers s !! h) → (h ≤ nextTimer s)%nat
}.

Lemma queue_consistent_new : queue_consistent new.
Proof.
  split; simpl.
  - intros f h. by rewrite lookup_empty.
  - intros h f d. by rewrite lookup_empty.
  - intros h [? H]. by rewrite lookup_empty in H.
Qed.

Lemma queue_consistent_scheduleAnalysis f delay s :
  queue_consistent s → queue_consistent (scheduleAnalysis f delay s).
Proof.
  intros [Hq Ht Hn]. unfold scheduleAnalysis.
  assert (timers s !! S (nextTimer s) = None) as Hfresh.
  { destruct (timers s !! S (nextTimer s)) eqn:E; [|done].
    pose proof (Hn _ (mk_is_Some _ _ E)). lia. }
  split; simpl.
  - intros g h. rewrite lookup_insert. case_decide as Hg; subst.
    + intros [= <-]. exists delay. by rewrite lookup_insert_eq.
    + intros Hgh. destruct (Hq g h Hgh) as [d Hd]. exists d.
      rewrite lookup_insert_ne by (intros <-; congruence).
      destruct (analysisQueue s !! f) as [h0|] eqn:Hf; [|done].
      rewrite lookup_delete_ne; [done|]. intros <-.
      destruct (Hq f h0 Hf) as [d0 Hd0]. congruence.
  - intros h g d. rewrite lookup_insert. case_decide as Hh; subst.
    + intros [= <- <-]. by rewrite lookup_insert_eq.
    + intros Hgd.
      assert (timers s !! h = Some (g, d) ∧ analysisQueue s !! f ≠ Some h) as [Hold Hne].
      { destruct (analysisQueue s !! f) as [h0|] eqn:Hf.
        - rewrite lookup_delete in Hgd. case_decide; [done|]. split; [done|congruence].
        - done. }
      pose proof (Ht h g d Hold) as Hg.
      rewrite lookup_insert_ne; [done|]. intros <-. congruence.
  - intros h. rewrite lookup_insert. case_decide; subst; [lia|].
    intros Hh. assert (is_Some (timers s !! h)) as Hh'.
    { destruct (analysisQueue s !! f); [|done].
      rewrite lookup_delete in Hh. by case_decide; [destruct Hh|]. }
    pose proof (Hn h Hh'). lia.
Qed.

Lemma queue_consistent_timerFires h s :
  queue_consistent s → queue_consistent (timerFires h s).
Proof.
  intros [Hq Ht Hn]. unfold timerFires.
  destruct (timers s !! h) as [[f d]|] eqn:Hh; [|done].
  pose proof (Ht h f d Hh) as Hf. split; simpl.
  - intros g h1. rewrite lookup_delete. case_decide; subst; [done|].
    intros Hg. destruct (Hq g h1 Hg) as [d1 Hd1]. exists d1.
    rewrite lookup_delete_ne; [done|]. intros <-. congruence.
  - intros h1 g d1. rewrite lookup_delete. case_decide; subst; [done|].
    intros Hg. pose proof (Ht h1 g d1 Hg) as Hq1.
    rewrite lookup_delete_ne; [done|]. intros <-. congruence.
  - intros h1. rewrite lookup_delete. case_decide; [by intros [? ?]|]. apply Hn.
Qed.

Lemma clear_queue_lookup (q : gmap string nat) (ts : gmap nat (string * nat)) h x :
  map_fold (λ _ timeout ts', delete timeout ts') ts q !! h = Some x →
  ts !! h = Some x ∧ ∀ f, q !! f ≠ Some h.
Proof.
  revert q.
  apply (map_fold_weak_ind
           (λ r (m : gmap string nat),
              r !! h = Some x → ts !! h = Some x ∧ ∀ f, m !! f ≠ Some h)).
  - intros Hh. split; [done|]. intros f. by rewrite lookup_empty.
  - intros f y m r Hf IH. rewrite lookup_delete. case_decide as Hy; subst; [done|].
    intros Hr. destruct (IH Hr) as [Hts Hm]. split; [done|].
    intros g. rewrite lookup_insert. case_decide; [congruence|apply Hm].
Qed.

Lemma queue_consistent_dispose s : queue_consistent s → queue_consistent (dispose s).
Proof.
  intros [Hq Ht Hn]. split; unfold dispose; simpl.
  - intros f h. by rewrite lookup_empty.
  - intros h f d Hh. apply clear_queue_lookup in Hh as [Hh Hno].
    exfalso. apply (Hno f). by apply (Ht h f d).
  - intros h [x Hh]. apply clear_queue_lookup in Hh as [Hh _]. apply Hn. by rewrite Hh.
Qed.

Lemma queue_consistent_handle e s : queue_consistent s → queue_consistent (handle e s).
Proof.
  intros Hc. destruct e as [doc|[doc|]|doc|doc|doc|h|]; simpl;
    try (destruct (is_python doc); [|try done]);
    try (apply queue_consistent_scheduleAnalysis);
    try (by apply queue_consistent_timerFires);
    try (by apply queue_consistent_dispose);
    try done; destruct Hc; by split.
Qed.

Lemma reachable_queue_consistent s : reachable s → queue_consistent s.
Proof. induction 1; [apply queue_consistent_new|by apply queue_consistent_handle]. Qed.

(** [performAnalysis] goes on to update the decorations only for the
    file of the active editor. *)
Lemma performAnalysis_needs_active_editor filePath s :
  activeTextEditor s ≠ Some filePath →
  rendered (performAnalysis filePath s) = rendered s
  ∧ performed (performAnalysis filePath s) = filePath :: performed s.
Proof. intros H. unfold performAnalysis. simpl. by rewrite bool_decide_eq_false_2. Qed.

(** The events whose listener calls [scheduleAnalysis] for [f]: a Python
    document with that file name is opened, saved or changed, or an editor
    on it becomes the active one. *)
Definition schedules (f : string) (e : Event) : Prop :=
  ∃ document,
    is_python document = true ∧ fileName document = f
    ∧ (e = DidOpenTextDocument document ∨ e = DidChangeActiveTextEditor (Some document)
       ∨ e = DidSaveTextDocument document ∨ e = DidChangeTextDocument document).

Lemma scheduleAnalysis_keeps_other g delay s h f d :
  queue_consistent s → g ≠ f → timers s !! h = Some (f, d) →
  timers (scheduleAnalysis g delay s) !! h = Some (f, d).
Proof.
  intros Hc Hg Hh. unfold scheduleAnalysis. simpl.
  pose proof (armed_bound s Hc h (mk_is_Some _ _ Hh)) as Hle.
  rewrite lookup_insert_ne by lia.
  destruct (analysisQueue s !! g) as [h0|] eqn:Hq; [|done].
  rewrite lookup_delete_ne; [done|]. intros <-.
  destruct (queued_armed s Hc g h0 Hq) as [d0 Hd0]. congruence.
Qed.

(** A timer that is armed stays armed through every event but its own
    firing, [dispose()] and a new [scheduleAnalysis] for its file. *)
Lemma armed_timer_stays e s h f d :
  queue_consistent s → timers s !! h = Some (f, d) →
  timers (handle e s) !! h = Some (f, d)
  ∨ e = TimerFires h ∨ e = Dispose ∨ schedules f e.
Proof.
  intros Hc Hh.
  assert (∀ document delay s0,
            queue_consistent s0 → timers s0 !! h = Some (f, d) →
            is_python document = true →
            timers (scheduleAnalysis (fileName document) delay s0) !! h = Some (f, d)
            ∨ fileName document = f) as Hother.
  { intros document delay s0 Hc0 Hh0 Hpy.
    destruct (decide (fileName document = f)) as [?|Hne]; [by right|]. left.
    by apply scheduleAnalysis_keeps_other. }
  destruct e as [doc|[doc|]|doc|doc|doc|h'|]; simpl.
  - destruct (is_python doc) eqn:Hpy; [|by left].
    destruct (Hother doc 100 s Hc Hh Hpy) as [?|Hf]; [by left|].
    right; right; right. exists doc. split; [done|]. split; [done|]. auto 6.
  - destruct (is_python doc) eqn:Hpy; [|by left].
    set (s1 := mk _ _ _ _ _ _ _).
    assert (queue_consistent s1) as Hc1 by (destruct Hc; by split).
    destruct (Hother doc 50 s1 Hc1 Hh Hpy) as [?|Hf]; [by left|].
    right; right; right. exists doc. split; [done|]. split; [done|]. auto 6.
  - by left.
  - destruct (is_python doc) eqn:Hpy; [|by left].
    assert (queue_consistent (clearCache (fileName doc) s)) as Hc1
      by (destruct Hc; by split).
    destruct (Hother doc 200 _ Hc1 Hh Hpy) as [?|Hf]; [by left|].
    right; right; right. exists doc. split; [done|]. split; [done|]. auto 6.
  - destruct (is_python doc) eqn:Hpy; [|by left].
    destruct (Hother doc 1000 s Hc Hh Hpy) as [?|Hf]; [by left|].
    right; right; right. exists doc. split; [done|]. split; [done|]. auto 6.
  - by left.
  - destruct (decide (h' = h)) as [->|Hne]; [by right; left|]. left.
    unfold timerFires. destruct (timers s !! h') as [[g d']|]; [|done]. simpl.
    by rewrite lookup_delete_ne.
  - by right; right; left.
Qed.

Lemma burst_keeps_queue f delays s :
  queue_consistent s →
  is_Some (analysisQueue s !! f) →
  let s' := foldl (λ s' d, scheduleAnalysis f d s') s delays in
  queue_consistent s' ∧ is_Some (analysisQueue s' !! f) ∧ performed s' = performed s.
Proof.
  revert s. induction delays as [|d delays IH]; intros s Hc Hf; simpl; [done|].
  destruct (IH (scheduleAnalysis f d s)) as (Hc' & Hf' & Hp).
  - by apply queue_consistent_scheduleAnalysis.
  - unfold scheduleAnalysis. simpl. by rewrite lookup_insert_eq.
  - done.
Qed.

(** C8.  [scheduleAnalysis f] disarms the timer that was queued for [f]
    and queues a new one, so in every reachable state at most one timer
    is armed for a file.  After a burst of one or more [scheduleAnalysis]
    calls for [f], exactly one timer is armed for [f], the one of
    [analysisQueue], and [performAnalysis] has not run; when that timer
    fires, [performAnalysis f] runs once, [f] leaves [analysisQueue] and
    no timer stays armed for [f]. *)
Theorem one_timer_per_file_one_analysis_per_burst s :
  reachable s →
  (∀ f d h0,
     analysisQueue s !! f = Some h0 →
     timers (scheduleAnalysis f d s) !! h0 = None
     ∧ analysisQueue (scheduleAnalysis f d s) !! f = Some (S (nextTimer s))
     ∧ timers (scheduleAnalysis f d s) !! S (nextTimer s) = Some (f, d))
  ∧ (∀ h1 h2 f d1 d2,
       timers s !! h1 = Some (f, d1) → timers s !! h2 = Some (f, d2) → h1 = h2)
  ∧ ∀ f d delays,
      let s' := foldl (λ s' d', scheduleAnalysis f d' s') s (d :: delays) in
      ∃ h,
        analysisQueue s' !! f = Some h
        ∧ is_Some (timers s' !! h)
        ∧ (∀ h' d', timers s' !! h' = Some (f, d') → h' = h)
        ∧ performed s' = performed s
        ∧ performed (timerFires h s') = f :: performed s
        ∧ analysisQueue (timerFires h s') !! f = None
        ∧ ∀ h' d', timers (timerFires h s') !! h' ≠ Some (f, d').
Proof.
  intros Hr. pose proof (reachable_queue_consistent s Hr) as Hc. split_and!.
  - intros f d h0 Hq. unfold scheduleAnalysis. simpl. rewrite Hq.
    destruct (queued_armed s Hc f h0 Hq) as [d0 Hd0].
    pose proof (armed_bound s Hc h0 (mk_is_Some _ _ Hd0)) as Hle.
    rewrite !lookup_insert_eq. split_and!; try done.
    rewrite lookup_insert_ne by lia. by rewrite lookup_delete_eq.
  - intros h1 h2 f d1 d2 H1 H2.
    pose proof (armed_queued s Hc h1 f d1 H1). pose proof (armed_queued s Hc h2 f d2 H2).
    congruence.
  - intros f d delays s'. unfold s'. simpl.
    destruct (burst_keeps_queue f delays (scheduleAnalysis f d s)) as (Hc' & [h Hh] & Hp).
    { by apply queue_consistent_scheduleAnalysis. }
    { unfold scheduleAnalysis. simpl. by rewrite lookup_insert_eq. }
    set (s1 := foldl _ (scheduleAnalysis f d s) delays) in *.
    destruct (queued_armed s1 Hc' f h Hh) as [d0 Hd0].
    exists h. split; [done|]. split; [by rewrite Hd0|]. split.
    { intros h' d' Hh'. pose proof (armed_queued s1 Hc' h' f d' Hh'). congruence. }
    split; [done|]. unfold timerFires. rewrite Hd0. simpl.
    split; [by rewrite Hp|]. split; [by rewrite lookup_delete_eq|].
    intros h' d'. rewrite lookup_delete. case_decide; [done|].
    intros Hh'. pose proof (armed_queued s1 Hc' h' f d' Hh'). congruence.
Qed.

Lemma one_timer_per_file_one_analysis_per_burst_witness :
  let a := "/p/a.py" in
  let s' := foldl (λ s' d', scheduleAnalysis a d' s') new [100; 1000; 1000; 200] in
  ∃ h,
    analysisQueue s' !! a = Some h
    ∧ is_Some (timers s' !! h)
    ∧ (∀ h' d', timers s' !! h' = Some (a, d') → h' = h)
    ∧ performed s' = performed new
    ∧ performed (timerFires h s') = a :: performed new
    ∧ analysisQueue (timerFires h s') !! a = None
    ∧ ∀ h' d', timers (timerFires h s') !! h' ≠ Some (a, d').
Proof.
  exact (proj2 (proj2 (one_timer_per_file_one_analysis_per_burst new reachable_new))
           "/p/a.py" 100 [1000; 1000; 200]).
Defined.

End DocumentManagerFacts.

(** ** The document manager with [debounceTimers] *)

Module EditorDocumentManagerFacts.
Import EditorDocumentManager.

(** A handle that has been given out and is not armed stays so. *)
Lemma spent_handle_stays_spent e s h :
  (h ≤ nextTimer s)%nat → timers s !! h = None →
  (h ≤ nextTimer (handle e s))%nat ∧ timers (handle e s) !! h = None.
Proof.
  intros Hle Hh.
  assert (∀ f s0, (h ≤ nextTimer s0)%nat → timers s0 !! h = None →
            (h ≤ nextTimer (scheduleAnalysis f s0))%nat
            ∧ timers (scheduleAnalysis f s0) !! h = None) as Hsched.
  { intros f s0 Hle0 Hh0. unfold scheduleAnalysis. simpl. split; [lia|].
    rewrite lookup_insert_ne by lia.
    destruct (debounceTimers s0 !! f); [|done].
    rewrite lookup_delete. by case_decide. }
  destruct e as [[doc|]|doc|doc|h'|k]; simpl.
  - destruct (is_python doc); [by apply Hsched|done].
  - done.
  - destruct (is_python doc); [|done]. case_bool_decide; [by apply Hsched|done].
  - unfold didClose. destruct (is_python doc); [|done]. simpl.
    destruct (debounceTimers s !! fileName doc); [|done]. simpl. split; [done|].
    rewrite lookup_delete. by case_decide.
  - unfold timerFires. destruct (timers s !! h') eqn:E; [|done]. simpl. split; [done|].
    rewrite lookup_delete. by case_decide.
  - unfold callbackFinishes. by destruct (updating s !! k).
Qed.

Lemma spent_handle_never_fires es s h :
  (h ≤ nextTimer s)%nat → timers s !! h = None →
  timerFires h (run es s) = run es s.
Proof.
  revert s. induction es as [|e es IH]; intros s Hle Hh; simpl.
  - unfold timerFires. by rewrite Hh.
  - destruct (spent_handle_stays_spent e s h Hle Hh). by apply IH.
Qed.

(** Handles in use are handles that were given out. *)
Record handles_bounded (s : t) : Prop := {
  registered_bound : ∀ f h, debounceTimers s !! f = Some h → (h ≤ nextTimer s)%nat;
  armed_bound : ∀ h, is_Some (timers s !! h) → (h ≤ nextTimer s)%nat
}.

Lemma handles_bounded_scheduleAnalysis f s :
  handles_bounded s → handles_bounded (scheduleAnalysis f s).
Proof.
  intros [Hq Ht]. split; unfold scheduleAnalysis; simpl.
  - intros g h. rewrite lookup_insert. case_decide; [intros [= <-]; lia|].
    intros Hg. pose proof (Hq g h Hg). lia.
  - intros h. rewrite lookup_insert. case_decide; subst; [lia|]. intros Hh.
    assert (is_Some (timers s !! h)) as Hh'.
    { destruct (debounceTimers s !! f); [|done].
      rewrite lookup_delete in Hh. by case_decide; [destruct Hh|]. }
    pose proof (Ht h Hh'). lia.
Qed.

Lemma handles_bounded_handle e s : handles_bounded s → handles_bounded (handle e s).
Proof.
  intros Hb. destruct e as [[doc|]|doc|doc|h'|k]; simpl.
  - destruct (is_python doc); [apply handles_bounded_scheduleAnalysis|];
      destruct Hb; by split.
  - destruct Hb; by split.
  - destruct (is_python doc); [|done].
    case_bool_decide; [apply handles_bounded_scheduleAnalysis|]; destruct Hb; by split.
  - unfold didClose. destruct (is_python doc); [|done]. simpl.
    destruct (debounceTimers s !! fileName doc) eqn:E; [|destruct Hb; by split].
    destruct Hb as [Hq Ht]. split; simpl.
    + intros g h. rewrite lookup_delete. case_decide; [done|]. apply Hq.
    + intros h. rewrite lookup_delete. case_decide; [by intros [? ?]|]. apply Ht.
  - unfold timerFires. destruct (timers s !! h') eqn:E; [|done].
    destruct Hb as [Hq Ht]. split; simpl; [done|].
    intros h. rewrite lookup_delete. case_decide; [by intros [? ?]|]. apply Ht.
  - unfold callbackFinishes. destruct (updating s !! k); [|done].
    destruct Hb as [Hq Ht]. split; simpl; [|done].
    intros g h. rewrite lookup_delete. case_decide; [done|]. apply Hq.
Qed.

Lemma reachable_handles_bounded s : reachable s → handles_bounded s.
Proof.
  induction 1; [|by apply handles_bounded_handle].
  split; simpl.
  - intros f h. by rewrite lookup_empty.
  - intros h [? H]. by rewrite lookup_empty in H.
Qed.

(** A registered timer that is armed is a timer of the file it is
    registered for. *)
Definition own_file (s : t) : Prop :=
  ∀ g h f, debounceTimers s !! g = Some h → timers s !! h = Some f → f = g.

Lemma own_file_scheduleAnalysis f s :
  handles_bounded s → own_file s → own_file (scheduleAnalysis f s).
Proof.
  intros [Hq Ht] Ho g h f'. unfold scheduleAnalysis. simpl.
  rewrite lookup_insert. case_decide as Hg; subst.
  - intros [= <-]. rewrite lookup_insert_eq. by intros [= <-].
  - intros Hh. pose proof (Hq g h Hh). rewrite lookup_insert_ne by lia.
    intros Hf. apply (Ho g h f' Hh).
    destruct (debounceTimers s !! f); [|done].
    rewrite lookup_delete in Hf. by case_decide.
Qed.

Lemma own_file_handle e s : handles_bounded s → own_file s → own_file (handle e s).
Proof.
  intros Hb Ho. destruct e as [[doc|]|doc|doc|h'|k]; simpl.
  - destruct (is_python doc); [|done].
    apply own_file_scheduleAnalysis; [destruct Hb; by split|done].
  - done.
  - destruct (is_python doc); [|done]. case_bool_decide; [|done].
    apply own_file_scheduleAnalysis; [destruct Hb; by split|done].
  - unfold didClose. destruct (is_python doc); [|done]. simpl.
    destruct (debounceTimers s !! fileName doc) eqn:E; [|done].
    intros g h f. simpl. rewrite !lookup_delete. repeat case_decide; try done. apply Ho.
  - unfold timerFires. destruct (timers s !! h') eqn:E; [|done].
    intros g h f. simpl. rewrite lookup_delete. case_decide; [done|]. apply Ho.
  - unfold callbackFinishes. destruct (updating s !! k); [|done].
    intros g h f. simpl. rewrite lookup_delete. case_decide; [done|]. apply Ho.
Qed.

Lemma reachable_own_file s : reachable s → own_file s.
Proof.
  induction 1 as [|e s Hr IH].
  - intros g h f. simpl. by rewrite lookup_empty.
  - by apply own_file_handle; [apply reachable_handles_bounded|].
Qed.

(** C9, as amended.
    - In the manager that listens to [onDidCloseTextDocument], closing a
      Python document whose file has a timer that is registered in
      [debounceTimers] and still pending (armed: it has not fired; left
      alone, it would fire and call [updateDecorations] for the file)
      clears that timer and deletes the entry; [updateDecorations] is
      not called, and whatever happens next the timer does not fire.
    - In the manager with [analysisQueue], a pending timer is the one
      queued for its file; closing a document changes nothing, so the
      timer stays queued and armed; when it fires, [performAnalysis] is
      invoked for its file, and renders nothing unless the file is in the
      active editor; the only events that disarm it without firing it are
      [dispose()] and a new [scheduleAnalysis] for the same file. *)
Theorem close_cancels_the_registered_timer :
  (∀ s document h,
     reachable s →
     is_python document = true →
     debounceTimers s !! fileName document = Some h →
     is_Some (timers s !! h) →
     let s' := handle (DidCloseTextDocument document) s in
     updated (handle (TimerFires h) s) = fileName document :: updated s
     ∧ debounceTimers s' !! fileName document = None
     ∧ timers s' !! h = None
     ∧ updated s' = updated s
     ∧ updating s' = updating s
     ∧ ∀ es, timerFires h (run es s') = run es s')
  ∧ (∀ q h f d,
       DocumentManager.reachable q →
       DocumentManager.timers q !! h = Some (f, d) →
       DocumentManager.analysisQueue q !! f = Some h
       ∧ (∀ document,
            DocumentManager.handle (DocumentManager.DidCloseTextDocument document) q = q)
       ∧ DocumentManager.performed
           (DocumentManager.handle (DocumentManager.TimerFires h) q)
         = f :: DocumentManager.performed q
       ∧ (DocumentManager.activeTextEditor q ≠ Some f →
          DocumentManager.rendered
            (DocumentManager.handle (DocumentManager.TimerFires h) q)
          = DocumentManager.rendered q)
       ∧ ∀ e,
           DocumentManager.timers (DocumentManager.handle e q) !! h = Some (f, d)
           ∨ e = DocumentManager.TimerFires h
           ∨ e = DocumentManager.Dispose
           ∨ DocumentManagerFacts.schedules f e).
Proof.
  split.
  - intros s document h Hr Hpy Hh [f Hf] s'.
    pose proof (reachable_handles_bounded s Hr) as [Hq Ht].
    pose proof (reachable_own_file s Hr _ _ _ Hh Hf) as ->.
    split; [simpl; unfold timerFires; by rewrite Hf|].
    assert (s' = mk (delete (fileName document) (debounceTimers s)) (delete h (timers s))
                    (nextTimer s) (activeTextEditor s) (updating s) (updated s)
                    (fileName document :: cleared s)) as ->.
    { unfold s'. simpl. unfold didClose. rewrite Hpy. simpl. by rewrite Hh. }
    simpl. rewrite !lookup_delete_eq. repeat split.
    intros es. apply spent_handle_never_fires; simpl.
    + by apply (Hq (fileName document)).
    + by rewrite lookup_delete_eq.
  - intros q h f d Hr Hh.
    pose proof (DocumentManagerFacts.reachable_queue_consistent q Hr) as Hc.
    split_and!.
    + by apply (DocumentManagerFacts.armed_queued q Hc h f d).
    + done.
    + simpl. unfold DocumentManager.timerFires. by rewrite Hh.
    + intros Hne. simpl. unfold DocumentManager.timerFires. rewrite Hh. simpl.
      by rewrite bool_decide_eq_false_2.
    + intros e. by apply DocumentManagerFacts.armed_timer_stays.
Qed.

Lemma close_cancels_the_registered_timer_witness :
  let a := mkTextDocument "/p/a.py" "python" in
  let s := run [DidChangeActiveTextEditor (Some a)] new in
  let s' := handle (DidCloseTextDocument a) s in
  let q := DocumentManager.handle (DocumentManager.DidChangeTextDocument a)
             DocumentManager.new in
  (updated (handle (TimerFires 1) s) = fileName a :: updated s
   ∧ debounceTimers s' !! fileName a = None
   ∧ timers s' !! 1 = None
   ∧ updated s' = updated s
   ∧ updating s' = updating s
   ∧ ∀ es, timerFires 1 (run es s') = run es s')
  ∧ DocumentManager.analysisQueue q !! "/p/a.py" = Some 1
  ∧ (∀ document,
       DocumentManager.handle (DocumentManager.DidCloseTextDocument document) q = q)
  ∧ DocumentManager.performed (DocumentManager.handle (DocumentManager.TimerFires 1) q)
    = "/p/a.py" :: DocumentManager.performed q
  ∧ (DocumentManager.activeTextEditor q ≠ Some "/p/a.py" →
     DocumentManager.rendered (DocumentManager.handle (DocumentManager.TimerFires 1) q)
     = DocumentManager.rendered q)
  ∧ ∀ e,
      DocumentManager.timers (DocumentManager.handle e q) !! 1 = Some ("/p/a.py", 1000)
      ∨ e = DocumentManager.TimerFires 1
      ∨ e = DocumentManager.Dispose
      ∨ DocumentManagerFacts.schedules "/p/a.py" e.
Proof.
  split.
  - apply (proj1 close_cancels_the_registered_timer
             (run [DidChangeActiveTextEditor (Some (mkTextDocument "/p/a.py" "python"))]
                new)
             (mkTextDocument "/p/a.py" "python") 1).
    + apply reachable_handle, reachable_new.
    + reflexivity.
    + vm_compute. reflexivity.
    + vm_compute. eexists. reflexivity.
  - apply (proj2 close_cancels_the_registered_timer
             (DocumentManager.handle
                (DocumentManager.DidChangeTextDocument (mkTextDocument "/p/a.py" "python"))
                DocumentManager.new)
             1 "/p/a.py" 1000).
    + apply DocumentManager.reachable_handle, DocumentManager.reachable_new.
    + vm_compute. reflexivity.
Defined.

(** C9, as stated, fails for the manager with [analysisQueue]: it has no
    close listener.  A change of [/p/a.py] arms timer 1; after the
    document is closed the timer is still queued and armed, and when it
    fires [performAnalysis] is invoked for the closed file (and, the file
    not being in the active editor, updates no decoration). *)
Lemma close_leaves_the_queued_timer_armed :
  let a := mkTextDocument "/p/a.py" "python" in
  let s := DocumentManager.run
             [DocumentManager.DidChangeTextDocument a;
              DocumentManager.DidCloseTextDocument a] DocumentManager.new in
  DocumentManager.analysisQueue s !! "/p/a.py" = Some 1
  ∧ DocumentManager.timers s !! 1 = Some ("/p/a.py", 1000)
  ∧ DocumentManager.performed
      (DocumentManager.handle (DocumentManager.TimerFires 1) s) = ["/p/a.py"]
  ∧ DocumentManager.rendered
      (DocumentManager.handle (DocumentManager.TimerFires 1) s) = [].
Proof. vm_compute. done. Qed.

End EditorDocumentManagerFacts.

(** ** The analyzer facade *)

Module PythonOverrideAnalyzerFacts.
Import PythonOverrideAnalyzer.
Module LF := PythonProcessManagerFacts.

(** *** The manager inside the analyzer *)

Lemma readyPromise_step_keeps e m :
  Link.readyPromise m = true → Link.readyPromise (Link.step e m) = true.
Proof.
  intros Hres. destruct e as [ok|c lines|c|c|f w|h|]; simpl.
  - unfold Link.start. destruct (Link.pythonProcess m); [done|]. by destruct ok.
  - destruct (Link.is_child c m); [|done]. unfold Link.processOutput.
    rewrite Hres. simpl. clear -Hres. revert m Hres.
    induction lines as [|l lines IH]; intros m Hres; simpl; [done|]. apply IH.
    destruct l as [| |response]; simpl; [done..|]. case_bool_decide; [done|].
    by rewrite LF.readyPromise_handleResponse.
  - by destruct (Link.is_child c m).
  - by destruct (Link.is_child c m).
  - unfold Link.analyzeFile. rewrite Hres.
    destruct (LF.send_keeps_gate_fields f w m) as (_ & Hs & _).
    destruct (Link.isReady m); congruence.
  - unfold Link.timeoutFires. by destruct (Link.timers m !! h).
  - unfold Link.dispose. by destruct (Link.pythonProcess m).
Qed.

(** What holds of the manager of an initialised analyzer. *)
Record link_ok (m : Link.t) : Prop := {
  link_consistent : LF.consistent m;
  link_gated : LF.gated m
}.

Lemma link_ok_step e m : link_ok m → link_ok (Link.step e m).
Proof.
  intros [Hc Hg]. split.
  - by apply LF.consistent_step.
  - by apply LF.gated_step.
Qed.

Lemma link_ok_reachable m : Link.reachable m → link_ok m.
Proof.
  intros Hr. split; [by apply LF.reachable_consistent|by apply LF.reachable_gated].
Qed.

Lemma reachable_initialized_manager : Link.reachable initialized_manager.
Proof.
  assert (initialized_manager =
          Link.step (Link.Stdout 1
                       [Link.Message (Link.mkResponse (Some "ready") None None None)])
            (Link.step (Link.Start true) Link.new)) as -> by reflexivity.
  apply Link.reachable_step, Link.reachable_step, Link.reachable_new.
Qed.

Lemma link_ok_initialized : link_ok initialized_manager.
Proof. apply link_ok_reachable, reachable_initialized_manager. Qed.

(** A manager makes no request before it has received a ready signal. *)
Lemma issued_resolved m id :
  link_ok m → is_Some (Link.calls m !! id) → Link.readyPromise m = true.
Proof.
  intros [Hc Hg] Hid. destruct (Link.readyPromise m) eqn:Hres; [done|]. exfalso.
  destruct (LF.unresolved_idle m (LF.gate m Hg) Hres) as [Hn _].
  destruct (LF.called_issued m Hc id Hid) as (k & Hk & _). lia.
Qed.

Lemma pending_resolved m id :
  link_ok m → is_Some (Link.pendingRequests m !! id) → Link.readyPromise m = true.
Proof.
  intros Hok Hid. apply (issued_resolved m id Hok).
  by apply LF.pending_called; [apply Hok|].
Qed.


Lemma link_ok_dispose m : link_ok m → link_ok (Link.dispose m).
Proof. apply (link_ok_step Link.Dispose). Qed.

Lemma link_ok_start ok m : link_ok m → link_ok (Link.start ok m).2.
Proof. apply (link_ok_step (Link.Start ok)). Qed.

Lemma link_ok_analyzeFile f w m : link_ok m → link_ok (Link.analyzeFile f w m).
Proof. apply (link_ok_step (Link.AnalyzeFile f w)). Qed.

Lemma link_ok_timeoutFires h m : link_ok m → link_ok (Link.timeoutFires h m).
Proof. apply (link_ok_step (Link.TimeoutFires h)). Qed.

Lemma link_ok_cleanup m : link_ok m → link_ok (Link.cleanup m).
Proof.
  intros [Hc Hg]. split; [by apply LF.consistent_cleanup|by apply LF.gated_cleanup].
Qed.

Lemma link_ok_processOutput c lines m :
  link_ok m → link_ok (Link.processOutput c lines m).
Proof.
  intros [Hc Hg]. split.
  - by apply LF.consistent_processOutput.
  - by apply LF.gated_processOutput.
Qed.

(** *** The reactions *)

Lemma set_jobs_idle st : jobs st = [] → set_jobs [] st = st.
Proof. destruct st. simpl. by intros ->. Qed.

Lemma drain_idle st : jobs st = [] → drain st = st.
Proof.
  intros H. unfold drain, run_jobs. rewrite H. simpl.
  rewrite (set_jobs_idle st H). by apply set_jobs_idle.
Qed.

Lemma settled_since_nil before after : settled_since before after [] = [].
Proof. done. Qed.

Lemma pending_dispose m : Link.pendingRequests (Link.dispose m) = ∅.
Proof. unfold Link.dispose. by destruct (Link.pythonProcess m). Qed.

Lemma pythonProcess_dispose m : Link.pythonProcess (Link.dispose m) = None.
Proof. unfold Link.dispose. by destruct (Link.pythonProcess m). Qed.

(** A reaction either leaves the manager and the queue alone or leaves
    no request pending; with no request pending it queues nothing. *)
Lemma reaction_jobs id st :
  (jobs (reaction id st) = jobs st ∧ processManager (reaction id st) = processManager st)
  ∨ Link.pendingRequests (processManager (reaction id st)) = ∅.
Proof.
  unfold reaction. destruct (awaiting st !! id) as [f|]; [|by left].
  destruct (Link.promises (processManager st) !! id) as [[result|message]|]; [| |by left].
  - by left.
  - right. unfold analyzeFile_rejected. simpl. apply pending_dispose.
Qed.

Lemma reaction_jobs_idle id st :
  Link.pendingRequests (processManager st) = ∅ →
  jobs (reaction id st) = jobs st
  ∧ Link.pendingRequests (processManager (reaction id st)) = ∅.
Proof.
  intros He. unfold reaction. destruct (awaiting st !! id) as [f|]; [|done].
  destruct (Link.promises (processManager st) !! id) as [[result|message]|]; [done| |done].
  unfold analyzeFile_rejected, enqueue. simpl. rewrite He, map_to_list_empty. simpl.
  rewrite app_nil_r. split; [done|]. apply pending_dispose.
Qed.

Lemma reactions_jobs_idle js st :
  Link.pendingRequests (processManager st) = ∅ →
  jobs (foldl (λ st' id, reaction id st') st js) = jobs st
  ∧ Link.pendingRequests (processManager (foldl (λ st' id, reaction id st') st js)) = ∅.
Proof.
  revert st. induction js as [|id js IH]; intros st He; simpl; [done|].
  destruct (reaction_jobs_idle id st He) as [Hj Hp].
  destruct (IH (reaction id st) Hp) as [Hj' Hp']. split; congruence.
Qed.

Lemma reactions_jobs js st :
  jobs st = [] →
  jobs (foldl (λ st' id, reaction id st') st js) = []
  ∨ Link.pendingRequests (processManager (foldl (λ st' id, reaction id st') st js)) = ∅.
Proof.
  revert st. induction js as [|id js IH]; intros st Hj; simpl; [by left|].
  destruct (reaction_jobs id st) as [[Hj' _]|Hp].
  - apply IH. congruence.
  - right. by apply reactions_jobs_idle.
Qed.

(** Nothing is left in the queue once the reactions have run. *)
Lemma drain_leaves_no_job st : jobs (drain st) = [].
Proof.
  unfold drain. set (st1 := run_jobs st).
  assert (jobs st1 = [] ∨ Link.pendingRequests (processManager st1) = ∅) as [H|H].
  { unfold st1, run_jobs. apply reactions_jobs. by destruct st. }
  - unfold run_jobs. rewrite H. simpl. by destruct st1.
  - unfold run_jobs.
    destruct (reactions_jobs_idle (jobs st1) (set_jobs [] st1)) as [Hj _].
    + by destruct st1.
    + rewrite Hj. by destruct st1.
Qed.

Lemma step_leaves_no_job e st : jobs (step e st) = [].
Proof. apply drain_leaves_no_job. Qed.

(** *** Failures *)

Definition all_rejected (js : list string) (m : Link.t) : Prop :=
  ∀ id, id ∈ js → ∃ message, Link.promises m !! id = Some (Link.Rejected message).

Lemma settled_since_spec before after candidates id :
  id ∈ settled_since before after candidates ↔
  id ∈ candidates
  ∧ Link.promises before !! id = None
  ∧ is_Some (Link.promises after !! id).
Proof.
  unfold settled_since, settled. rewrite !list_elem_of_In, filter_In.
  rewrite andb_true_iff, negb_true_iff, bool_decide_eq_false, bool_decide_eq_true.
  rewrite <- eq_None_not_Some. tauto.
Qed.

Lemma dispose_promises m id :
  LF.consistent m →
  Link.promises (Link.dispose m) !! id =
    match Link.promises m !! id with
    | Some x => Some x
    | None =>
        match Link.pendingRequests m !! id with
        | Some _ => Some (Link.Rejected "Python process terminated")
        | None => None
        end
    end.
Proof.
  intros Hc. unfold Link.dispose. destruct (Link.pythonProcess m).
  - rewrite LF.cleanup_promises; [done|]. destruct Hc. by split.
  - by rewrite LF.cleanup_promises.
Qed.

Lemma dispose_keeps_promise m id v :
  LF.consistent m →
  Link.promises m !! id = Some v → Link.promises (Link.dispose m) !! id = Some v.
Proof. intros Hc H. by rewrite dispose_promises, H. Qed.

Lemma dispose_rejects m candidates :
  LF.consistent m →
  all_rejected (settled_since m (Link.dispose m) candidates) (Link.dispose m).
Proof.
  intros Hc id (_ & Hbefore & Hafter)%settled_since_spec.
  rewrite dispose_promises, Hbefore in * by done.
  destruct (Link.pendingRequests m !! id); [by eexists|by destruct Hafter].
Qed.

Lemma reaction_unawaited id st : awaiting st !! id = None → reaction id st = st.
Proof. intros H. unfold reaction. by rewrite H. Qed.

Lemma reaction_rejected id filePath message st :
  awaiting st !! id = Some filePath →
  Link.promises (processManager st) !! id = Some (Link.Rejected message) →
  reaction id st = analyzeFile_rejected id filePath message st.
Proof. intros H1 H2. unfold reaction. by rewrite H1, H2. Qed.

(** What one reaction to a rejection does. *)
Lemma rejection_runs id0 st :
  link_ok (processManager st) →
  all_rejected [id0] (processManager st) →
  all_rejected (jobs st) (processManager st) →
  let st' := reaction id0 st in
  link_ok (processManager st')
  ∧ all_rejected (jobs st') (processManager st')
  ∧ cache st' = cache st ∧ disk st' = disk st ∧ returned st' = returned st
  ∧ (∀ id v, Link.promises (processManager st) !! id = Some v →
             Link.promises (processManager st') !! id = Some v)
  ∧ (∀ id, awaiting st !! id = None →
           awaiting st' !! id = None ∧ restarting st' !! id = restarting st !! id)
  ∧ (∀ filePath, awaiting st !! id0 = Some filePath →
       awaiting st' !! id0 = None ∧ restarting st' !! id0 = Some filePath
       ∧ Link.pythonProcess (processManager st') = None)
  ∧ (∀ id filePath, id ≠ id0 → awaiting st !! id = Some filePath →
       awaiting st' !! id = Some filePath)
  ∧ (Link.pythonProcess (processManager st) = None →
     Link.pythonProcess (processManager st') = None).
Proof.
  intros Hok Hrej Hjobs st'. destruct (Hrej id0) as [message Hmsg].
  { by apply list_elem_of_singleton. }
  destruct (awaiting st !! id0) as [f|] eqn:Haw.
  - unfold st'. rewrite (reaction_rejected id0 f message) by done.
    unfold analyzeFile_rejected, enqueue. simpl.
    pose proof (link_consistent _ Hok) as Hc.
    split; [by apply link_ok_dispose|]. split.
    { intros id [Hin|Hin]%elem_of_app.
      - destruct (Hjobs id Hin) as [msg Hm]. exists msg. by apply dispose_keeps_promise.
      - eapply dispose_rejects; [exact Hc|exact Hin]. }
    split_and!; try done.
    + intros id v. by apply dispose_keeps_promise.
    + intros id Hid. split.
      * rewrite lookup_delete. by case_decide.
      * rewrite lookup_insert_ne; [done|]. intros <-. congruence.
    + intros ? [= <-]. split_and!.
      * by rewrite lookup_delete_eq.
      * by rewrite lookup_insert_eq.
      * apply pythonProcess_dispose.
    + intros id g Hne Hg. by rewrite lookup_delete_ne.
    + intros _. apply pythonProcess_dispose.
  - unfold st'. rewrite reaction_unawaited by done. split_and!; try done.
Qed.

Lemma all_rejected_kept js m m' :
  (∀ id v, Link.promises m !! id = Some v → Link.promises m' !! id = Some v) →
  all_rejected js m → all_rejected js m'.
Proof. intros Hk Hr id Hin. destruct (Hr id Hin) as [msg Hm]. exists msg. by apply Hk. Qed.

(** What a run of reactions to rejections does. *)
Lemma rejections_run js st :
  link_ok (processManager st) →
  all_rejected js (processManager st) →
  all_rejected (jobs st) (processManager st) →
  let st' := foldl (λ st0 id, reaction id st0) st js in
  link_ok (processManager st')
  ∧ all_rejected (jobs st') (processManager st')
  ∧ cache st' = cache st ∧ disk st' = disk st ∧ returned st' = returned st
  ∧ (∀ id v, Link.promises (processManager st) !! id = Some v →
             Link.promises (processManager st') !! id = Some v)
  ∧ (∀ id, awaiting st !! id = None →
           awaiting st' !! id = None ∧ restarting st' !! id = restarting st !! id)
  ∧ (∀ id filePath, id ∈ js → awaiting st !! id = Some filePath →
       awaiting st' !! id = None ∧ restarting st' !! id = Some filePath
       ∧ Link.pythonProcess (processManager st') = None)
  ∧ (Link.pythonProcess (processManager st) = None →
     Link.pythonProcess (processManager st') = None).
Proof.
  revert st. induction js as [|id0 js IH]; intros st Hok Hrej Hjobs; simpl.
  { split_and!; try done. intros id f Hin. by apply elem_of_nil in Hin. }
  destruct (rejection_runs id0 st Hok) as (Hok1 & Hjobs1 & Hc1 & Hd1 & Hr1 & Hk1 & Hn1 & Ha1 & Ho1 & Hp1).
  { intros id ->%list_elem_of_singleton. apply Hrej. by apply elem_of_cons; left. }
  { done. }
  destruct (IH (reaction id0 st) Hok1) as (Hok2 & Hjobs2 & Hc2 & Hd2 & Hr2 & Hk2 & Hn2 & Ha2 & Hp2).
  { apply (all_rejected_kept js (processManager st)); [done|].
    intros id Hin. apply Hrej. by apply elem_of_cons; right. }
  { done. }
  split; [done|]. split; [done|].
  split; [congruence|]. split; [congruence|]. split; [congruence|].
  split; [by intros id v Hv; apply Hk2, Hk1|]. split.
  { intros id Hid. destruct (Hn1 id Hid) as [H1 H1'].
    destruct (Hn2 id H1) as [H2 H2']. split; [done|congruence]. }
  split; [|by intros Hp; apply Hp2, Hp1].
  intros id f Hin Hf. destruct (decide (id = id0)) as [->|Hne].
  - destruct (Ha1 f Hf) as (H1 & H1' & H1'').
    destruct (Hn2 id0 H1) as [H2 H2']. split; [done|]. split; [congruence|].
    by apply Hp2.
  - apply Ha2.
    + apply elem_of_cons in Hin as [?|?]; [done|done].
    + by apply Ho1.
Qed.

Lemma all_rejected_nil m : all_rejected [] m.
Proof. intros ? ?%elem_of_nil. done. Qed.

(** Once the promise of an awaited request is rejected and the reaction
    queued, the call ends up waiting for the second of [restart()]:
    [dispose()] has run, the cache is untouched and nothing has
    returned. *)
Lemma rejection_leads_to_restart st id filePath :
  link_ok (processManager st) →
  all_rejected (jobs st) (processManager st) →
  id ∈ jobs st →
  awaiting st !! id = Some filePath →
  let st1 := drain st in
  restarting st1 !! id = Some filePath
  ∧ awaiting st1 !! id = None
  ∧ Link.pythonProcess (processManager st1) = None
  ∧ cache st1 = cache st ∧ disk st1 = disk st ∧ returned st1 = returned st
  ∧ link_ok (processManager st1).
Proof.
  intros Hok Hjobs Hin Haw st1. unfold st1, drain.
  destruct (rejections_run (jobs st) (set_jobs [] st) Hok Hjobs (all_rejected_nil _))
    as (Hok1 & Hjobs1 & Hc1 & Hd1 & Hr1 & Hk1 & Hn1 & Ha1 & Hp1).
  fold (run_jobs st) in *.
  destruct (Ha1 id filePath Hin Haw) as (Haw1 & Hre1 & Hpr1).
  destruct (rejections_run (jobs (run_jobs st)) (set_jobs [] (run_jobs st))
              Hok1 Hjobs1 (all_rejected_nil _))
    as (Hok2 & Hjobs2 & Hc2 & Hd2 & Hr2 & Hk2 & Hn2 & Ha2 & Hp2).
  fold (run_jobs (run_jobs st)) in *. simpl in *.
  destruct (Hn2 id Haw1) as [Haw2 Hre2].
  split_and!; try done; try congruence.
  by apply Hp2.
Qed.

(** *** Reachable states *)

Lemma link_ok_reaction id st :
  link_ok (processManager st) → link_ok (processManager (reaction id st)).
Proof.
  intros Hok. unfold reaction. destruct (awaiting st !! id) as [f|]; [|done].
  destruct (Link.promises (processManager st) !! id) as [[result|message]|]; [done| |done].
  unfold analyzeFile_rejected. simpl. by apply link_ok_dispose.
Qed.

Lemma link_ok_reactions js st :
  link_ok (processManager st) →
  link_ok (processManager (foldl (λ st' id, reaction id st') st js)).
Proof.
  revert st. induction js as [|id js IH]; intros st Hok; simpl; [done|].
  by apply IH, link_ok_reaction.
Qed.

Lemma link_ok_drain st :
  link_ok (processManager st) → link_ok (processManager (drain st)).
Proof.
  intros Hok. unfold drain, run_jobs. apply link_ok_reactions. simpl.
  by apply link_ok_reactions.
Qed.

Lemma processManager_returns_all (l : list (string * string)) st :
  processManager (foldl (λ st' '(_, filePath), returns filePath [] st') st l)
  = processManager st.
Proof.
  revert st. induction l as [|[? f] l IH]; intros st; simpl; [done|]. by rewrite IH.
Qed.

Lemma link_ok_handle e st :
  link_ok (processManager st) → link_ok (processManager (handle e st)).
Proof.
  intros Hok.
  assert (∀ f w st0, link_ok (processManager st0) →
            link_ok (processManager (request f w st0))) as Hreq.
  { intros f w st0 Hok0. unfold request.
    destruct (_ || _); simpl; by apply link_ok_analyzeFile. }
  destruct e as [f w|c lines|c|c|h|id ok|f|f|fo|f m|f|b|f w|]; simpl; try done;
    [| | | | | | |by apply Hreq|by apply link_ok_dispose].
  - unfold analyzeFile. destruct (Cache.get _ _ _) as [[cached|] c0]; [done|].
    by apply Hreq.
  - destruct (Link.is_child _ _); [|done]. unfold stdout.
    destruct (negb _ && _); simpl; [|by apply link_ok_processOutput].
    rewrite processManager_returns_all. simpl. by apply link_ok_processOutput.
  - destruct (Link.is_child _ _); [|done]. simpl. by apply link_ok_cleanup.
  - destruct (Link.is_child _ _); [|done]. simpl. by apply link_ok_cleanup.
  - by apply link_ok_timeoutFires.
  - unfold restart_elapsed. destruct (restarting st !! id); [|done]. simpl.
    pose proof (link_ok_start ok _ Hok) as Hs.
    destruct (Link.start ok (processManager st)) as [[|] m]; simpl in *; [done|].
    by destruct (Link.readyPromise m).
  - unfold clearCache. by destruct (truthy fo).
Qed.

(** No call is in the [try] or the [catch] block before the manager has
    received a ready signal, and none ever waits for [start()]: a call
    that enters [restart()] had made a request, so [readyPromise] was
    resolved. *)
Record calm (st : t) : Prop := {
  none_starting : starting st = ∅;
  idle_awaiting : Link.readyPromise (processManager st) = false → awaiting st = ∅;
  idle_restarting : Link.readyPromise (processManager st) = false → restarting st = ∅
}.

Lemma calm_kept st st' :
  calm st →
  starting st' = starting st → awaiting st' = awaiting st →
  restarting st' = restarting st →
  (Link.readyPromise (processManager st) = true →
   Link.readyPromise (processManager st') = true) →
  calm st'.
Proof.
  intros [Hs Ha Hr] Hs' Ha' Hr' Hres.
  assert (Link.readyPromise (processManager st') = false →
          Link.readyPromise (processManager st) = false) as Hback.
  { intros H. destruct (Link.readyPromise (processManager st)); [|done].
    by rewrite Hres in H. }
  split; [congruence| |]; intros H%Hback; [rewrite Ha'|rewrite Hr']; auto.
Qed.

Lemma calm_busy st :
  starting st = ∅ → Link.readyPromise (processManager st) = true → calm st.
Proof. intros Hs Hres. split; [done|congruence..]. Qed.

Lemma awaiting_resolved st id filePath :
  calm st → awaiting st !! id = Some filePath →
  Link.readyPromise (processManager st) = true.
Proof.
  intros Hc Hid. destruct (Link.readyPromise (processManager st)) eqn:E; [done|].
  by rewrite (idle_awaiting st Hc E) in Hid.
Qed.

Lemma restarting_resolved st id filePath :
  calm st → restarting st !! id = Some filePath →
  Link.readyPromise (processManager st) = true.
Proof.
  intros Hc Hid. destruct (Link.readyPromise (processManager st)) eqn:E; [done|].
  by rewrite (idle_restarting st Hc E) in Hid.
Qed.

Lemma starting_returns_all (l : list (string * string)) st :
  starting (foldl (λ st' '(_, filePath), returns filePath [] st') st l) = starting st.
Proof.
  revert st. induction l as [|[? f] l IH]; intros st; simpl; [done|]. by rewrite IH.
Qed.

Lemma readyPromise_processOutput c lines m :
  Link.readyPromise m = true → Link.readyPromise (Link.processOutput c lines m) = true.
Proof.
  intros Hres. pose proof (readyPromise_step_keeps (Link.Stdout c lines) m Hres) as H.
  simpl in H. destruct (Link.is_child c m); [done|].
  unfold Link.processOutput. rewrite Hres. simpl.
  clear -Hres. revert m Hres.
  induction lines as [|l lines IH]; intros m Hres; simpl; [done|]. apply IH.
  destruct l as [| |response]; simpl; [done..|]. case_bool_decide; [done|].
  by rewrite LF.readyPromise_handleResponse.
Qed.

Lemma calm_request f w st : link_ok (processManager st) → calm st → calm (request f w st).
Proof.
  intros Hok Hc. unfold request.
  destruct (Link.isReady (processManager st) || Link.readyPromise (processManager st))
    eqn:Hr.
  - assert (Link.readyPromise (processManager st) = true) as Hres.
    { destruct (Link.isReady (processManager st)) eqn:Hi; [|done].
      by apply (LF.ready_resolved _ (LF.gate _ (link_gated _ Hok))). }
    apply calm_busy; simpl; [apply Hc|].
    by apply (readyPromise_step_keeps (Link.AnalyzeFile f w)).
  - apply (calm_kept st); try done. simpl.
    by apply (readyPromise_step_keeps (Link.AnalyzeFile f w)).
Qed.

Lemma calm_handle e st : link_ok (processManager st) → calm st → calm (handle e st).
Proof.
  intros Hok Hc.
  destruct e as [f w|c lines|c|c|h|id ok|f|f|fo|f m|f|b|f w|]; simpl;
    try (by apply (calm_kept st)).
  - unfold analyzeFile. destruct (Cache.get _ _ _) as [[cached|] c0].
    + by apply (calm_kept st).
    + apply calm_request; [done|]. by apply (calm_kept st).
  - destruct (Link.is_child c (processManager st)); [|done]. unfold stdout.
    destruct (negb _ && _) eqn:Hfirst.
    + apply andb_true_iff in Hfirst as [_ Hres1].
      apply calm_busy.
      * by rewrite starting_returns_all.
      * rewrite processManager_returns_all. simpl.
        unfold Link.processOutput.
        destruct (negb _ && _); [|done].
        unfold Link.release. by rewrite LF.readyPromise_released.
    + apply (calm_kept st); try done. simpl. apply readyPromise_processOutput.
  - destruct (Link.is_child c (processManager st)); [|done]. by apply (calm_kept st).
  - destruct (Link.is_child c (processManager st)); [|done]. by apply (calm_kept st).
  - apply (calm_kept st); try done. simpl.
    apply (readyPromise_step_keeps (Link.TimeoutFires h)).
  - unfold restart_elapsed. destruct (restarting st !! id) as [f|] eqn:E; [|done].
    pose proof (restarting_resolved st id f Hc E) as Hres.
    pose proof (readyPromise_step_keeps (Link.Start ok) _ Hres) as Hres'. simpl in *.
    destruct (Link.start ok (processManager st)) as [[|] m]; simpl in *.
    + apply calm_busy; simpl; [apply Hc|done].
    + rewrite Hres'. apply calm_busy; simpl; [apply Hc|done].
  - unfold clearCache. destruct (truthy fo); by apply (calm_kept st).
  - by apply calm_request.
  - apply (calm_kept st); try done. simpl.
    apply (readyPromise_step_keeps Link.Dispose).
Qed.

Lemma calm_reaction id st : calm st → calm (reaction id st).
Proof.
  intros Hc. unfold reaction. destruct (awaiting st !! id) as [f|] eqn:Haw; [|done].
  pose proof (awaiting_resolved st id f Hc Haw) as Hres.
  destruct (Link.promises (processManager st) !! id) as [[result|message]|]; [| |done].
  - apply calm_busy; simpl; [apply Hc|done].
  - apply calm_busy; simpl; [apply Hc|].
    by apply (readyPromise_step_keeps Link.Dispose).
Qed.

Lemma calm_drain st : calm st → calm (drain st).
Proof.
  assert (∀ js st0, calm st0 → calm (foldl (λ st' id, reaction id st') st0 js)) as Hfold.
  { induction js as [|id js IH]; intros st0 Hc; simpl; [done|].
    by apply IH, calm_reaction. }
  assert (∀ st0, calm st0 → calm (run_jobs st0)) as Hrun.
  { intros st0 Hc0. unfold run_jobs. apply Hfold. by apply (calm_kept st0). }
  intros Hc. unfold drain. by apply Hrun, Hrun.
Qed.

(** In a reachable state the manager is consistent, no reaction is
    waiting to run, and the calls are where [calm] says. *)
Record analyzer_ok (st : t) : Prop := {
  manager_ok : link_ok (processManager st);
  no_job : jobs st = [];
  at_rest : calm st
}.

Lemma reachable_analyzer_ok st : reachable st → analyzer_ok st.
Proof.
  induction 1 as [m c d Hm|e st Hr [Hok Hj Hcalm]].
  - split; [by apply link_ok_reachable|done|by split].
  - split; [by apply link_ok_drain, link_ok_handle|apply step_leaves_no_job|].
    by apply calm_drain, calm_handle.
Qed.

Lemma reachable_warm c d : reachable (initialized c d).
Proof. apply reachable_initialized, reachable_initialized_manager. Qed.

Lemma analyzer_reachable_run es st : reachable st → reachable (run es st).
Proof.
  revert st. induction es as [|e es IH]; intros st Hr; simpl; [done|].
  apply IH. by constructor.
Qed.

(** *** The ways a request in flight fails *)

Inductive fails (st : t) (id : string) : Event → Prop :=
| fails_timeout : fails st id (TimeoutFires id)
| fails_exit c :
    Link.is_child c (processManager st) = true → fails st id (ChildExit c)
| fails_error c :
    Link.is_child c (processManager st) = true → fails st id (ChildError c)
| fails_response c response :
    Link.is_child c (processManager st) = true →
    Link.rsp_id response = Some id →
    Link.rsp_type response ≠ Some "ready" →
    truthy (Link.rsp_error response) = true →
    fails st id (Stdout c [Link.Message response]).

Lemma retired_promise m id v :
  LF.consistent m → is_Some (Link.pendingRequests m !! id) →
  Link.promises (LF.retired id v m) !! id = Some v.
Proof.
  intros Hc Hp. unfold LF.retired. simpl.
  rewrite LF.settle_lookup, (LF.pending_unsettled m Hc id Hp). by rewrite decide_True.
Qed.

Lemma newly_settled before after id :
  Link.promises before !! id = None → is_Some (Link.promises after !! id) →
  negb (settled before id) && settled after id = true.
Proof.
  intros Hb Ha. unfold settled.
  rewrite bool_decide_eq_false_2, bool_decide_eq_true_2; [done|done|].
  rewrite Hb. by intros [? ?].
Qed.

Lemma settled_since_one before after id :
  Link.promises before !! id = None → is_Some (Link.promises after !! id) →
  settled_since before after [id] = [id].
Proof. intros Hb Ha. unfold settled_since. simpl. by rewrite newly_settled. Qed.

(** What [cleanup()] settles is rejected, and every pending request is
    among it. *)
Lemma cleanup_rejects m :
  LF.consistent m →
  all_rejected
    (settled_since m (Link.cleanup m) (map_to_list (Link.pendingRequests m)).*1)
    (Link.cleanup m).
Proof.
  intros Hc id (_ & Hb & Ha)%settled_since_spec.
  rewrite LF.cleanup_promises, Hb in Ha by done. rewrite LF.cleanup_promises, Hb by done.
  destruct (Link.pendingRequests m !! id); [by eexists|by destruct Ha].
Qed.

Lemma cleanup_settles m id :
  LF.consistent m →
  is_Some (Link.pendingRequests m !! id) →
  id ∈ settled_since m (Link.cleanup m) (map_to_list (Link.pendingRequests m)).*1
  ∧ is_Some (Link.promises (Link.cleanup m) !! id).
Proof.
  intros Hc [request Hreq].
  pose proof (LF.pending_unsettled m Hc id (mk_is_Some _ _ Hreq)) as Hun.
  assert (is_Some (Link.promises (Link.cleanup m) !! id)) as Hs
    by (by rewrite LF.cleanup_promises, Hun, Hreq).
  split; [|done]. apply settled_since_spec. split_and!; [|done..].
  apply list_elem_of_fmap. exists (id, request). split; [done|].
  by apply elem_of_map_to_list.
Qed.

(** The state in which the listener that saw the failure leaves the
    analyzer, before the reactions run. *)
Lemma failure_is_queued st id filePath request e :
  analyzer_ok st →
  awaiting st !! id = Some filePath →
  Link.pendingRequests (processManager st) !! id = Some request →
  fails st id e →
  link_ok (processManager (handle e st))
  ∧ all_rejected (jobs (handle e st)) (processManager (handle e st))
  ∧ id ∈ jobs (handle e st)
  ∧ awaiting (handle e st) !! id = Some filePath
  ∧ cache (handle e st) = cache st
  ∧ disk (handle e st) = disk st
  ∧ returned (handle e st) = returned st
  ∧ restarting (handle e st) = restarting st.
Proof.
  intros [Hok Hj] Haw Hreq Hfail.
  pose proof (link_ok_handle e st Hok) as Hok'.
  pose proof (link_consistent _ Hok) as Hc.
  assert (is_Some (Link.pendingRequests (processManager st) !! id)) as Hpend
    by (by rewrite Hreq).
  pose proof (LF.pending_unsettled _ Hc id Hpend) as Hunsettled.
  split; [done|]. clear Hok'.
  destruct Hfail as [|c Hchild|c Hchild|c response Hchild Hid Hty Herr]; simpl.
  - destruct (LF.pending_armed _ Hc id Hpend) as [f' Hf'].
    unfold timed_out, enqueue. simpl. rewrite Hj. simpl.
    rewrite (LF.timeoutFires_armed id f') by done.
    rewrite newly_settled; [|done|by rewrite retired_promise].
    split_and!; try done.
    + intros ? ->%list_elem_of_singleton. eexists. by apply retired_promise.
    + by apply list_elem_of_singleton.
  - rewrite Hchild. unfold exited, enqueue. simpl. rewrite Hj. simpl.
    split_and!; try done; [by apply cleanup_rejects|by apply cleanup_settles].
  - rewrite Hchild. unfold exited, enqueue. simpl. rewrite Hj. simpl.
    split_and!; try done; [by apply cleanup_rejects|by apply cleanup_settles].
  - rewrite Hchild. unfold stdout. rewrite (pending_resolved _ id Hok Hpend). simpl.
    rewrite Hj. simpl. rewrite bool_decide_eq_false_2 by done.
    rewrite LF.processOutput_response by done.
    rewrite (LF.handleResponse_cases response _ Hc), Hid, Hreq.
    unfold LF.outcome. rewrite Herr. simpl.
    rewrite newly_settled; [|done|by rewrite retired_promise].
    split_and!; try done.
    + intros ? ->%list_elem_of_singleton. eexists. by apply retired_promise.
    + by apply list_elem_of_singleton.
Qed.

(** *** Calls in flight *)

(** Every suspended call of [awaiting] waits for a request that is
    pending, or for one that is settled and whose reaction is about to
    run ([rest]) or queued. *)
Definition tracked (rest : list string) (st : t) : Prop :=
  ∀ id filePath,
    awaiting st !! id = Some filePath →
    is_Some (Link.pendingRequests (processManager st) !! id)
    ∨ ((id ∈ rest ∨ id ∈ jobs st) ∧ is_Some (Link.promises (processManager st) !! id)).

Lemma tracked_reaction id0 rest st :
  link_ok (processManager st) →
  tracked (id0 :: rest) st → tracked rest (reaction id0 st).
Proof.
  intros Hok Htr. pose proof (link_consistent _ Hok) as Hc.
  unfold reaction. destruct (awaiting st !! id0) as [f0|] eqn:Haw0.
  - destruct (Link.promises (processManager st) !! id0) as [[result|message]|] eqn:Hp0.
    + intros id f. unfold analyzeFile_resolved. simpl.
      rewrite lookup_delete. case_decide as Hne; [done|]. intros Hf.
      destruct (Htr id f Hf) as [?|[[Hin|Hin] Hs]]; [by left|..].
      * apply elem_of_cons in Hin as [?|?]; [done|]. right. by split; [left|].
      * right. by split; [right|].
    + intros id f. unfold analyzeFile_rejected, enqueue. simpl.
      rewrite lookup_delete. case_decide as Hne; [done|]. intros Hf. right.
      destruct (Htr id f Hf) as [Hpend|[[Hin|Hin] Hs]].
      * pose proof (LF.pending_unsettled _ Hc id Hpend) as Hun.
        assert (is_Some (Link.promises (Link.dispose (processManager st)) !! id)) as Hs.
        { rewrite dispose_promises, Hun by done. by destruct Hpend as [? ->]. }
        split; [|done]. right. apply elem_of_app. right.
        apply settled_since_spec. split_and!; [|done..].
        destruct Hpend as [request Hreq].
        apply list_elem_of_fmap. exists (id, request). split; [done|].
        by apply elem_of_map_to_list.
      * apply elem_of_cons in Hin as [?|?]; [done|]. split; [by left|].
        destruct Hs as [v Hv]. by rewrite (dispose_keeps_promise _ _ v).
      * split; [right; apply elem_of_app; by left|].
        destruct Hs as [v Hv]. by rewrite (dispose_keeps_promise _ _ v).
    + intros id f Hf. destruct (Htr id f Hf) as [?|[[Hin|Hin] Hs]]; [by left|..].
      * apply elem_of_cons in Hin as [->|?].
        -- rewrite Hp0 in Hs. by destruct Hs.
        -- right. by split; [left|].
      * right. by split; [right|].
  - intros id f Hf. destruct (Htr id f Hf) as [?|[[Hin|Hin] Hs]]; [by left|..].
    + apply elem_of_cons in Hin as [->|?]; [congruence|]. right. by split; [left|].
    + right. by split; [right|].
Qed.

Lemma tracked_reactions js st :
  link_ok (processManager st) →
  tracked js st → tracked [] (foldl (λ st' id, reaction id st') st js).
Proof.
  revert st. induction js as [|id js IH]; intros st Hok Htr; simpl; [done|].
  apply IH; [by apply link_ok_reaction|by apply tracked_reaction].
Qed.

Lemma tracked_run_jobs st :
  link_ok (processManager st) → tracked [] st → tracked [] (run_jobs st).
Proof.
  intros Hok Htr. unfold run_jobs. apply tracked_reactions; [done|].
  intros id f Hf. destruct (Htr id f Hf) as [?|[[Hin|Hin] Hs]]; [by left|..].
  - by apply elem_of_nil in Hin.
  - right. by split; [left|].
Qed.

Lemma tracked_drain st :
  link_ok (processManager st) → tracked [] st →
  ∀ id filePath,
    awaiting (drain st) !! id = Some filePath →
    is_Some (Link.pendingRequests (processManager (drain st)) !! id).
Proof.
  intros Hok Htr id f Hf.
  assert (tracked [] (drain st)) as Hd.
  { unfold drain. apply tracked_run_jobs.
    - unfold run_jobs. by apply link_ok_reactions.
    - by apply tracked_run_jobs. }
  destruct (Hd id f Hf) as [?|[[Hin|Hin] _]]; [done|..].
  - by apply elem_of_nil in Hin.
  - rewrite drain_leaves_no_job in Hin. by apply elem_of_nil in Hin.
Qed.

Lemma lines_track c lines m id :
  LF.consistent m →
  is_Some (Link.pendingRequests m !! id) →
  is_Some (Link.pendingRequests (foldl (λ m' l, Link.processLine c l m') m lines) !! id)
  ∨ (id ∈ settled_by_lines c lines m
     ∧ is_Some (Link.promises (foldl (λ m' l, Link.processLine c l m') m lines) !! id)).
Proof.
  revert m. induction lines as [|l lines IH]; intros m Hc Hpend; simpl; [by left|].
  pose proof (LF.consistent_processLine c l m Hc) as Hc'.
  destruct (decide (is_Some (Link.pendingRequests (Link.processLine c l m) !! id)))
    as [Hstill|Hgone].
  - destruct (IH _ Hc' Hstill) as [?|[Hin Hs]]; [by left|].
    right. split; [|done]. apply elem_of_app. by right.
  - right.
    assert (∃ response, l = Link.Message response
                        ∧ Link.rsp_type response ≠ Some "ready"
                        ∧ Link.rsp_id response = Some id) as (response & -> & Hty & Hid).
    { destruct l as [| |response]; simpl in Hgone; [done..|].
      case_bool_decide as Hty; [done|]. exists response. split_and!; [done..|].
      rewrite (LF.handleResponse_cases response m Hc) in Hgone.
      destruct (Link.rsp_id response) as [id'|]; [|done].
      destruct (decide (id' = id)) as [->|Hne]; [done|].
      destruct (Link.pendingRequests m !! id'); [|done].
      unfold LF.retired in Hgone. simpl in Hgone.
      by rewrite lookup_delete_ne in Hgone. }
    destruct Hpend as [request Hreq].
    assert (Link.processLine c (Link.Message response) m
            = LF.retired id (LF.outcome response) m) as Hline.
    { simpl. rewrite bool_decide_eq_false_2 by done.
      by rewrite (LF.handleResponse_cases response m Hc), Hid, Hreq. }
    assert (Link.promises (Link.processLine c (Link.Message response) m) !! id
            = Some (LF.outcome response)) as Hset.
    { rewrite Hline. apply retired_promise; [done|by rewrite Hreq]. }
    split.
    + apply elem_of_app. left. apply settled_since_spec. split_and!.
      * rewrite Hid. by apply list_elem_of_singleton.
      * apply (LF.pending_unsettled m Hc). by rewrite Hreq.
      * by rewrite Hset.
    + by rewrite (LF.promises_lines_keep c lines _ id _ Hset).
Qed.

Lemma send_tracks filePath w m id :
  LF.consistent m →
  is_Some (Link.pendingRequests m !! id) →
  is_Some (Link.pendingRequests (Link.send filePath w m) !! id).
Proof.
  intros Hc Hpend. pose proof (LF.fresh_id m Hc) as Hfresh.
  assert (id ≠ Link.request_id (S (Link.messageId m))) as Hne.
  { intros ->. destruct (LF.pending_called m _ Hc Hpend) as [? ?]. congruence. }
  unfold Link.send. simpl. destruct (Link.pythonProcess m); [destruct w|]; simpl.
  - rewrite lookup_delete_ne by done. by rewrite lookup_insert_ne.
  - by rewrite lookup_insert_ne.
  - by rewrite lookup_insert_ne.
Qed.

Lemma send_registers filePath w m :
  LF.consistent m →
  let id := Link.request_id (S (Link.messageId m)) in
  Link.promises m !! id = None
  ∧ (is_Some (Link.pendingRequests (Link.send filePath w m) !! id)
     ∨ is_Some (Link.promises (Link.send filePath w m) !! id)).
Proof.
  intros Hc id. pose proof (LF.fresh_id m Hc) as Hfresh.
  assert (Link.promises m !! id = None) as Hnone.
  { destruct (Link.promises m !! id) eqn:E; [|done].
    destruct (LF.settled_called m Hc _ (mk_is_Some _ _ E)) as [? ?].
    unfold id in *. congruence. }
  split; [done|]. unfold Link.send. simpl. fold id.
  destruct (Link.pythonProcess m); [destruct w|]; simpl.
  - right. rewrite LF.settle_lookup, Hnone. by rewrite decide_True.
  - left. by rewrite lookup_insert_eq.
  - left. by rewrite lookup_insert_eq.
Qed.

Definition quiet (st : t) : Prop :=
  ∀ id filePath,
    awaiting st !! id = Some filePath →
    is_Some (Link.pendingRequests (processManager st) !! id).

Lemma pending_released ws m id :
  LF.consistent m → is_Some (Link.pendingRequests m !! id) →
  is_Some (Link.pendingRequests
             (foldl (λ s' '(filePath, write_error), Link.send filePath write_error s')
                m ws) !! id).
Proof.
  revert m. induction ws as [|[g w] ws IH]; intros m Hc Hid; simpl; [done|].
  apply IH; [by apply LF.consistent_send|by apply send_tracks].
Qed.

Lemma calls_send filePath w m :
  Link.calls (Link.send filePath w m) !! Link.request_id (S (Link.messageId m))
  = Some filePath.
Proof.
  unfold Link.send. simpl.
  destruct (Link.pythonProcess m); [destruct w|]; simpl; by rewrite lookup_insert_eq.
Qed.

(** What the release of the suspended calls does for each of them: the
    call gets the id that [released] says, for its own file, and its
    request is pending or already settled. *)
Lemma released_registered ws m id f :
  LF.consistent m →
  (id, f) ∈ released (Link.messageId m) ws →
  let m' := foldl (λ s' '(filePath, write_error), Link.send filePath write_error s')
              m ws in
  Link.calls m' !! id = Some f
  ∧ Link.promises m !! id = None
  ∧ (is_Some (Link.pendingRequests m' !! id) ∨ is_Some (Link.promises m' !! id)).
Proof.
  revert m. induction ws as [|[g w] ws IH]; intros m Hc Hin; simpl in *.
  - by apply elem_of_nil in Hin.
  - pose proof (LF.consistent_send g w m Hc) as Hc2.
    apply elem_of_cons in Hin as [[= -> ->]|Hin].
    + destruct (send_registers g w m Hc) as [Hnone Hreg]. split_and!; [|done|].
      * apply LF.calls_released_keep; [done|apply calls_send].
      * destruct Hreg as [Hp|[v Hv]]; [left; by apply pending_released|right].
        exists v. by apply LF.promises_release_fold_keeps.
    + rewrite <- (LF.messageId_send g w m) in Hin.
      destruct (IH (Link.send g w m) Hc2 Hin) as (H1 & H2 & H3).
      split_and!; [done| |done].
      destruct (Link.promises m !! id) as [v|] eqn:E; [|done].
      by rewrite (LF.promises_send_keeps g w m id v E) in H2.
Qed.

Lemma awaiting_returns_all (l : list (string * string)) st :
  awaiting (foldl (λ st' '(_, filePath), returns filePath [] st') st l) = awaiting st
  ∧ jobs (foldl (λ st' '(_, filePath), returns filePath [] st') st l) = jobs st
  ∧ restarting (foldl (λ st' '(_, filePath), returns filePath [] st') st l)
    = restarting st.
Proof.
  revert st. induction l as [|[k f] l IH]; intros st; simpl; [done|].
  destruct (IH (returns f [] st)) as (-> & -> & ->). done.
Qed.

(** The listener of stdout while [readyPromise] is resolved. *)
Lemma stdout_resolved c lines st :
  Link.readyPromise (processManager st) = true →
  stdout c lines st
  = set_jobs (jobs st ++ settled_by_lines c lines (processManager st))
      (set_processManager
         (foldl (λ m' l, Link.processLine c l m') (processManager st) lines) st).
Proof.
  intros Hres. unfold stdout, Link.processOutput. by rewrite Hres.
Qed.

(** The listener of stdout before the first ready signal: no request has
    been made, so the lines settle nothing; if one of them is the ready
    signal, the calls the manager had suspended make their requests. *)
Lemma stdout_unresolved c lines st :
  analyzer_ok st →
  Link.readyPromise (processManager st) = false →
  let m1 := foldl (λ m' l, Link.processLine c l m') (processManager st) lines in
  stdout c lines st
  = if Link.readyPromise m1
    then
      let adopted := released (Link.messageId m1) (Link.awaitingReady m1) in
      mk (Link.release m1) (cache st) (disk st) (list_to_map adopted) ∅ ∅
         (settled_since m1 (Link.release m1) adopted.*1) (returned st)
    else
      mk m1 (cache st) (disk st) ∅ ∅ ∅ [] (returned st).
Proof.
  intros [Hok Hj [Hs Ha Hr]] Hres m1.
  assert (settled_by_lines c lines (processManager st) = []) as Hnone.
  { pose proof (link_consistent _ Hok) as Hc.
    assert (Link.pendingRequests (processManager st) = ∅) as Hp.
    { apply map_eq. intros id. rewrite lookup_empty.
      destruct (Link.pendingRequests (processManager st) !! id) eqn:E; [|done].
      by rewrite (pending_resolved _ id Hok (mk_is_Some _ _ E)) in Hres. }
    clear -Hc Hp. revert Hc Hp. generalize (processManager st).
    induction lines as [|l lines IH]; intros m Hc Hp; simpl; [done|].
    assert (Link.promises (Link.processLine c l m) = Link.promises m
            ∧ Link.pendingRequests (Link.processLine c l m) = ∅) as [Hsame Hp'].
    { destruct l as [| |response]; simpl; [done..|]. case_bool_decide; [done|].
      rewrite LF.handleResponse_unmatched; [done|]. intros id _. by rewrite Hp. }
    rewrite IH; [|by apply LF.consistent_processLine|done]. rewrite app_nil_r.
    unfold settled_since, settled. rewrite Hsame.
    destruct l as [| |response]; [done..|]. simpl.
    destruct (Link.rsp_id response) as [id|]; [|done]. simpl.
    by destruct (bool_decide (is_Some (Link.promises m !! id))). }
  pose proof (Ha Hres) as Ha'. pose proof (Hr Hres) as Hr'.
  unfold stdout, Link.processOutput. fold m1. rewrite Hres, Hnone, Hj. simpl.
  destruct (Link.readyPromise m1); simpl.
  - rewrite Hs, map_to_list_empty. simpl. unfold enqueue. simpl.
    unfold set_starting. simpl. by rewrite Ha', Hr', (right_id_L ∅ (∪)).
  - unfold set_jobs. simpl. by rewrite Ha', Hr', Hs.
Qed.

Lemma tracked_request f w st :
  analyzer_ok st → quiet st → tracked [] (request f w st).
Proof.
  intros [Hok Hj Hcalm] Hq. pose proof (link_consistent _ Hok) as Hc.
  unfold request.
  destruct (Link.isReady (processManager st) || Link.readyPromise (processManager st))
    eqn:Hr.
  - assert (Link.readyPromise (processManager st) = true) as Hres.
    { destruct (Link.isReady (processManager st)) eqn:Hi; [|done].
      by apply (LF.ready_resolved _ (LF.gate _ (link_gated _ Hok))). }
    unfold enqueue. simpl. rewrite Hj. simpl.
    assert (Link.analyzeFile f w (processManager st) = Link.send f w (processManager st))
      as ->.
    { unfold Link.analyzeFile. rewrite Hres. by destruct (Link.isReady _). }
    destruct (send_registers f w _ Hc) as [Hnone Hreg].
    unfold tracked. simpl. intros id g. rewrite lookup_insert. case_decide as Hid; subst.
    + intros _. destruct Hreg as [?|Hs]; [by left|]. right. split; [|done].
      right. rewrite newly_settled by done. by apply list_elem_of_singleton.
    + intros Hg. left. apply send_tracks; [done|]. by apply (Hq id g).
  - unfold tracked. simpl. intros id g Hg. left.
    apply orb_false_iff in Hr as [Hi Hres]. unfold Link.analyzeFile.
    rewrite Hi, Hres. simpl. by apply (Hq id g).
Qed.

Lemma dispose_settles m id :
  LF.consistent m →
  is_Some (Link.pendingRequests m !! id) →
  id ∈ settled_since m (Link.dispose m) (map_to_list (Link.pendingRequests m)).*1
  ∧ is_Some (Link.promises (Link.dispose m) !! id).
Proof.
  intros Hc [request Hreq].
  pose proof (LF.pending_unsettled m Hc id (mk_is_Some _ _ Hreq)) as Hun.
  assert (is_Some (Link.promises (Link.dispose m) !! id)) as Hs
    by (by rewrite dispose_promises, Hun, Hreq).
  split; [|done]. apply settled_since_spec. split_and!; [|done..].
  apply list_elem_of_fmap. exists (id, request). split; [done|].
  by apply elem_of_map_to_list.
Qed.

Lemma tracked_handle e st :
  analyzer_ok st → quiet st → tracked [] (handle e st).
Proof.
  intros Hst Hq. pose proof Hst as [Hok Hj Hcalm].
  pose proof (link_consistent _ Hok) as Hc.
  assert (tracked [] st) as Htr by (intros id f Hf; left; by apply (Hq id f)).
  destruct e as [f w|c lines|c|c|h|id0 ok|f|f|fo|f m|f|b|f w|]; simpl; try done.
  - unfold analyzeFile. destruct (Cache.get _ _ _) as [[cached|] c0]; [done|].
    apply tracked_request; [|done]. destruct Hcalm. by split; [| |split].
  - destruct (Link.is_child _ _); [|done].
    destruct (Link.readyPromise (processManager st)) eqn:Hres.
    + rewrite stdout_resolved by done.
      rewrite Hj. unfold tracked. simpl. intros id g Hg.
      destruct (lines_track c lines _ id Hc (Hq id g Hg)) as [?|[Hin Hs]]; [by left|].
      right. by split; [right|].
    + rewrite stdout_unresolved by done.
      set (m1 := foldl _ (processManager st) lines).
      destruct (Link.readyPromise m1) eqn:Hres1.
      * unfold tracked. simpl. intros id g Hg.
        apply elem_of_list_to_map_2 in Hg.
        assert (LF.consistent (Link.set_awaitingReady [] m1)) as Hc1.
        { pose proof (LF.consistent_lines c lines _ Hc) as [? ? ? ? ? ?]. by split. }
        destruct (released_registered (Link.awaitingReady m1)
                    (Link.set_awaitingReady [] m1) id g Hc1 Hg) as (_ & Hnone & Hreg).
        fold (Link.release m1) in Hreg. simpl in Hnone.
        destruct Hreg as [?|Hs]; [by left|]. right. split; [|done]. right.
        apply settled_since_spec. split_and!; [|done..].
        apply list_elem_of_fmap. by exists (id, g).
      * unfold tracked. simpl. intros id g. by rewrite lookup_empty.
  - destruct (Link.is_child _ _); [|done]. unfold exited, enqueue. simpl.
    rewrite Hj. unfold tracked. simpl. intros id g Hg. right.
    destruct (cleanup_settles _ id Hc (Hq id g Hg)) as [Hin Hs]. by split; [right|].
  - destruct (Link.is_child _ _); [|done]. unfold exited, enqueue. simpl.
    rewrite Hj. unfold tracked. simpl. intros id g Hg. right.
    destruct (cleanup_settles _ id Hc (Hq id g Hg)) as [Hin Hs]. by split; [right|].
  - unfold timed_out, enqueue. simpl. rewrite Hj. unfold tracked. simpl. intros id g Hg.
    destruct (Link.timers (processManager st) !! h) as [f'|] eqn:Hh.
    + rewrite (LF.timeoutFires_armed h f') by done.
      destruct (decide (id = h)) as [->|Hne].
      * right. pose proof (Hq h g Hg) as Hpend.
        rewrite newly_settled;
          [|by apply (LF.pending_unsettled _ Hc)|by rewrite retired_promise].
        split; [right; by apply list_elem_of_singleton|by rewrite retired_promise].
      * left. unfold LF.retired. simpl. rewrite lookup_delete_ne by done.
        by apply (Hq id g).
    + left. unfold Link.timeoutFires. rewrite Hh. by apply (Hq id g).
  - unfold restart_elapsed. destruct (restarting st !! id0); [|done]. simpl.
    assert (Link.pendingRequests (Link.start ok (processManager st)).2
            = Link.pendingRequests (processManager st)) as Hsame.
    { unfold Link.start. destruct (Link.pythonProcess _); [done|]. by destruct ok. }
    destruct (Link.start ok (processManager st)) as [[|] m]; simpl in *.
    + unfold tracked. simpl. intros id g Hg. left. rewrite Hsame. by apply (Hq id g).
    + destruct (Link.readyPromise m); unfold tracked; simpl; intros id g Hg; left;
        rewrite Hsame; by apply (Hq id g).
  - unfold clearCache. by destruct (truthy fo).
  - by apply tracked_request.
  - unfold dispose, enqueue. simpl.
    rewrite Hj. unfold tracked. simpl. intros id g Hg. right.
    destruct (dispose_settles _ id Hc (Hq id g Hg)) as [Hin Hs]. by split; [right|].
Qed.

(** In a reachable state every call of [awaiting] waits for a request
    that is pending in the manager. *)
Lemma reachable_quiet st : reachable st → quiet st.
Proof.
  induction 1 as [m c d Hm|e st Hr IH].
  - intros id f. simpl. by rewrite lookup_empty.
  - pose proof (reachable_analyzer_ok st Hr) as Hok. unfold step.
    intros id f. apply tracked_drain.
    + apply link_ok_handle, Hok.
    + by apply tracked_handle.
Qed.







(** The executor settles a promise only by rejecting it. *)
Lemma released_rejects ws m id v :
  Link.promises
    (foldl (λ s' '(filePath, write_error), Link.send filePath write_error s') m ws) !! id
  = Some v →
  Link.promises m !! id = Some v ∨ ∃ error, v = Link.Rejected error.
Proof.
  revert m. induction ws as [|[g w] ws IH]; intros m H; simpl in *; [by left|].
  apply IH in H as [H|?]; [|by right].
  unfold Link.send in H. simpl in H.
  destruct (Link.pythonProcess m); [destruct w as [error|]|]; simpl in H; try by left.
  rewrite LF.settle_lookup in H. destruct (Link.promises m !! id) eqn:E; [by left|].
  case_decide; [|done]. injection H as <-. right. by eexists.
Qed.

Lemma released_keys n ws :
  (released n ws).*1 = Link.request_id <$> seq (S n) (length ws).
Proof.
  revert n. induction ws as [|[g w] ws IH]; intros n; simpl; [done|]. by rewrite IH.
Qed.

Lemma released_NoDup n ws : NoDup (released n ws).*1.
Proof.
  rewrite released_keys. apply NoDup_fmap_2; [|apply NoDup_seq].
  intros a b. apply LF.request_id_inj.
Qed.


(** The second of [restart()] is over: [start()] is called and the call
    returns the empty array. *)
Lemma restart_returns_empty st id filePath spawn_ok :
  analyzer_ok st →
  restarting st !! id = Some filePath →
  step (RestartElapsed id spawn_ok) st =
    returns filePath []
      (set_processManager (Link.start spawn_ok (processManager st)).2
         (set_restarting (delete id (restarting st)) st)).
Proof.
  intros [Hok Hj Hcalm] Hre. unfold step. simpl. unfold restart_elapsed. rewrite Hre.
  simpl.
  pose proof (readyPromise_step_keeps (Link.Start spawn_ok) _
                (restarting_resolved st id filePath Hcalm Hre)) as Hres. simpl in Hres.
  destruct (Link.start spawn_ok (processManager st)) as [[|] m]; simpl in *.
  - by apply drain_idle.
  - rewrite Hres. by apply drain_idle.
Qed.


(** *** Scenarios *)

(** [/p/a.py] and [/p/b.py] exist; the snapshot read at start-up has an
    entry for [/p/a.py] that is older than the file. *)
Definition disk0 : Disk := mkDisk {[ "/p/a.py" := 10%Z; "/p/b.py" := 5%Z ]} true.

Definition stale_snapshot : ProjectIndex :=
  mkProjectIndex {[ "/p/a.py" := mkEntry [] 1%Z ]} ∅ 0%Z.

Definition warm : t := initialized (Cache.loadCache (Some stale_snapshot)) disk0.

(** A call for [/p/a.py] is waiting for the answer to [req_1]. *)
Definition in_flight : t := step (AnalyzeFile "/p/a.py" None) warm.

Lemma reachable_in_flight : reachable in_flight.
Proof. apply reachable_step, reachable_warm. Qed.

(** The relation of the specification's scenario, as the worker sends
    it. *)
Definition dog : RawOverride :=
  mkRawOverride None (Some "Dog") (Some "speak") (Some 5%Z) None (Some "child_override")
    (Some "Animal") None (Some "/p/b.py") (Some 2%Z) None None None None None None.



(** The scenario of the specification: the request for [/p/a.py] times
    out, and a second later the call has returned the empty array; the
    file has no entry in the cache and no dependency row. *)
Example timeout_scenario :
  let st := run [TimeoutFires "req_1"; RestartElapsed "req_1" true] in_flight in
  returned st = [("/p/a.py", [])]
  ∧ files (Cache.projectIndex (cache st)) !! "/p/a.py" = None
  ∧ dependencies (Cache.projectIndex (cache st)) !! "/p/a.py" = None
  ∧ Link.pythonProcess (processManager st) = Some 2.
Proof. vm_compute. done. Qed.

(** *** Cache hits *)




Lemma files_after_store d filePath ovs c m :
  mtime d !! filePath = Some m →
  files (Cache.projectIndex
           (Cache.setDependencies d filePath (deps_of ovs) (Cache.set d filePath ovs c)))
    !! filePath = Some (mkEntry ovs m).
Proof.
  intros Hm. unfold Cache.setDependencies, Cache.set. rewrite Hm.
  rewrite !IntelligentCacheFacts.persistCache_projectIndex. simpl.
  rewrite !IntelligentCacheFacts.persistCache_projectIndex. simpl.
  by rewrite lookup_insert_eq.
Qed.

Lemma reaction_resolved id filePath result st :
  awaiting st !! id = Some filePath →
  Link.promises (processManager st) !! id = Some (Link.Resolved result) →
  reaction id st = analyzeFile_resolved id filePath result st.
Proof. intros H1 H2. unfold reaction. by rewrite H1, H2. Qed.

(** A successful answer: the call stores the result and returns it. *)
Lemma success_is_stored st id filePath request c response :
  analyzer_ok st →
  awaiting st !! id = Some filePath →
  Link.pendingRequests (processManager st) !! id = Some request →
  Link.is_child c (processManager st) = true →
  Link.rsp_id response = Some id →
  Link.rsp_type response ≠ Some "ready" →
  truthy (Link.rsp_error response) = false →
  let ovs := normalize <$> default [] (Link.rsp_result response) in
  step (Stdout c [Link.Message response]) st =
    analyzeFile_resolved id filePath (default [] (Link.rsp_result response))
      (set_processManager
         (LF.retired id (Link.Resolved (default [] (Link.rsp_result response)))
            (processManager st)) st).
Proof.
  intros [Hok Hj] Haw Hreq Hchild Hid Hty Herr ovs.
  pose proof (link_consistent _ Hok) as Hc.
  assert (is_Some (Link.pendingRequests (processManager st) !! id)) as Hpend
    by (by rewrite Hreq).
  pose proof (LF.pending_unsettled _ Hc id Hpend) as Hunsettled.
  unfold step. simpl. rewrite Hchild. unfold stdout.
  rewrite (pending_resolved _ id Hok Hpend). simpl. rewrite Hj. simpl.
  rewrite bool_decide_eq_false_2 by done.
  rewrite LF.processOutput_response by done.
  rewrite (LF.handleResponse_cases response _ Hc), Hid, Hreq.
  unfold LF.outcome. rewrite Herr. simpl.
  rewrite newly_settled; [|done|by rewrite retired_promise].
  unfold drain, run_jobs. simpl.
  rewrite (reaction_resolved id filePath (default [] (Link.rsp_result response)));
    [|done|by apply retired_promise].
  simpl. destruct st; simpl in *. by subst.
Qed.

(** *** A file the cache serves *)

















(** Two calls for [/p/a.py] wait for the worker at the same time.  The
    answer to the first is stored and served to a third call; the answer
    to the second replaces it, and a fourth call, with no change on disk
    in between, returns another sequence than the third. *)
Example overlapping_calls_overwrite_the_entry :
  let first := Link.Message (Link.mkResponse None (Some "req_1") None (Some [dog])) in
  let second := Link.Message (Link.mkResponse None (Some "req_2") None (Some [])) in
  let st := run [AnalyzeFile "/p/a.py" None; AnalyzeFile "/p/a.py" None;
                 Stdout 1 [first]; AnalyzeFile "/p/a.py" None;
                 Stdout 1 [second]; AnalyzeFile "/p/a.py" None] warm in
  returned st
  = [("/p/a.py", []); ("/p/a.py", []); ("/p/a.py", [normalize dog]);
     ("/p/a.py", [normalize dog])]
  ∧ Link.log (processManager st)
    = [Link.Wrote 1 "req_2" "/p/a.py"; Link.Wrote 1 "req_1" "/p/a.py";
       Link.ReadyFrom 1; Link.Spawned 1].
Proof. vm_compute. done. Qed.

(** The scenario of the specification: the analysis of [/p/a.py] yields
    one relation whose base is in [/p/b.py]; the cache stores the entry
    with the modification time of [/p/a.py] and the dependency on
    [/p/b.py]; when [/p/b.py] is touched and the watcher reports it, the
    entry of [/p/a.py] is evicted. *)
Example dependency_scenario :
  let answer := Link.Message (Link.mkResponse None (Some "req_1") None (Some [dog])) in
  let st := step (Stdout 1 [answer]) in_flight in
  let st' := run [Touch "/p/b.py" 11%Z; FileChanged "/p/b.py"] st in
  files (Cache.projectIndex (cache st)) !! "/p/a.py"
  = Some (mkEntry [normalize dog] 10%Z)
  ∧ dependencies (Cache.projectIndex (cache st)) !! "/p/a.py" = Some ["/p/b.py"]
  ∧ files (Cache.projectIndex (cache st')) !! "/p/a.py" = None.
Proof. vm_compute. done. Qed.


End PythonOverrideAnalyzerFacts.

(** ** The worker link: timers, promises and [dispose] *)

Module PythonProcessManagerLifecycle.
Import PythonProcessManager PythonProcessManagerFacts.

(** X1.  A timeout is armed exactly for the requests that are pending, and
    the promise of a pending request is not settled: no timer outlives
    its request, and no request is left without one. *)
Theorem a_timeout_is_armed_exactly_for_a_pending_request s id :
  reachable s →
  (is_Some (timers s !! id) ↔ is_Some (pendingRequests s !! id))
  ∧ (is_Some (pendingRequests s !! id) →
     promises s !! id = None ∧ is_Some (calls s !! id)).
Proof.
  intros Hc%reachable_consistent. split; [split|].
  - intros [f Hf]. by apply (armed_pending s Hc id f).
  - apply (pending_armed s Hc).
  - intros Hp. split; [by apply (pending_unsettled s Hc)|by apply pending_called].
Qed.

Lemma a_timeout_is_armed_exactly_for_a_pending_request_witness :
  (is_Some (timers three_pending !! "req_2")
   ↔ is_Some (pendingRequests three_pending !! "req_2"))
  ∧ (is_Some (pendingRequests three_pending !! "req_2") →
     promises three_pending !! "req_2" = None
     ∧ is_Some (calls three_pending !! "req_2")).
Proof.
  apply (a_timeout_is_armed_exactly_for_a_pending_request three_pending "req_2").
  exact reachable_three_pending.
Defined.

(** X3.  Once the first ready signal has been received, every call of
    [analyzeFile] makes a request at once, whether a worker runs and has
    signalled readiness or not (after an exit, a [dispose()], a restart),
    and the request gets an identifier that was never used before, by a
    request pending or settled: no callback lowers [messageId]. *)
Theorem a_new_request_gets_an_unused_id s filePath w :
  reachable s → readyPromise s = true →
  calls s !! request_id (S (messageId s)) = None
  ∧ promises s !! request_id (S (messageId s)) = None
  ∧ pendingRequests s !! request_id (S (messageId s)) = None
  ∧ calls (analyzeFile filePath w s) !! request_id (S (messageId s)) = Some filePath
  ∧ messageId (analyzeFile filePath w s) = S (messageId s)
  ∧ ∀ e, (messageId s ≤ messageId (step e s))%nat.
Proof.
  intros Hc%reachable_consistent Hr. pose proof (fresh_id s Hc) as Hfresh.
  assert (analyzeFile filePath w s = send filePath w s) as ->.
  { unfold analyzeFile. rewrite Hr. by destruct (isReady s). }
  split_and!; [done| | | | |].
  - destruct (promises s !! _) eqn:E; [|done].
    destruct (settled_called s Hc _ (mk_is_Some _ _ E)) as [? ?]. congruence.
  - destruct (pendingRequests s !! _) eqn:E; [|done].
    destruct (pending_called s _ Hc (mk_is_Some _ _ E)) as [? ?]. congruence.
  - unfold send. simpl.
    destruct (pythonProcess s); [destruct w|]; simpl; by rewrite lookup_insert_eq.
  - apply messageId_send.
  - intros e. apply messageId_step.
Qed.

(** Three requests are pending when the worker exits; [restart()]
    disposes of the manager and starts a second worker, which has not
    signalled readiness: the next request is [req_4]. *)
Lemma a_new_request_gets_an_unused_id_witness :
  let s := run [ChildExit 1; Dispose; Start true] three_pending in
  isReady s = false
  ∧ request_id (S (messageId s)) = "req_4"
  ∧ calls s !! request_id (S (messageId s)) = None
  ∧ promises s !! request_id (S (messageId s)) = None
  ∧ pendingRequests s !! request_id (S (messageId s)) = None
  ∧ calls (analyzeFile "/p/d.py" None s) !! request_id (S (messageId s)) = Some "/p/d.py"
  ∧ messageId (analyzeFile "/p/d.py" None s) = S (messageId s)
  ∧ ∀ e, (messageId s ≤ messageId (step e s))%nat.
Proof.
  split; [vm_compute; reflexivity|]. split; [vm_compute; reflexivity|].
  apply (a_new_request_gets_an_unused_id
           (run [ChildExit 1; Dispose; Start true] three_pending) "/p/d.py" None).
  - apply reachable_run, reachable_three_pending.
  - vm_compute. reflexivity.
Defined.

(** Request [id] has been written to a worker. *)
Definition written (id : string) (s : t) : Prop := ∃ c f, Wrote c id f ∈ log s.

Lemma written_send filePath w s id :
  written id (send filePath w s) → written id s ∨ id = request_id (S (messageId s)).
Proof.
  intros (c & f & Hin). unfold send in Hin. simpl in Hin.
  destruct (pythonProcess s) as [child|]; [destruct w as [error|]|]; simpl in Hin.
  - left. by exists c, f.
  - apply elem_of_cons in Hin as [[= <- <- <-]|Hin]; [by right|]. left. by exists c, f.
  - left. by exists c, f.
Qed.

Lemma written_released ws s id :
  consistent s → is_Some (calls s !! id) →
  written id (foldl (λ s' '(filePath, write_error), send filePath write_error s') s ws) →
  written id s.
Proof.
  revert s. induction ws as [|[g w] ws IH]; intros s Hc [f Hf] Hw; simpl in *; [done|].
  apply IH in Hw.
  - apply written_send in Hw as [?|Heq]; [done|]. subst id.
    by rewrite (fresh_id s Hc) in Hf.
  - by apply consistent_send.
  - exists f. by apply calls_send_keeps.
Qed.

Lemma log_handleResponse response s : log (handleResponse response s) = log s.
Proof.
  unfold handleResponse. destruct (rsp_id response); [|done].
  destruct (pendingRequests s !! _); [|done]. by destruct (truthy _).
Qed.

Lemma written_lines c lines s id :
  written id (foldl (λ s' l, processLine c l s') s lines) → written id s.
Proof.
  revert s. induction lines as [|l lines IH]; intros s Hw; simpl in *; [done|].
  apply IH in Hw. destruct Hw as (c' & f & Hin). exists c', f.
  destruct l as [| |response]; simpl in Hin; [done..|].
  case_bool_decide.
  - simpl in Hin. by apply elem_of_cons in Hin as [?|?].
  - by rewrite log_handleResponse in Hin.
Qed.

(** A request that has been made and not written is not written later:
    only the executor of [analyzeFile] writes, and it writes the request
    it has just made. *)
Lemma written_step e s id :
  consistent s → is_Some (calls s !! id) → written id (step e s) → written id s.
Proof.
  intros Hc Hid Hw. destruct e as [ok|c lines|c|c|g w|h|]; simpl in Hw.
  - unfold start in Hw. destruct (pythonProcess s); [done|]. destruct ok; [|done].
    destruct Hw as (c & f & Hin). exists c, f. simpl in Hin.
    by apply elem_of_cons in Hin as [?|?].
  - destruct (is_child c s); [|done]. unfold processOutput in Hw.
    destruct (negb _ && _).
    + unfold release in Hw. apply written_released in Hw.
      * by apply (written_lines c lines).
      * pose proof (consistent_lines c lines s Hc) as [? ? ? ? ? ?]. by split.
      * simpl. by rewrite calls_lines.
    + by apply (written_lines c lines).
  - by destruct (is_child c s).
  - by destruct (is_child c s).
  - unfold analyzeFile in Hw.
    assert (written id (send g w s) → written id s) as Hsend.
    { intros [?|Heq]%written_send; [done|]. subst id. destruct Hid as [f Hf].
      by rewrite (fresh_id s Hc) in Hf. }
    destruct (isReady s); [by apply Hsend|]. destruct (readyPromise s); [by apply Hsend|done].
  - unfold timeoutFires in Hw. by destruct (timers s !! h).
  - unfold dispose in Hw. destruct (pythonProcess s); [|done].
    destruct Hw as (c & f & Hin). exists c, f. simpl in Hin.
    by apply elem_of_cons in Hin as [?|?].
Qed.

Lemma written_run es s id :
  consistent s → is_Some (calls s !! id) → written id (run es s) → written id s.
Proof.
  revert s. induction es as [|e es IH]; intros s Hc Hid Hw; simpl in *; [done|].
  apply (written_step e); [done..|]. apply IH; [by apply consistent_step| |done].
  destruct Hid as [f Hf]. exists f. by apply calls_step_keeps.
Qed.

Lemma written_released_issued ws s id :
  consistent s →
  written id (foldl (λ s' '(filePath, write_error), send filePath write_error s') s ws) →
  written id s
  ∨ is_Some (calls (foldl (λ s' '(filePath, write_error), send filePath write_error s')
                      s ws) !! id).
Proof.
  revert s. induction ws as [|[g w] ws IH]; intros s Hc Hw; simpl in *; [by left|].
  destruct (IH (send g w s) (consistent_send g w s Hc) Hw) as [Hs|?]; [|by right].
  apply written_send in Hs as [?|Heq]; [by left|]. subst id. right. exists g.
  apply calls_released_keep; [by apply consistent_send|].
  unfold send. simpl.
  destruct (pythonProcess s); [destruct w|]; simpl; by rewrite lookup_insert_eq.
Qed.

(** What has been written is a request that was made. *)
Definition logged (s : t) : Prop := ∀ id, written id s → is_Some (calls s !! id).

Lemma logged_step e s : consistent s → logged s → logged (step e s).
Proof.
  intros Hc Hl id Hw.
  assert (written id s → is_Some (calls (step e s) !! id)) as Hold.
  { intros [f Hf]%Hl. exists f. by apply calls_step_keeps. }
  destruct e as [ok|c lines|c|c|g w|h|]; simpl in *.
  - apply Hold. unfold start in Hw. destruct (pythonProcess s); [done|].
    destruct ok; [|done]. destruct Hw as (c & f & Hin). exists c, f. simpl in Hin.
    by apply elem_of_cons in Hin as [?|?].
  - destruct (is_child c s); [|by apply Hl]. unfold processOutput in *.
    destruct (negb _ && _).
    + unfold release in *. apply written_released_issued in Hw as [Hw|?]; [|done|].
      * apply Hold. by apply (written_lines c lines).
      * pose proof (consistent_lines c lines s Hc) as [? ? ? ? ? ?]. by split.
    + apply Hold. by apply (written_lines c lines).
  - destruct (is_child c s); by apply Hl.
  - destruct (is_child c s); by apply Hl.
  - unfold analyzeFile in *.
    assert (written id (send g w s) → is_Some (calls (send g w s) !! id)) as Hsend.
    { intros [[f Hf]%Hl|Heq]%written_send.
      - exists f. by apply calls_send_keeps.
      - subst id. exists g. unfold send. simpl.
        destruct (pythonProcess s); [destruct w|]; simpl; by rewrite lookup_insert_eq. }
    destruct (isReady s); [by apply Hsend|].
    destruct (readyPromise s); [by apply Hsend|by apply Hl].
  - apply Hold. unfold timeoutFires in Hw. by destruct (timers s !! h).
  - apply Hold. unfold dispose in Hw. destruct (pythonProcess s); [|done].
    destruct Hw as (c & f & Hin). exists c, f. simpl in Hin.
    by apply elem_of_cons in Hin as [?|?].
Qed.

Lemma reachable_logged s : reachable s → logged s.
Proof.
  induction 1 as [|e s Hr IH].
  - intros id (c & f & Hin). by apply elem_of_nil in Hin.
  - apply logged_step; [by apply reachable_consistent|done].
Qed.

(** The events that leave request [id] pending: all but its own timeout,
    the exit or error of a child, [dispose()], and output with a line
    that carries its id. *)
Definition leaves_pending (id : string) (e : Event) : bool :=
  match e with
  | Start _ | AnalyzeFile _ _ => true
  | TimeoutFires h => bool_decide (h ≠ id)
  | Stdout _ lines =>
      forallb (λ l, match l with
                    | Message response => bool_decide (rsp_id response ≠ Some id)
                    | _ => true
                    end) lines
  | ChildError _ | ChildExit _ | Dispose => false
  end.

Lemma pending_step e s id :
  consistent s → leaves_pending id e = true →
  is_Some (pendingRequests s !! id) → is_Some (pendingRequests (step e s) !! id).
Proof.
  intros Hc He Hid. destruct e as [ok|c lines|c|c|g w|h|]; simpl in *; try done.
  - unfold start. destruct (pythonProcess s); [done|]. by destruct ok.
  - destruct (is_child c s); [|done].
    assert (consistent (foldl (λ s' l, processLine c l s') s lines)
            ∧ is_Some (pendingRequests (foldl (λ s' l, processLine c l s') s lines) !! id))
      as [Hc' Hid'].
    { clear -Hc He Hid. revert s Hc Hid.
      induction lines as [|l lines IH]; intros s Hc Hid; simpl in *; [done|].
      apply andb_true_iff in He as [Hl He].
      apply IH; [done|by apply consistent_processLine|].
      destruct l as [| |response]; simpl; [done..|].
      apply bool_decide_eq_true in Hl.
      destruct (bool_decide (rsp_type response = Some "ready")); [exact Hid|].
      rewrite (handleResponse_cases response s Hc).
      destruct (rsp_id response) as [id'|]; [|done].
      destruct (pendingRequests s !! id'); [|done]. unfold retired. simpl.
      rewrite lookup_delete_ne; [done|]. congruence. }
    unfold processOutput. destruct (negb _ && _); [|done].
    unfold release. apply PythonOverrideAnalyzerFacts.pending_released; [|done].
    destruct Hc'. by split.
  - unfold analyzeFile.
    destruct (isReady s); [by apply PythonOverrideAnalyzerFacts.send_tracks|].
    destruct (readyPromise s); [by apply PythonOverrideAnalyzerFacts.send_tracks|done].
  - apply bool_decide_eq_true in He. unfold timeoutFires.
    destruct (timers s !! h); [|done]. simpl. by rewrite lookup_delete_ne.
Qed.

Lemma pending_run es s id :
  consistent s → Forall (λ e, leaves_pending id e = true) es →
  is_Some (pendingRequests s !! id) → is_Some (pendingRequests (run es s) !! id).
Proof.
  revert s. induction es as [|e es IH]; intros s Hc Hes Hid; simpl; [done|].
  apply Forall_cons in Hes as [He Hes].
  apply IH; [by apply consistent_step|done|by apply pending_step].
Qed.

(** X4.  A request made while no worker runs ([pythonProcess] is null:
    after an exit or a [dispose()], before the restart has spawned a
    worker) is registered and its timeout armed, but it is written to no
    worker, then or later: a worker started afterwards never receives
    it.  It stays pending through everything but its own timeout, the
    exit or error of a worker, [dispose()] and a line that carries its
    id; the timeout rejects it with the timeout message, an exit, an
    error or [dispose()] with "Python process terminated". *)
Theorem a_request_without_a_worker_is_never_written s filePath w es :
  reachable s → pythonProcess s = None → readyPromise s = true →
  let id := request_id (S (messageId s)) in
  let s' := analyzeFile filePath w s in
  log s' = log s
  ∧ timers s' !! id = Some filePath
  ∧ ¬ written id (run es s')
  ∧ (Forall (λ e, leaves_pending id e = true) es →
     is_Some (pendingRequests (run es s') !! id)
     ∧ promises (run es s') !! id = None
     ∧ promises (step (TimeoutFires id) (run es s')) !! id
       = Some (Rejected ("Analysis timeout for " +:+ filePath))
     ∧ promises (step Dispose (run es s')) !! id
       = Some (Rejected "Python process terminated")
     ∧ ∀ c, is_child c (run es s') = true →
         promises (step (ChildExit c) (run es s')) !! id
         = Some (Rejected "Python process terminated")
         ∧ promises (step (ChildError c) (run es s')) !! id
           = Some (Rejected "Python process terminated")).
Proof.
  intros Hr Hp Hres id s'. pose proof (reachable_consistent s Hr) as Hc.
  assert (s' = registered filePath s) as Hs'.
  { unfold s', analyzeFile. rewrite Hres. destruct (isReady s); unfold send; simpl;
      by rewrite Hp. }
  assert (consistent s') as Hc' by (by apply consistent_analyzeFile).
  assert (calls s' !! id = Some filePath) as Hcall.
  { rewrite Hs'. unfold registered. simpl. by rewrite lookup_insert_eq. }
  assert (is_Some (pendingRequests s' !! id)) as Hpend.
  { rewrite Hs'. unfold registered. simpl. by rewrite lookup_insert_eq. }
  split_and!.
  - by rewrite Hs'.
  - rewrite Hs'. unfold registered. simpl. by rewrite lookup_insert_eq.
  - intros Hw. apply written_run in Hw; [|done|by rewrite Hcall].
    rewrite Hs' in Hw. apply (reachable_logged s Hr) in Hw as [f Hf].
    unfold id in Hf. by rewrite (fresh_id s Hc) in Hf.
  - intros Hes. set (s2 := run es s').
    assert (consistent s2) as Hc2.
    { unfold s2. clear -Hc'. revert Hc'. generalize s'.
      induction es as [|e es IH]; intros s0 Hc0; simpl; [done|].
      by apply IH, consistent_step. }
    pose proof (pending_run es s' id Hc' Hes Hpend) as Hpend2. fold s2 in Hpend2.
    pose proof (pending_unsettled s2 Hc2 id Hpend2) as Hun.
    pose proof (calls_run_keeps es s' id filePath Hc' Hcall) as Hcall2. fold s2 in Hcall2.
    assert (timers s2 !! id = Some filePath) as Htimer.
    { destruct (pending_armed s2 Hc2 id Hpend2) as [f' Hf'].
      destruct (armed_pending s2 Hc2 id f' Hf') as [_ Hcf]. congruence. }
    destruct Hpend2 as [request Hreq].
    split_and!; [by rewrite Hreq|done| | |].
    + simpl. rewrite (timeoutFires_armed id filePath) by done.
      apply PythonOverrideAnalyzerFacts.retired_promise; [done|by rewrite Hreq].
    + simpl. by rewrite PythonOverrideAnalyzerFacts.dispose_promises, Hun, Hreq.
    + intros c Hch. simpl. rewrite Hch. by rewrite cleanup_promises, Hun, Hreq.
Qed.

(** The first worker has exited.  A request is made, a second worker is
    started and signals readiness, another request is made and
    answered: [req_1] is still pending and was written to no worker. *)
Lemma a_request_without_a_worker_is_never_written_witness :
  let s := run [ChildExit 1] started in
  let es := [Start true; Stdout 2 [ready_line]; AnalyzeFile "/p/b.py" None;
             Stdout 2 [Message (mkResponse None (Some "req_2") None (Some []))]] in
  let s' := analyzeFile "/p/a.py" (Some "EPIPE") s in
  request_id (S (messageId s)) = "req_1"
  ∧ log (run es s')
    = [Wrote 2 "req_2" "/p/b.py"; ReadyFrom 2; Spawned 2; ReadyFrom 1; Spawned 1]
  ∧ log s' = log s
  ∧ timers s' !! "req_1" = Some "/p/a.py"
  ∧ ¬ written "req_1" (run es s')
  ∧ is_Some (pendingRequests (run es s') !! "req_1")
  ∧ promises (run es s') !! "req_1" = None
  ∧ promises (step (TimeoutFires "req_1") (run es s')) !! "req_1"
    = Some (Rejected ("Analysis timeout for " +:+ "/p/a.py"))
  ∧ promises (step Dispose (run es s')) !! "req_1"
    = Some (Rejected "Python process terminated")
  ∧ ∀ c, is_child c (run es s') = true →
      promises (step (ChildExit c) (run es s')) !! "req_1"
      = Some (Rejected "Python process terminated")
      ∧ promises (step (ChildError c) (run es s')) !! "req_1"
        = Some (Rejected "Python process terminated").
Proof.
  intros s es s'.
  split; [vm_compute; reflexivity|]. split; [vm_compute; reflexivity|].
  destruct (a_request_without_a_worker_is_never_written s "/p/a.py" (Some "EPIPE") es)
    as (H1 & H2 & H3 & H4).
  - unfold s, started. apply reachable_run, reachable_run, reachable_new.
  - vm_compute. reflexivity.
  - vm_compute. reflexivity.
  - split; [exact H1|]. split; [exact H2|]. split; [exact H3|]. apply H4.
    repeat constructor.
Defined.

Lemma cleanup_idle s :
  pendingRequests s = ∅ → pythonProcess s = None → isReady s = false → cleanup s = s.
Proof.
  intros Hp Hproc Hr. unfold cleanup. destruct s as [? ? ? ? ? ? ? ? ? ? ?].
  simpl in *. subst. by rewrite !map_fold_empty.
Qed.

(** X5.  [dispose()] kills the worker if there is one and fails what is
    pending, as an exit does: every pending request is rejected with
    "Python process terminated", no request and no timeout is left, the
    settled promises stay as they are; a second [dispose()] changes
    nothing. *)
Theorem dispose_fails_every_pending_request s :
  reachable s →
  pythonProcess (dispose s) = None
  ∧ isReady (dispose s) = false
  ∧ pendingRequests (dispose s) = ∅
  ∧ (∀ h, timers (dispose s) !! h = None)
  ∧ (∀ id, is_Some (pendingRequests s !! id) →
       promises (dispose s) !! id = Some (Rejected "Python process terminated"))
  ∧ (∀ id v, promises s !! id = Some v → promises (dispose s) !! id = Some v)
  ∧ log (dispose s) = match pythonProcess s with
                      | Some child => Killed child :: log s
                      | None => log s
                      end
  ∧ dispose (dispose s) = dispose s.
Proof.
  intros Hc%reachable_consistent.
  assert (∀ o, consistent (set_pythonProcess None (observe o s))) as Hc'.
  { intros o. destruct Hc. by split. }
  assert (pythonProcess (dispose s) = None) as Hproc.
  { unfold dispose. by destruct (pythonProcess s). }
  assert (isReady (dispose s) = false) as Hready.
  { unfold dispose. by destruct (pythonProcess s). }
  assert (pendingRequests (dispose s) = ∅) as Hpend.
  { unfold dispose. by destruct (pythonProcess s). }
  split_and!; try done.
  - intros h. unfold dispose. destruct (pythonProcess s); by apply cleanup_timers.
  - intros id [req Hid]. unfold dispose. destruct (pythonProcess s).
    + rewrite cleanup_promises by done. simpl.
      by rewrite (pending_unsettled s Hc id (mk_is_Some _ _ Hid)), Hid.
    + rewrite cleanup_promises by done.
      by rewrite (pending_unsettled s Hc id (mk_is_Some _ _ Hid)), Hid.
  - intros id v Hv. unfold dispose. destruct (pythonProcess s).
    + rewrite cleanup_promises by done. simpl. by rewrite Hv.
    + rewrite cleanup_promises by done. by rewrite Hv.
  - unfold dispose. by destruct (pythonProcess s).
  - unfold dispose at 1. rewrite Hproc. by apply cleanup_idle.
Qed.

Lemma dispose_fails_every_pending_request_witness :
  pythonProcess (dispose three_pending) = None
  ∧ isReady (dispose three_pending) = false
  ∧ pendingRequests (dispose three_pending) = ∅
  ∧ (∀ h, timers (dispose three_pending) !! h = None)
  ∧ (∀ id, is_Some (pendingRequests three_pending !! id) →
       promises (dispose three_pending) !! id
       = Some (Rejected "Python process terminated"))
  ∧ (∀ id v, promises three_pending !! id = Some v →
       promises (dispose three_pending) !! id = Some v)
  ∧ log (dispose three_pending) = match pythonProcess three_pending with
                                  | Some child => Killed child :: log three_pending
                                  | None => log three_pending
                                  end
  ∧ dispose (dispose three_pending) = dispose three_pending.
Proof.
  apply (dispose_fails_every_pending_request three_pending).
  exact reachable_three_pending.
Defined.

End PythonProcessManagerLifecycle.

(** ** The worker's stdout: framing *)

Module PythonProcessStdoutFacts.
Import PythonProcessManager PythonProcessStdout.

Lemma removelast_app_cons {A} (xs : list A) y ys :
  removelast (xs ++ y :: ys) = xs ++ removelast (y :: ys).
Proof. induction xs as [|x xs IH]; [done|]. simpl. rewrite IH. by destruct xs. Qed.

Lemma last_app_cons_cons {A} (xs : list A) y ys :
  last (xs ++ y :: ys) = last (y :: ys).
Proof. induction xs as [|x xs IH]; [done|]. simpl. rewrite <- IH. by destruct xs. Qed.

Lemma split_nonempty s : split s ≠ [].
Proof.
  destruct s as [|c s]; simpl; [done|].
  destruct (c =? newline)%N; [done|]. by destruct (split s).
Qed.

Lemma split_pieces s : Forall (λ piece, newline ∉ piece) (split s).
Proof.
  induction s as [|c s IH]; simpl.
  - constructor; [|done]. by intros ?%elem_of_nil.
  - destruct (N.eqb_spec c newline) as [->|Hc].
    + constructor; [|done]. by intros ?%elem_of_nil.
    + destruct (split s) as [|piece pieces]; [|inversion IH; subst]; constructor; try done.
      * intros [?|?%elem_of_nil]%elem_of_cons; done.
      * intros [?|?]%elem_of_cons; done.
Qed.

Lemma split_one s : newline ∉ s → split s = [s].
Proof.
  induction s as [|c s IH]; [done|]. intros Hs. simpl.
  destruct (N.eqb_spec c newline) as [->|Hc].
  - exfalso. apply Hs. by left.
  - rewrite IH; [done|]. intros ?. apply Hs. by right.
Qed.

Lemma split_app a b :
  split (a ++ b) =
    removelast (split a)
    ++ (default [] (last (split a)) ++ hd [] (split b)) :: tl (split b).
Proof.
  induction a as [|c a IH].
  - simpl. pose proof (split_nonempty b). by destruct (split b).
  - pose proof (split_nonempty a) as Ha. simpl.
    destruct (N.eqb_spec c newline) as [->|Hc].
    + rewrite IH. destruct (split a) as [|p ps]; [done|]. done.
    + rewrite IH. destruct (split a) as [|p [|q ps]]; [done|done|]. done.
Qed.

Lemma split_line line s :
  newline ∉ line → split (line ++ newline :: s) = line :: split s.
Proof.
  intros Hl. rewrite split_app, (split_one line Hl). simpl. by rewrite app_nil_r.
Qed.

Lemma last_split_no_newline s : newline ∉ default [] (last (split s)).
Proof.
  pose proof (split_pieces s) as H. destruct (last (split s)) as [piece|] eqn:E; simpl.
  - rewrite Forall_forall in H. apply H. by eapply last_Some_elem_of.
  - by intros ?%elem_of_nil.
Qed.

Lemma cut_anywhere outputBuffer a b :
  complete_lines outputBuffer (a ++ b)
    = complete_lines outputBuffer a ++ complete_lines (remainder outputBuffer a) b
  ∧ remainder outputBuffer (a ++ b) = remainder (remainder outputBuffer a) b.
Proof.
  unfold complete_lines, remainder.
  rewrite (assoc_L (++)), (split_app (outputBuffer ++ a) b).
  set (r := default [] (last (split (outputBuffer ++ a)))).
  rewrite (split_app r b), (split_one r) by apply last_split_no_newline.
  simpl. by rewrite removelast_app_cons, last_app_cons_cons.
Qed.

(** X6.  What the loop of [processOutput] is handed depends on the decoded
    text only, not on where it is cut: once the strings [a] and then
    [b] have been appended (each the [data.toString()] of a chunk), the
    loop has been handed the lines, and the buffer holds the rest, that
    appending the one string [a ++ b] gives.  Each chunk is decoded by
    itself: for the bytes [x] and [y] of two chunks the same holds of
    the undivided bytes [x ++ y] when their decoding is the decoding of
    [x] followed by that of [y]; chunks that cut a multi-byte character
    decode to other strings than the uncut bytes do, which is outside
    this statement. *)
Theorem lines_depend_on_the_decoded_text_only outputBuffer :
  (∀ a b,
     complete_lines outputBuffer (a ++ b)
       = complete_lines outputBuffer a ++ complete_lines (remainder outputBuffer a) b
     ∧ remainder outputBuffer (a ++ b) = remainder (remainder outputBuffer a) b)
  ∧ ∀ (toString : list Byte.byte → list N) x y,
      toString (x ++ y) = toString x ++ toString y →
      complete_lines outputBuffer (toString (x ++ y))
        = complete_lines outputBuffer (toString x)
          ++ complete_lines (remainder outputBuffer (toString x)) (toString y)
      ∧ remainder outputBuffer (toString (x ++ y))
        = remainder (remainder outputBuffer (toString x)) (toString y).
Proof.
  split; [apply cut_anywhere|]. intros toString x y ->. apply cut_anywhere.
Qed.

(** X7.  Framing neither loses nor invents a code unit: the lines handed to
    the loop, each followed by its line feed, and then the new buffer, are
    the old buffer followed by the chunk; no line and no buffer holds a
    line feed. *)
Theorem framing_loses_nothing outputBuffer output :
  flat_map (λ line, line ++ [newline]) (complete_lines outputBuffer output)
    ++ remainder outputBuffer output = outputBuffer ++ output
  ∧ Forall (λ line, newline ∉ line) (complete_lines outputBuffer output)
  ∧ newline ∉ remainder outputBuffer output.
Proof.
  unfold complete_lines, remainder. generalize (outputBuffer ++ output) as s. intros s.
  split; [|split].
  - induction s as [|c s IH]; [done|].
    pose proof (split_nonempty s) as Hs. simpl.
    destruct (N.eqb_spec c newline) as [->|Hc].
    + destruct (split s) as [|p ps] eqn:E; [done|]. simpl in *. by rewrite IH.
    + destruct (split s) as [|p [|q ps]] eqn:E; [done|..]; simpl in *; by rewrite <- IH.
  - pose proof (split_pieces s) as H. revert H. generalize (split s) as ps.
    induction ps as [|p [|q ps] IH]; intros H; simpl; [done..|].
    inversion H; subst. constructor; [done|]. by apply IH.
  - apply last_split_no_newline.
Qed.

Section Parser.
Variable JSON_parse : list N → option Response.

(** X8.  An incomplete line left in [outputBuffer] outlives the child that
    wrote it: no callback of the manager (exit, error, [dispose],
    [start]) resets the buffer, so the first complete line read
    afterwards is decoded with the leftover in front of it. *)
Theorem leftover_is_glued_to_the_next_line child line es (s : t) :
  newline ∉ outputBuffer s → newline ∉ line →
  onData JSON_parse child (line ++ [newline]) (foldl (λ s' e, control e s') s es)
  = mk (processOutput child [decode JSON_parse (outputBuffer s ++ line)]
          (PythonProcessManager.run es (manager s)))
       [].
Proof.
  intros Hb Hl.
  assert (∀ s, foldl (λ s' e, control e s') s es
               = mk (PythonProcessManager.run es (manager s)) (outputBuffer s)) as ->.
  { induction es as [|e es IH]; intros [m b]; simpl; [done|]. by rewrite IH. }
  unfold onData, complete_lines, remainder. simpl.
  rewrite (assoc_L (++)), split_line; [done|].
  intros [?|?]%elem_of_app; done.
Qed.

End Parser.

(** A manager whose first child wrote half a line and exited, and whose
    second child has been started. *)
Definition half_a_line : list N := [123; 34; 105; 100; 34; 58]%N.

(** [{"type":"ready"}] *)
Definition ready_signal : list N :=
  [123; 34; 116; 121; 112; 101; 34; 58; 34; 114; 101; 97; 100; 121; 34; 125]%N.

(** A parser that knows the ready signal only. *)
Definition parse_ready (line : list N) : option Response :=
  if bool_decide (line = ready_signal)
  then Some (mkResponse (Some "ready") None None None)
  else None.

Lemma leftover_is_glued_to_the_next_line_witness :
  onData parse_ready 2 (ready_signal ++ [newline])
    (foldl (λ s' e, control e s')
       (mk (PythonProcessManager.run [Start true] new) half_a_line)
       [ChildExit 1; Start true])
  = mk (processOutput 2 [decode parse_ready (half_a_line ++ ready_signal)]
          (PythonProcessManager.run [ChildExit 1; Start true]
             (PythonProcessManager.run [Start true] new)))
       [].
Proof.
  apply (leftover_is_glued_to_the_next_line parse_ready 2 ready_signal
           [ChildExit 1; Start true]
           (mk (PythonProcessManager.run [Start true] new) half_a_line)).
  - vm_compute. intros H. by repeat (apply elem_of_cons in H as [H|H]; [done|]);
      apply elem_of_nil in H.
  - vm_compute. intros H. by repeat (apply elem_of_cons in H as [H|H]; [done|]);
      apply elem_of_nil in H.
Defined.

(** In that run the ready signal of the second child is not recognised:
    it is read as [{"id":{"type":"ready"}], which the parser rejects. *)
Example ready_signal_after_a_leftover :
  let s := onData parse_ready 2 (ready_signal ++ [newline])
             (foldl (λ s' e, control e s')
                (mk (PythonProcessManager.run [Start true] new) half_a_line)
                [ChildExit 1; Start true]) in
  isReady (manager s) = false ∧ readyPromise (manager s) = false
  ∧ isReady (manager (onData parse_ready 2 (ready_signal ++ [newline])
                        (mk (PythonProcessManager.run [Start true] new) []))) = true.
Proof. vm_compute. done. Qed.

End PythonProcessStdoutFacts.

(** ** The override index cache: round trips *)

Module IntelligentCacheRoundTrips.
Import IntelligentCache IntelligentCacheFacts.

Lemma files_set d filePath ovs c mtimeMs :
  mtime d !! filePath = Some mtimeMs →
  files (projectIndex (set d filePath ovs c))
  = <[filePath := mkEntry ovs mtimeMs]> (files (projectIndex c)).
Proof. intros H. unfold set. rewrite H. by rewrite persistCache_projectIndex. Qed.

(** X9.  What [set] stores is what [get] returns, for as long as the file is
    there with a modification time that is not later than the one [set]
    saw; a later time or a missing file makes [get] return [null] and
    drop the entry, in memory only: [get] never writes the snapshot. *)
Theorem stored_overrides_are_served_until_the_file_changes d filePath ovs c mtimeMs d' :
  mtime d !! filePath = Some mtimeMs →
  (get d' filePath (set d filePath ovs c)).1
  = match mtime d' !! filePath with
    | Some later => if (mtimeMs <? later)%Z then None else Some ovs
    | None => None
    end
  ∧ ((get d' filePath (set d filePath ovs c)).1 = None →
     files (projectIndex (get d' filePath (set d filePath ovs c)).2) !! filePath = None)
  ∧ stored (get d' filePath (set d filePath ovs c)).2 = stored (set d filePath ovs c)
  ∧ writes (get d' filePath (set d filePath ovs c)).2 = writes (set d filePath ovs c).
Proof.
  intros Hm. unfold get. rewrite (files_set d filePath ovs c mtimeMs Hm).
  rewrite lookup_insert_eq. simpl.
  destruct (mtime d' !! filePath) as [later|]; [destruct (mtimeMs <? later)%Z|];
    simpl; split_and!; try done; intros _; by rewrite lookup_delete_eq.
Qed.

Lemma stored_overrides_are_served_until_the_file_changes_witness :
  let d := mkDisk {[ "/p/a.py" := 10%Z ]} true in
  let d' := mkDisk {[ "/p/a.py" := 11%Z ]} true in
  let c := loadCache None in
  (get d' "/p/a.py" (set d "/p/a.py" [] c)).1
  = match mtime d' !! "/p/a.py" with
    | Some later => if (10 <? later)%Z then None else Some []
    | None => None
    end
  ∧ ((get d' "/p/a.py" (set d "/p/a.py" [] c)).1 = None →
     files (projectIndex (get d' "/p/a.py" (set d "/p/a.py" [] c)).2) !! "/p/a.py" = None)
  ∧ stored (get d' "/p/a.py" (set d "/p/a.py" [] c)).2 = stored (set d "/p/a.py" [] c)
  ∧ writes (get d' "/p/a.py" (set d "/p/a.py" [] c)).2 = writes (set d "/p/a.py" [] c).
Proof.
  apply (stored_overrides_are_served_until_the_file_changes
           (mkDisk {[ "/p/a.py" := 10%Z ]} true) "/p/a.py" [] (loadCache None) 10%Z
           (mkDisk {[ "/p/a.py" := 11%Z ]} true)).
  reflexivity.
Defined.

Lemma unique_spec seen xs :
  NoDup (unique seen xs)
  ∧ (∀ x, x ∈ unique seen xs ↔ x ∈ xs ∧ x ∉ seen)
  ∧ unique seen xs `sublist_of` xs.
Proof.
  revert seen. induction xs as [|x xs IH]; intros seen; simpl.
  - split_and!; [constructor| |done]. intros x. split; [by intros ?%elem_of_nil|].
    by intros [?%elem_of_nil _].
  - case_bool_decide as Hx.
    + destruct (IH seen) as (Hnd & Hin & Hsub). split_and!; [done| |by constructor].
      intros y. rewrite Hin, elem_of_cons. split; [intros [? ?]; split; [by right|done]|].
      intros [[->|?] ?]; done.
    + destruct (IH (x :: seen)) as (Hnd & Hin & Hsub).
      split_and!; [| |by constructor].
      * apply NoDup_cons. split; [|done]. rewrite Hin. intros [_ H]. apply H. by left.
      * intros y. rewrite !elem_of_cons, Hin, elem_of_cons. split.
        -- intros [->|[? ?]]; [by split; [left|]|]. split; [by right|]. tauto.
        -- intros [[->|?] ?]; [by left|]. destruct (decide (y = x)) as [->|?]; [by left|].
           right. split; [done|]. tauto.
Qed.

(** Of two elements of [unique seen xs], the one that comes first
    occurs in [xs] before any occurrence of the other. *)
Lemma unique_order seen xs i j x y :
  unique seen xs !! i = Some x → unique seen xs !! j = Some y → (i < j)%nat →
  ∃ a, xs !! a = Some x ∧ y ∉ take a xs.
Proof.
  revert seen i j. induction xs as [|x0 xs IH]; intros seen i j Hi Hj Hlt; simpl in *.
  - done.
  - case_bool_decide as Hx0.
    + destruct (IH seen i j Hi Hj Hlt) as (a & Ha & Hy). exists (S a). split; [done|].
      simpl. intros [->|?]%elem_of_cons; [|done].
      destruct (unique_spec seen xs) as (_ & Hin & _).
      apply list_elem_of_lookup_2, Hin in Hj as [_ Hn]. done.
    + destruct i as [|i].
      * injection Hi as <-. exists 0. split; [done|]. simpl. by intros ?%elem_of_nil.
      * destruct j as [|j]; [lia|]. simpl in *.
        destruct (IH (x0 :: seen) i j Hi Hj) as (a & Ha & Hy); [lia|].
        exists (S a). split; [done|]. simpl. intros [->|?]%elem_of_cons; [|done].
        destruct (unique_spec (x0 :: seen) xs) as (_ & Hin & _).
        apply list_elem_of_lookup_2, Hin in Hj as [_ Hn]. apply Hn. by left.
Qed.

(** Where an element of a filtered list comes from. *)
Lemma filter_lookup_origin (P : string → Prop) `{∀ x, Decision (P x)} xs a x :
  filter P xs !! a = Some x →
  ∃ a', xs !! a' = Some x
        ∧ ∀ y, P y → y ∈ take a' xs → y ∈ take a (filter P xs).
Proof.
  revert a. induction xs as [|x0 xs IH]; intros a Ha; [done|].
  rewrite filter_cons in *. destruct (decide (P x0)) as [Hx0|Hx0].
  - destruct a as [|a]; simpl in *.
    + injection Ha as <-. exists 0. split; [done|]. intros y _ Hy. by apply elem_of_nil in Hy.
    + destruct (IH a Ha) as (a' & Ha' & Hy). exists (S a'). split; [done|].
      intros y Py [->|Hin]%elem_of_cons; [by left|]. right. by apply Hy.
  - destruct (IH a Ha) as (a' & Ha' & Hy). exists (S a'). split; [done|].
    intros y Py [->|Hin]%elem_of_cons; [done|]. by apply Hy.
Qed.

(** X10.  [setDependencies] stores the dependencies without the empty paths
    and without repetitions, in the order of their first occurrence (of
    two stored paths, the one stored first occurs in the given list
    before any occurrence of the other), and touches neither the
    overrides nor the dependencies of other files. *)
Theorem dependencies_are_stored_without_duplicates d filePath deps c :
  ∃ unique_deps,
    dependencies (projectIndex (setDependencies d filePath deps c)) !! filePath
      = Some unique_deps
    ∧ NoDup unique_deps
    ∧ (∀ x, x ∈ unique_deps ↔ x ∈ deps ∧ x ≠ "")
    ∧ (∀ i j x y,
         unique_deps !! i = Some x → unique_deps !! j = Some y → (i < j)%nat →
         ∃ a, deps !! a = Some x ∧ y ∉ take a deps)
    ∧ files (projectIndex (setDependencies d filePath deps c)) = files (projectIndex c)
    ∧ ∀ other, other ≠ filePath →
        dependencies (projectIndex (setDependencies d filePath deps c)) !! other
        = dependencies (projectIndex c) !! other.
Proof.
  exists (unique [] (filter (λ s, truthy (Some s) = true) deps)).
  unfold setDependencies. rewrite persistCache_projectIndex. simpl.
  destruct (unique_spec [] (filter (λ s, truthy (Some s) = true) deps))
    as (Hnd & Hin & Hsub).
  split_and!; [by rewrite lookup_insert_eq|done| | |done|].
  - intros x. rewrite Hin, list_elem_of_filter. simpl.
    rewrite negb_true_iff, String.eqb_neq. split.
    + intros [[? ?] _]. done.
    + intros [? ?]. split; [done|]. by intros ?%elem_of_nil.
  - intros i j x y Hi Hj Hlt.
    destruct (unique_order _ _ i j x y Hi Hj Hlt) as (a & Ha & Hy).
    destruct (filter_lookup_origin _ deps a x Ha) as (a' & Ha' & Hy').
    exists a'. split; [done|]. intros Hy''. apply Hy, Hy'; [|done].
    apply list_elem_of_lookup_2, Hin in Hj as [Hj _].
    by apply list_elem_of_filter in Hj as [? _].
  - intros other Hne. by rewrite lookup_insert_ne.
Qed.

(** The paths of the example: [b] is given between two occurrences of
    [a], and stored after it. *)
Example setDependencies_keeps_first_occurrences :
  dependencies
    (projectIndex
       (setDependencies (mkDisk ∅ true) "/p/x.py" ["/p/a.py"; ""; "/p/b.py"; "/p/a.py"]
          (loadCache None))) !! "/p/x.py"
  = Some ["/p/a.py"; "/p/b.py"].
Proof. vm_compute. reflexivity. Qed.

(** X11.  The deletion of a file forgets the file, its overrides and its
    dependency list, and nothing else: unlike a change, it does not
    invalidate the files that depend on it, whose overrides are served
    as before and whose dependency lists still name it. *)
Theorem a_deleted_file_keeps_its_dependents d filePath c :
  files (projectIndex (removeFile d filePath c)) !! filePath = None
  ∧ dependencies (projectIndex (removeFile d filePath c)) !! filePath = None
  ∧ (∀ other, other ≠ filePath →
       (get d other (removeFile d filePath c)).1 = (get d other c).1
       ∧ dependencies (projectIndex (removeFile d filePath c)) !! other
         = dependencies (projectIndex c) !! other)
  ∧ (∀ other, other ≠ filePath →
       other ∈ findDependents filePath c →
       other ∈ findDependents filePath (removeFile d filePath c)).
Proof.
  unfold removeFile. split_and!.
  - rewrite persistCache_projectIndex. simpl. by rewrite lookup_delete_eq.
  - rewrite persistCache_projectIndex. simpl. by rewrite lookup_delete_eq.
  - intros other Hne. unfold get. rewrite !persistCache_projectIndex. simpl.
    rewrite !lookup_delete_ne by done. split; [|done].
    destruct (files (projectIndex c) !! other) as [e|]; [|done].
    destruct (mtime d !! other) as [m|]; [|done]. by destruct (lastModified e <? m)%Z.
  - intros other Hne. rewrite !elem_of_findDependents.
    rewrite persistCache_projectIndex. simpl. intros (deps & Hd & Hin).
    exists deps. by rewrite lookup_delete_ne.
Qed.

End IntelligentCacheRoundTrips.

(** ** The analyzer facade: what invalidates a stored analysis *)

Module PythonOverrideAnalyzerInvalidation.
Import PythonOverrideAnalyzer.
Import PythonOverrideAnalyzerFacts.

Lemma elem_of_deps_of dep ovs :
  dep ∈ deps_of ovs ↔
  dep ≠ "" ∧
  ∃ o, o ∈ ovs
       ∧ ((type_ o = Some "child_override" ∧ base_file_path o = Some dep)
          ∨ (type_ o = Some "parent_overridden" ∧ child_file_path o = Some dep)).
Proof.
  assert (∀ v, truthy v = true ↔ ∃ s, v = Some s ∧ s ≠ "") as Ht.
  { intros [s|]; simpl.
    - rewrite negb_true_iff, String.eqb_neq. split.
      + intros ?. by exists s.
      + by intros (s' & [= <-] & ?).
    - split; [done|]. by intros (s' & ? & ?). }
  unfold deps_of. rewrite list_elem_of_In, in_flat_map.
  setoid_rewrite <- list_elem_of_In.
  split.
  - intros (o & Ho & Hin). apply elem_of_app in Hin as [Hin|Hin].
    + destruct (bool_decide _ && truthy _) eqn:E; [|by apply elem_of_nil in Hin].
      apply andb_true_iff in E as [Hty%bool_decide_eq_true (s & Hs & Hne)%Ht].
      apply list_elem_of_singleton in Hin. rewrite Hs in Hin. simpl in Hin. subst dep.
      split; [done|]. exists o. split; [done|]. by left.
    + destruct (bool_decide _ && truthy _) eqn:E; [|by apply elem_of_nil in Hin].
      apply andb_true_iff in E as [Hty%bool_decide_eq_true (s & Hs & Hne)%Ht].
      apply list_elem_of_singleton in Hin. rewrite Hs in Hin. simpl in Hin. subst dep.
      split; [done|]. exists o. split; [done|]. by right.
  - intros (Hne & o & Ho & [[Hty Hp]|[Hty Hp]]); exists o; (split; [done|]);
      apply elem_of_app; [left|right];
      rewrite (bool_decide_eq_true_2 _ Hty), Hp; simpl;
      (assert (negb (String.eqb dep "") = true) as ->
         by (by apply negb_true_iff, String.eqb_neq)); by left.
Qed.

(** X12.  A successful analysis records as dependencies of the file the files
    of the base methods its overrides name; when one of them changes,
    the stored analysis is dropped, and the next call asks the worker
    again. *)
Theorem a_change_of_a_recorded_dependency_invalidates_the_file st id filePath result
    mtimeMs o dep :
  mtime (disk st) !! filePath = Some mtimeMs →
  o ∈ result →
  (r_type o = Some "child_override" ∧ r_base_file_path o = Some dep)
  ∨ (r_type o = Some "parent_overridden" ∧ r_child_file_path o = Some dep) →
  dep ≠ "" →
  (Cache.get (disk st) filePath (cache (analyzeFile_resolved id filePath result st))).1
  = Some (normalize <$> result)
  ∧ (Cache.get (disk st) filePath
       (Cache.invalidateFile (disk st) dep
          (cache (analyzeFile_resolved id filePath result st)))).1
    = None.
Proof.
  intros Hm Ho Hdep Hne. unfold analyzeFile_resolved. simpl.
  pose proof (files_after_store (disk st) filePath (normalize <$> result) (cache st)
                mtimeMs Hm) as Hfiles.
  split.
  - unfold Cache.get. rewrite Hfiles, Hm. simpl. by rewrite Z.ltb_irrefl.
  - assert (dep ∈ deps_of (normalize <$> result)) as Hin.
    { apply elem_of_deps_of. split; [done|]. exists (normalize o). split.
      - apply list_elem_of_fmap. by exists o.
      - by destruct o. }
    unfold Cache.get, Cache.invalidateFile.
    rewrite IntelligentCacheFacts.persistCache_projectIndex. simpl.
    rewrite IntelligentCacheFacts.delete_all_lookup.
    rewrite bool_decide_eq_true_2; [done|].
    apply IntelligentCacheFacts.elem_of_findDependents.
    destruct (IntelligentCacheRoundTrips.unique_spec []
                (filter (λ s, truthy (Some s) = true) (deps_of (normalize <$> result))))
      as (_ & Hu & _).
    eexists. split.
    + unfold Cache.setDependencies.
      rewrite IntelligentCacheFacts.persistCache_projectIndex. simpl.
      by rewrite lookup_insert_eq.
    + apply Hu. split; [|by intros ?%elem_of_nil].
      apply list_elem_of_filter. split; [|done]. simpl.
      by apply negb_true_iff, String.eqb_neq.
Qed.


Lemma a_change_of_a_recorded_dependency_invalidates_the_file_witness :
  (Cache.get (disk in_flight) "/p/a.py"
     (cache (analyzeFile_resolved "req_1" "/p/a.py" [dog] in_flight))).1
  = Some (normalize <$> [dog])
  ∧ (Cache.get (disk in_flight) "/p/a.py"
       (Cache.invalidateFile (disk in_flight) "/p/b.py"
          (cache (analyzeFile_resolved "req_1" "/p/a.py" [dog] in_flight)))).1
    = None.
Proof.
  apply (a_change_of_a_recorded_dependency_invalidates_the_file
           in_flight "req_1" "/p/a.py" [dog] 10%Z dog "/p/b.py").
  - vm_compute. reflexivity.
  - apply list_elem_of_singleton. reflexivity.
  - left. split; reflexivity.
  - discriminate.
Defined.

End PythonOverrideAnalyzerInvalidation.

(** ** The analyzer facade: a failed call returns *)

Module PythonOverrideAnalyzerProgress.
Import PythonOverrideAnalyzer.
Import PythonOverrideAnalyzerFacts.

(** A call in the second of a [restart()] awaits no request: the
    promise it awaited is settled. *)
Definition parted (st : t) : Prop :=
  ∀ id filePath, restarting st !! id = Some filePath →
    awaiting st !! id = None ∧ is_Some (Link.promises (processManager st) !! id).

Lemma restarting_returns_all (l : list (string * string)) st :
  restarting (foldl (λ st' '(_, filePath), returns filePath [] st') st l) = restarting st
  ∧ awaiting (foldl (λ st' '(_, filePath), returns filePath [] st') st l) = awaiting st.
Proof.
  revert st. induction l as [|[k f] l IH]; intros st; simpl; [done|].
  destruct (IH (returns f [] st)) as [-> ->]. done.
Qed.

Lemma restart_elapsed_fields id ok st filePath :
  restarting st !! id = Some filePath →
  restarting (restart_elapsed id ok st) = delete id (restarting st)
  ∧ awaiting (restart_elapsed id ok st) = awaiting st.
Proof.
  intros H. unfold restart_elapsed. rewrite H. simpl.
  destruct (Link.start ok (processManager st)) as [[|] m]; simpl; [done|].
  by destruct (Link.readyPromise m).
Qed.

Lemma promises_handle_keep e st id v :
  link_ok (processManager st) →
  Link.promises (processManager st) !! id = Some v →
  Link.promises (processManager (handle e st)) !! id = Some v.
Proof.
  intros Hok H. pose proof (link_consistent _ Hok) as Hc.
  assert (∀ le, Link.promises (Link.step le (processManager st)) !! id = Some v) as Hstep.
  { intros le. by apply LF.promises_step_keeps. }
  destruct e as [f w|c lines|c|c|h|id' ok|f|f|fo|f m|f|b|f w|]; simpl; try done;
    [| | | | | | |by unfold request; destruct (_ || _); simpl;
                     apply (Hstep (Link.AnalyzeFile f w))
     |apply (Hstep Link.Dispose)].
  - unfold analyzeFile. destruct (Cache.get _ _ _) as [[cached|] c0]; [done|].
    unfold request. destruct (_ || _); simpl; apply (Hstep (Link.AnalyzeFile f w)).
  - destruct (Link.is_child c (processManager st)) eqn:Hch; [|done]. unfold stdout.
    pose proof (Hstep (Link.Stdout c lines)) as H'. simpl in H'. rewrite Hch in H'.
    destruct (negb _ && _); simpl; [|done].
    by rewrite processManager_returns_all.
  - destruct (Link.is_child c (processManager st)) eqn:Hch; [|done]. simpl.
    pose proof (Hstep (Link.ChildExit c)) as H'. simpl in H'. by rewrite Hch in H'.
  - destruct (Link.is_child c (processManager st)) eqn:Hch; [|done]. simpl.
    pose proof (Hstep (Link.ChildExit c)) as H'. simpl in H'. by rewrite Hch in H'.
  - apply (Hstep (Link.TimeoutFires h)).
  - unfold restart_elapsed. destruct (restarting st !! id'); [|done]. simpl.
    pose proof (Hstep (Link.Start ok)) as H'. simpl in H'.
    destruct (Link.start ok (processManager st)) as [[|] m]; simpl in *; [done|].
    by destruct (Link.readyPromise m).
  - unfold clearCache. by destruct (truthy fo).
Qed.

Lemma parted_request f w st :
  link_ok (processManager st) → parted st → parted (request f w st).
Proof.
  intros Hok Hp id filePath Hre. pose proof (link_consistent _ Hok) as Hc.
  assert (restarting (request f w st) = restarting st) as Hsame.
  { unfold request. by destruct (_ || _). }
  rewrite Hsame in Hre. destruct (Hp id filePath Hre) as [Ha [v Hv]]. split.
  - unfold request. destruct (_ || _); simpl; [|done].
    rewrite lookup_insert_ne; [done|]. intros <-.
    destruct (LF.settled_called _ Hc _ (mk_is_Some _ _ Hv)) as [? Hcall].
    by rewrite (LF.fresh_id _ Hc) in Hcall.
  - exists v. by apply (promises_handle_keep (Resumed f w)).
Qed.

Lemma parted_handle e st :
  analyzer_ok st → parted st → parted (handle e st).
Proof.
  intros Hst Hp id filePath Hre. pose proof (manager_ok _ Hst) as Hok.
  pose proof (link_consistent _ Hok) as Hc.
  assert (∀ id f, restarting st !! id = Some f →
            awaiting st !! id = None
            ∧ is_Some (Link.promises (processManager (handle e st)) !! id)) as Hp'.
  { intros id0 f Hid. destruct (Hp id0 f Hid) as [Ha [v Hv]]. split; [done|].
    exists v. by apply promises_handle_keep. }
  destruct e as [f w|c lines|c|c|h|id' ok|f|f|fo|f m|f|b|f w|]; simpl in *;
    try (by apply (Hp' id filePath)).
  - unfold analyzeFile in *. destruct (Cache.get _ _ _) as [[cached|] c0];
      [by apply (Hp' id filePath)|].
    by apply (parted_request f w (set_cache c0 st) Hok Hp id filePath).
  - destruct (Link.is_child c (processManager st)); [|by apply (Hp' id filePath)].
    destruct (Link.readyPromise (processManager st)) eqn:Hres.
    + rewrite stdout_resolved in * by done. simpl in *. by apply (Hp' id filePath).
    + rewrite stdout_unresolved in Hre by done.
      destruct (Link.readyPromise _); simpl in Hre; by rewrite lookup_empty in Hre.
  - destruct (Link.is_child c (processManager st)); by apply (Hp' id filePath).
  - destruct (Link.is_child c (processManager st)); by apply (Hp' id filePath).
  - destruct (restarting st !! id') as [f'|] eqn:E.
    + destruct (restart_elapsed_fields id' ok st f' E) as [Hr' Ha']. rewrite Hr' in Hre.
      apply lookup_delete_Some in Hre as [_ Hid].
      rewrite Ha'. by apply (Hp' id filePath).
    + unfold restart_elapsed in *. rewrite E in *. by apply (Hp' id filePath).
  - unfold clearCache in *. destruct (truthy fo); by apply (Hp' id filePath).
  - by apply (parted_request f w st Hok Hp id filePath).
Qed.

Lemma parted_reaction id0 st :
  link_ok (processManager st) → parted st → parted (reaction id0 st).
Proof.
  intros Hok Hp. pose proof (link_consistent _ Hok) as Hc. unfold reaction. destruct (awaiting st !! id0) as [f|] eqn:Haw; [|done].
  destruct (Link.promises (processManager st) !! id0) as [[result|message]|] eqn:Hpr;
    [| |done].
  - intros id filePath Hre. simpl in *. destruct (Hp id filePath Hre) as [Ha Hs].
    split; [|done]. rewrite lookup_delete. by case_decide.
  - intros id filePath. unfold analyzeFile_rejected, enqueue. simpl.
    rewrite lookup_insert. case_decide as Hid; subst.
    + intros _. split; [by rewrite lookup_delete_eq|].
      exists (Link.Rejected message). by apply dispose_keeps_promise.
    + intros Hre. destruct (Hp id filePath Hre) as [Ha [v Hv]]. split.
      * by rewrite lookup_delete_ne.
      * exists v. by apply dispose_keeps_promise.
Qed.

Lemma parted_reactions js st :
  link_ok (processManager st) → parted st →
  parted (foldl (λ st' id, reaction id st') st js).
Proof.
  revert st. induction js as [|id js IH]; intros st Hok Hp; simpl; [done|].
  apply IH; [by apply link_ok_reaction|by apply parted_reaction].
Qed.

Lemma parted_drain st : link_ok (processManager st) → parted st → parted (drain st).
Proof.
  intros Hok Hp. unfold drain, run_jobs. apply parted_reactions.
  - simpl. by apply (link_ok_reactions (jobs st) (set_jobs [] st)).
  - by apply (parted_reactions (jobs st) (set_jobs [] st)).
Qed.

Lemma reachable_parted st : reachable st → parted st.
Proof.
  induction 1 as [m c d Hm|e st Hr IH].
  - intros id f. simpl. by rewrite lookup_empty.
  - pose proof (reachable_analyzer_ok st Hr) as Hst.
    apply parted_drain; [by apply link_ok_handle, Hst|by apply parted_handle].
Qed.

Lemma restarting_handle e st id filePath :
  analyzer_ok st →
  (∀ ok, e ≠ RestartElapsed id ok) →
  restarting st !! id = Some filePath →
  restarting (handle e st) !! id = Some filePath.
Proof.
  intros Hst Hne Hre.
  assert (∀ f w st0, restarting (request f w st0) = restarting st0) as Hreq.
  { intros f w st0. unfold request. by destruct (_ || _). }
  destruct e as [f w|c lines|c|c|h|id' ok|f|f|fo|f m|f|b|f w|]; simpl; try done.
  - unfold analyzeFile. destruct (Cache.get _ _ _) as [[cached|] c0]; [done|].
    by rewrite Hreq.
  - destruct (Link.is_child c (processManager st)); [|done].
    rewrite stdout_resolved; [done|].
    by apply (restarting_resolved st id filePath (at_rest st Hst)).
  - by destruct (Link.is_child c (processManager st)).
  - by destruct (Link.is_child c (processManager st)).
  - assert (id' ≠ id) as Hid by (intros ->; by apply (Hne ok)).
    destruct (restarting st !! id') as [f'|] eqn:E.
    + destruct (restart_elapsed_fields id' ok st f' E) as [-> _].
      by rewrite lookup_delete_ne.
    + unfold restart_elapsed. by rewrite E.
  - unfold clearCache. by destruct (truthy fo).
  - by rewrite Hreq.
Qed.

Lemma restarting_reaction id0 st id filePath :
  parted st →
  restarting st !! id = Some filePath →
  restarting (reaction id0 st) !! id = Some filePath.
Proof.
  intros Hp Hre. unfold reaction. destruct (awaiting st !! id0) as [f|] eqn:Haw; [|done].
  destruct (Link.promises (processManager st) !! id0) as [[result|message]|]; [done| |done].
  unfold analyzeFile_rejected, enqueue. simpl. rewrite lookup_insert_ne; [done|].
  intros ->. destruct (Hp id filePath Hre) as [Ha _]. congruence.
Qed.

Lemma restarting_reactions js st id filePath :
  link_ok (processManager st) → parted st →
  restarting st !! id = Some filePath →
  restarting (foldl (λ st' id, reaction id st') st js) !! id = Some filePath.
Proof.
  revert st. induction js as [|id0 js IH]; intros st Hok Hp Hre; simpl; [done|].
  apply IH; [by apply link_ok_reaction|by apply parted_reaction
            |by apply restarting_reaction].
Qed.

Lemma restarting_step e st id filePath :
  reachable st →
  (∀ ok, e ≠ RestartElapsed id ok) →
  restarting st !! id = Some filePath →
  restarting (step e st) !! id = Some filePath.
Proof.
  intros Hr Hne Hre. pose proof (reachable_analyzer_ok st Hr) as Hst.
  pose proof (manager_ok _ Hst) as Hok.
  pose proof (parted_handle e st Hst (reachable_parted st Hr)) as Hp.
  pose proof (restarting_handle e st id filePath Hst Hne Hre) as Hre'.
  pose proof (link_ok_handle e st Hok) as Hok'.
  unfold step, drain, run_jobs. apply restarting_reactions.
  - simpl. by apply (link_ok_reactions (jobs (handle e st)) (set_jobs [] (handle e st))).
  - by apply (parted_reactions (jobs (handle e st)) (set_jobs [] (handle e st))).
  - by apply (restarting_reactions (jobs (handle e st)) (set_jobs [] (handle e st))).
Qed.

Lemma restarting_run es st id filePath :
  reachable st →
  Forall (λ e, ∀ ok, e ≠ RestartElapsed id ok) es →
  restarting st !! id = Some filePath →
  restarting (run es st) !! id = Some filePath.
Proof.
  revert st. induction es as [|e es IH]; intros st Hr Hes Hre; simpl; [done|].
  apply Forall_cons in Hes as [He Hes].
  apply IH; [by apply reachable_step|done|by apply restarting_step].
Qed.

(** X13.  A call whose request fails returns the empty list when the second
    of its [restart()] is over, whatever happens in between: other
    calls, answers, failures and restarts leave it waiting for that
    moment, and none of them makes it return anything else. *)
Theorem a_failed_call_returns_when_its_restart_is_over st id filePath e es spawn_ok :
  reachable st →
  awaiting st !! id = Some filePath →
  fails st id e →
  Forall (λ e', ∀ ok, e' ≠ RestartElapsed id ok) es →
  restarting (run es (step e st)) !! id = Some filePath
  ∧ returned (step (RestartElapsed id spawn_ok) (run es (step e st)))
    = (filePath, []) :: returned (run es (step e st)).
Proof.
  intros Hr Haw Hfail Hes. pose proof (reachable_analyzer_ok st Hr) as Hok.
  destruct (reachable_quiet st Hr id filePath Haw) as [request Hreq].
  destruct (failure_is_queued st id filePath request e Hok Haw Hreq Hfail)
    as (Hok' & Hrej & Hin & Haw' & _).
  destruct (rejection_leads_to_restart (handle e st) id filePath Hok' Hrej Hin Haw')
    as (Hre & _).
  assert (reachable (step e st)) as Hr1 by (by apply reachable_step).
  pose proof (restarting_run es (step e st) id filePath Hr1 Hes Hre) as Hre'.
  split; [done|].
  rewrite (restart_returns_empty _ id filePath spawn_ok); [done| |done].
  apply reachable_analyzer_ok. by apply analyzer_reachable_run.
Qed.

Lemma a_failed_call_returns_when_its_restart_is_over_witness :
  restarting
    (run [AnalyzeFile "/p/b.py" None; ChildExit 1; Touch "/p/a.py" 11]
       (step (TimeoutFires "req_1") in_flight)) !! "req_1" = Some "/p/a.py"
  ∧ returned
      (step (RestartElapsed "req_1" true)
         (run [AnalyzeFile "/p/b.py" None; ChildExit 1; Touch "/p/a.py" 11]
            (step (TimeoutFires "req_1") in_flight)))
    = ("/p/a.py", [])
      :: returned
           (run [AnalyzeFile "/p/b.py" None; ChildExit 1; Touch "/p/a.py" 11]
              (step (TimeoutFires "req_1") in_flight)).
Proof.
  apply (a_failed_call_returns_when_its_restart_is_over in_flight "req_1" "/p/a.py"
           (TimeoutFires "req_1")
           [AnalyzeFile "/p/b.py" None; ChildExit 1; Touch "/p/a.py" 11] true).
  - exact reachable_in_flight.
  - vm_compute. reflexivity.
  - apply fails_timeout.
  - repeat constructor; intros ok; discriminate.
Defined.

End PythonOverrideAnalyzerProgress.

(** ** The analyzer facade: whose answer a call returns *)

Module PythonOverrideAnalyzerCorrelation.
Import PythonOverrideAnalyzer.
Import PythonOverrideAnalyzerFacts.

(** Every call that waits for an answer waits for the answer to a
    request that was made for its own file. *)
Definition matched (st : t) : Prop :=
  ∀ id filePath, awaiting st !! id = Some filePath →
    Link.calls (processManager st) !! id = Some filePath.

Lemma calls_sent filePath w m :
  Link.isReady m || Link.readyPromise m = true →
  Link.calls (Link.analyzeFile filePath w m) !! Link.request_id (S (Link.messageId m))
  = Some filePath.
Proof.
  intros Hr.
  assert (Link.analyzeFile filePath w m = Link.send filePath w m) as ->.
  { unfold Link.analyzeFile. destruct (Link.isReady m); [done|].
    simpl in Hr. by rewrite Hr. }
  unfold Link.send. simpl.
  destruct (Link.pythonProcess m); [destruct w|]; simpl; by rewrite lookup_insert_eq.
Qed.

Lemma matched_request f w st :
  link_ok (processManager st) → matched st → matched (request f w st).
Proof.
  intros Hok Hm id filePath Haw. pose proof (link_consistent _ Hok) as Hc.
  assert (∀ id0 g, awaiting st !! id0 = Some g →
            Link.calls (Link.analyzeFile f w (processManager st)) !! id0 = Some g)
    as Hstep.
  { intros id0 g H. apply (LF.calls_step_keeps (Link.AnalyzeFile f w)); [done|].
    by apply Hm. }
  unfold request in *.
  destruct (Link.isReady (processManager st) || Link.readyPromise (processManager st))
    eqn:Hr; simpl in *; [|by apply Hstep].
  apply lookup_insert_Some in Haw as [[<- <-]|[Hne Haw]]; [by apply calls_sent|].
  by apply Hstep.
Qed.

Lemma matched_handle e st :
  analyzer_ok st → matched st → matched (handle e st).
Proof.
  intros Hst Hm id filePath Haw. pose proof (manager_ok _ Hst) as Hok.
  pose proof (link_consistent _ Hok) as Hc.
  assert (∀ le id f, awaiting st !! id = Some f →
            Link.calls (Link.step le (processManager st)) !! id = Some f) as Hstep.
  { intros le id0 f H. apply LF.calls_step_keeps; [done|by apply Hm]. }
  destruct e as [f w|c lines|c|c|h|id' ok|f|f|fo|f m|f|b|f w|]; simpl in *;
    try (by apply Hm).
  - unfold analyzeFile in *. destruct (Cache.get _ _ _) as [[cached|] c0];
      [by apply Hm|].
    by apply (matched_request f w (set_cache c0 st) Hok Hm id filePath).
  - destruct (Link.is_child c (processManager st)) eqn:Hch; [|by apply Hm].
    destruct (Link.readyPromise (processManager st)) eqn:Hres.
    + rewrite stdout_resolved in * by done. simpl in *.
      pose proof (Hstep (Link.Stdout c lines) id filePath Haw) as H'. simpl in H'.
      rewrite Hch in H'. unfold Link.processOutput in H'. by rewrite Hres in H'.
    + rewrite stdout_unresolved in * by done.
      set (m1 := foldl _ (processManager st) lines) in *.
      destruct (Link.readyPromise m1); simpl in *; [|by rewrite lookup_empty in Haw].
      apply elem_of_list_to_map_2 in Haw.
      assert (LF.consistent (Link.set_awaitingReady [] m1)) as Hc1.
      { pose proof (LF.consistent_lines c lines _ Hc) as [? ? ? ? ? ?]. by split. }
      by destruct (released_registered (Link.awaitingReady m1)
                     (Link.set_awaitingReady [] m1) id filePath Hc1 Haw) as (? & _).
  - destruct (Link.is_child c (processManager st)) eqn:Hch; [|by apply Hm].
    simpl in *. by apply Hm.
  - destruct (Link.is_child c (processManager st)) eqn:Hch; [|by apply Hm].
    simpl in *. by apply Hm.
  - apply (Hstep (Link.TimeoutFires h)). done.
  - destruct (restarting st !! id') as [f'|] eqn:E.
    + destruct (PythonOverrideAnalyzerProgress.restart_elapsed_fields id' ok st f' E)
        as [_ Ha]. rewrite Ha in Haw.
      pose proof (Hstep (Link.Start ok) id filePath Haw) as H'. simpl in H'.
      unfold restart_elapsed. rewrite E. simpl.
      destruct (Link.start ok (processManager st)) as [[|] m]; simpl in *; [done|].
      by destruct (Link.readyPromise m).
    + unfold restart_elapsed in *. rewrite E in *. by apply Hm.
  - unfold clearCache in *. destruct (truthy fo); by apply Hm.
  - by apply (matched_request f w st Hok Hm id filePath).
  - apply (Hstep Link.Dispose). done.
Qed.

Lemma matched_reaction id0 st :
  link_ok (processManager st) → matched st → matched (reaction id0 st).
Proof.
  intros Hok Hm. pose proof (link_consistent _ Hok) as Hc. unfold reaction.
  destruct (awaiting st !! id0) as [f|] eqn:Haw; [|done].
  destruct (Link.promises (processManager st) !! id0) as [[result|message]|]; [| |done].
  - intros id filePath. simpl. rewrite lookup_delete. case_decide; [done|]. apply Hm.
  - intros id filePath. unfold analyzeFile_rejected, enqueue. simpl.
    rewrite lookup_delete. case_decide; [done|]. intros Hid.
    apply (LF.calls_step_keeps Link.Dispose); [done|by apply Hm].
Qed.

Lemma matched_reactions js st :
  link_ok (processManager st) → matched st →
  matched (foldl (λ st' id, reaction id st') st js).
Proof.
  revert st. induction js as [|id js IH]; intros st Hok Hm; simpl; [done|].
  apply IH; [by apply link_ok_reaction|by apply matched_reaction].
Qed.

Lemma reachable_matched st : reachable st → matched st.
Proof.
  induction 1 as [m c d Hm|e st Hr IH].
  - intros id f. simpl. by rewrite lookup_empty.
  - pose proof (reachable_analyzer_ok st Hr) as Hst.
    pose proof (manager_ok _ Hst) as Hok.
    pose proof (link_ok_handle e st Hok) as Hok'.
    unfold step, drain, run_jobs. apply matched_reactions.
    + simpl. by apply (link_ok_reactions (jobs (handle e st)) (set_jobs [] (handle e st))).
    + apply (matched_reactions (jobs (handle e st)) (set_jobs [] (handle e st))); [done|].
      by apply matched_handle.
Qed.

(** *** Calls the manager holds back until the ready signal *)

Lemma released_lookup n ws i f w :
  ws !! i = Some (f, w) → (Link.request_id (S (n + i)), f) ∈ released n ws.
Proof.
  revert n i. induction ws as [|[g w'] ws IH]; intros n i Hi; [done|].
  destruct i as [|i]; simpl in *.
  - injection Hi as -> ->. rewrite Nat.add_0_r. by left.
  - right. rewrite Nat.add_succ_r. by apply (IH (S n) i).
Qed.

(** A call whose request was made for file [f] under [id] and which has
    not returned: it waits for the answer, which has not come, or in the
    [catch] block for [restart()]. *)
Definition underway (id f : string) (st : t) : Prop :=
  Link.calls (processManager st) !! id = Some f
  ∧ ((awaiting st !! id = Some f
      ∧ ∀ result, Link.promises (processManager st) !! id ≠ Some (Link.Resolved result))
     ∨ (awaiting st !! id = None ∧ restarting st !! id = Some f)).

Lemma underway_reaction id0 id f st :
  link_ok (processManager st) → underway id f st → underway id f (reaction id0 st).
Proof.
  intros Hok [Hcalls Hheld]. pose proof (link_consistent _ Hok) as Hc.
  unfold reaction. destruct (awaiting st !! id0) as [f0|] eqn:Haw0; [|by split].
  destruct (Link.promises (processManager st) !! id0) as [[result|message]|] eqn:Hp0;
    [| |by split].
  - split; [done|]. unfold analyzeFile_resolved. simpl.
    destruct (decide (id = id0)) as [->|Hne].
    + destruct Hheld as [[_ Hnot]|[Hnone _]]; [by destruct (Hnot result)|congruence].
    + by rewrite lookup_delete_ne.
  - split.
    { unfold analyzeFile_rejected, enqueue. simpl.
      by apply (LF.calls_step_keeps Link.Dispose). }
    unfold analyzeFile_rejected, enqueue. simpl.
    destruct (decide (id = id0)) as [->|Hne].
    + right. rewrite lookup_delete_eq, lookup_insert_eq.
      destruct Hheld as [[Haw _]|[Hnone _]]; [|congruence].
      split; [done|congruence].
    + rewrite lookup_delete_ne, lookup_insert_ne by done.
      destruct Hheld as [[Haw Hnot]|?]; [left|by right]. split; [done|].
      intros result. rewrite dispose_promises by done.
      destruct (Link.promises (processManager st) !! id) as [v|] eqn:E.
      * intros [= ->]. by destruct (Hnot result).
      * by destruct (Link.pendingRequests (processManager st) !! id).
Qed.

Lemma underway_reactions js id f st :
  link_ok (processManager st) → underway id f st →
  underway id f (foldl (λ st' id0, reaction id0 st') st js).
Proof.
  revert st. induction js as [|id0 js IH]; intros st Hok Hh; simpl; [done|].
  apply IH; [by apply link_ok_reaction|by apply underway_reaction].
Qed.

Lemma underway_drain id f st :
  link_ok (processManager st) → underway id f st → underway id f (drain st).
Proof.
  intros Hok Hh. unfold drain, run_jobs. apply underway_reactions.
  - simpl. by apply (link_ok_reactions (jobs st) (set_jobs [] st)).
  - by apply (underway_reactions (jobs st) id f (set_jobs [] st)).
Qed.

(** The ready signal releases every call the manager held back: each
    makes its request, for its own file, under the id its place in the
    queue gives it. *)
Lemma ready_signal_releases st c response i filePath w :
  analyzer_ok st →
  Link.is_child c (processManager st) = true →
  Link.rsp_type response = Some "ready" →
  Link.awaitingReady (processManager st) !! i = Some (filePath, w) →
  underway (Link.request_id (S i)) filePath (handle (Stdout c [Link.Message response]) st).
Proof.
  intros Hst Hch Hty Hi. pose proof Hst as [Hok Hj Hcalm].
  pose proof (link_consistent _ Hok) as Hc.
  assert (Link.readyPromise (processManager st) = false) as Hres.
  { destruct (Link.readyPromise (processManager st)) eqn:E; [|done].
    rewrite (LF.resolved_no_waiters _ (link_gated _ Hok) E) in Hi.
    done. }
  assert (Link.messageId (processManager st) = 0) as Hn.
  { by destruct (LF.unresolved_idle _ (LF.gate _ (link_gated _ Hok)) Hres). }
  simpl. rewrite Hch, stdout_unresolved by done. simpl.
  rewrite bool_decide_eq_true_2 by done. simpl.
  set (m1 := Link.observe _ _).
  assert (LF.consistent (Link.set_awaitingReady [] m1)) as Hc1.
  { destruct Hc. by split. }
  pose proof (released_lookup (Link.messageId (processManager st)) _ i filePath w Hi)
    as Hin.
  rewrite Hn in Hin. simpl in Hin.
  assert ((Link.request_id (S i), filePath)
          ∈ released (Link.messageId (Link.set_awaitingReady [] m1))
              (Link.awaitingReady m1)) as Hin1.
  { change (Link.messageId (Link.set_awaitingReady [] m1))
      with (Link.messageId (processManager st)).
    change (Link.awaitingReady m1) with (Link.awaitingReady (processManager st)).
    by rewrite Hn. }
  destruct (released_registered _ _ _ _ Hc1 Hin1) as (Hcalls & Hnone & _).
  fold (Link.release m1) in Hcalls. rewrite Hn.
  split; [done|]. left. split.
  - apply elem_of_list_to_map_1; [apply released_NoDup|done].
  - intros result Hv. unfold Link.release in Hv.
    apply released_rejects in Hv as [Hv|[error ?]]; [|done]. congruence.
Qed.

(** X14.  Whose answer a call returns.
    - A call that has made its request and waits for the answer waits
      for a request the manager made for the call's own file, and that
      request is pending; when the worker answers it without an error,
      the call returns the answer, normalised, as the result for that
      file.
    - A call made while the manager's [readyPromise] is unresolved makes
      no request: the manager holds it back, at the end of its queue.
    - When the ready signal arrives, the call at place [i] of that queue
      makes the request [req_(i+1)], for its own file; it then waits for
      the answer, its request pending, or, if the request has failed at
      once, in the [catch] block for [restart()]. *)
Theorem a_call_returns_the_answer_to_its_own_request st :
  reachable st →
  (∀ id filePath,
     awaiting st !! id = Some filePath →
     Link.calls (processManager st) !! id = Some filePath
     ∧ is_Some (Link.pendingRequests (processManager st) !! id)
     ∧ ∀ c response,
         Link.is_child c (processManager st) = true →
         Link.rsp_id response = Some id →
         Link.rsp_type response ≠ Some "ready" →
         truthy (Link.rsp_error response) = false →
         returned (step (Stdout c [Link.Message response]) st)
         = (filePath, normalize <$> default [] (Link.rsp_result response))
           :: returned st)
  ∧ (∀ filePath w e,
       Link.readyPromise (processManager st) = false →
       e = Resumed filePath w
       ∨ (e = AnalyzeFile filePath w
          ∧ (Cache.get (disk st) filePath (cache st)).1 = None) →
       Link.awaitingReady (processManager (step e st))
       = Link.awaitingReady (processManager st) ++ [(filePath, w)]
       ∧ Link.calls (processManager (step e st)) = Link.calls (processManager st)
       ∧ Link.log (processManager (step e st)) = Link.log (processManager st)
       ∧ awaiting (step e st) = ∅
       ∧ returned (step e st) = returned st)
  ∧ (∀ c response i filePath w,
       Link.is_child c (processManager st) = true →
       Link.rsp_type response = Some "ready" →
       Link.awaitingReady (processManager st) !! i = Some (filePath, w) →
       let st' := step (Stdout c [Link.Message response]) st in
       let id := Link.request_id (S i) in
       Link.calls (processManager st') !! id = Some filePath
       ∧ ((awaiting st' !! id = Some filePath
           ∧ is_Some (Link.pendingRequests (processManager st') !! id))
          ∨ (awaiting st' !! id = None ∧ restarting st' !! id = Some filePath))).
Proof.
  intros Hr. pose proof (reachable_analyzer_ok st Hr) as Hst. split_and!.
  - intros id filePath Haw.
    destruct (reachable_quiet st Hr id filePath Haw) as [request Hreq].
    split_and!; [by apply reachable_matched|by rewrite Hreq|].
    intros c response Hch Hid Hty Herr.
    by rewrite (success_is_stored st id filePath request c response Hst Haw Hreq Hch
                  Hid Hty Herr).
  - intros filePath w e Hres He. pose proof Hst as [Hok Hj [Hs Ha Hre]].
    assert (Link.isReady (processManager st) = false) as Hi.
    { destruct (Link.isReady (processManager st)) eqn:E; [|done].
      by rewrite (LF.ready_resolved _ (LF.gate _ (link_gated _ Hok)) E) in Hres. }
    assert (handle e st
            = set_processManager (Link.analyzeFile filePath w (processManager st))
                (set_cache (cache (handle e st)) st)) as Hh.
    { destruct He as [->|[-> Hmiss]]; simpl.
      - unfold request. rewrite Hi, Hres. simpl. by destruct st.
      - unfold analyzeFile. destruct (Cache.get _ _ _) as [[cached|] c0]; [done|].
        unfold request. simpl. rewrite Hi, Hres. done. }
    unfold step. rewrite Hh, drain_idle by done. simpl.
    unfold Link.analyzeFile. rewrite Hi, Hres. simpl. by rewrite (Ha Hres).
  - intros c response i filePath w Hch Hty Hi st' id.
    assert (underway id filePath st') as [Hcalls Hheld].
    { unfold st', step. apply underway_drain; [apply link_ok_handle, Hst|].
      by apply (ready_signal_releases st c response i filePath w). }
    split; [done|]. destruct Hheld as [[Haw _]|?]; [left|by right].
    split; [done|].
    by apply (reachable_quiet st' (reachable_step _ st Hr) id filePath).
Qed.

(** An analyzer that holds a manager whose worker has not signalled
    readiness, called for two files. *)
Definition two_held_back : t :=
  run [Resumed "/p/a.py" None; AnalyzeFile "/p/b.py" None]
    (initialized_with (Link.start true Link.new).2 (Cache.loadCache None) disk0).

Lemma reachable_two_held_back : reachable two_held_back.
Proof.
  apply analyzer_reachable_run, reachable_initialized.
  apply (Link.reachable_step (Link.Start true)), Link.reachable_new.
Qed.

Lemma a_call_returns_the_answer_to_its_own_request_witness :
  (Link.calls (processManager in_flight) !! "req_1" = Some "/p/a.py"
   ∧ is_Some (Link.pendingRequests (processManager in_flight) !! "req_1"))
  ∧ Link.awaitingReady (processManager two_held_back)
    = [("/p/a.py", None); ("/p/b.py", None)]
  ∧ Link.calls
      (processManager
         (step (Stdout 1 [Link.Message (Link.mkResponse (Some "ready") None None None)])
            two_held_back)) !! "req_2" = Some "/p/b.py".
Proof.
  assert (awaiting in_flight !! "req_1" = Some "/p/a.py") as Haw
    by (vm_compute; reflexivity).
  assert (Link.is_child 1 (processManager two_held_back) = true) as Hch
    by (vm_compute; reflexivity).
  assert (Link.awaitingReady (processManager two_held_back) !! 1
          = Some ("/p/b.py", None)) as Hi by (vm_compute; reflexivity).
  split; [split|split].
  - exact (proj1 (proj1 (a_call_returns_the_answer_to_its_own_request in_flight
                           reachable_in_flight) "req_1" "/p/a.py" Haw)).
  - exact (proj1 (proj2 (proj1 (a_call_returns_the_answer_to_its_own_request in_flight
                                  reachable_in_flight) "req_1" "/p/a.py" Haw))).
  - vm_compute. reflexivity.
  - exact (proj1 (proj2 (proj2 (a_call_returns_the_answer_to_its_own_request
                                  two_held_back reachable_two_held_back))
                    1 (Link.mkResponse (Some "ready") None None None) 1 "/p/b.py" None
                    Hch eq_refl Hi)).
Defined.

End PythonOverrideAnalyzerCorrelation.

(** ** The interpreter path *)

Module PythonPathFacts.
Import PythonPath.

Lemma fromConfiguration_truthy h : truthy (Some (fromConfiguration h)) = true.
Proof.
  unfold fromConfiguration.
  destruct (truthy (if truthy (pythonPath h) then pythonPath h
                    else defaultInterpreterPath h)) eqn:E.
  - destruct (if truthy (pythonPath h) then pythonPath h else defaultInterpreterPath h);
      [done|discriminate].
  - by destruct (String.eqb (platform h) "win32").
Qed.

(** X15.  [findPythonPath] never returns the empty string.  It returns
    the command of the Python extension when the extension is active and
    names a non-empty one.  When the extension names none (it is absent
    or inactive, has no API, the API throws, or the command is missing
    or empty), it returns the setting [pythonPath] if that is non-empty,
    else the setting [defaultInterpreterPath] if that is non-empty, else
    [python] on win32 and [python3] elsewhere. *)
Theorem findPythonPath_names_an_interpreter h :
  truthy (Some (findPythonPath h)) = true
  ∧ (∀ first,
       pythonExtension h = Some (true, ExecCommand (Some first)) → first ≠ "" →
       findPythonPath h = first)
  ∧ ((∀ first, pythonExtension h = Some (true, ExecCommand (Some first)) → first = "") →
     (∀ path, pythonPath h = Some path → path ≠ "" → findPythonPath h = path)
     ∧ (truthy (pythonPath h) = false →
        (∀ path, defaultInterpreterPath h = Some path → path ≠ "" →
                 findPythonPath h = path)
        ∧ (truthy (defaultInterpreterPath h) = false →
           findPythonPath h
           = if String.eqb (platform h) "win32" then "python" else "python3"))).
Proof.
  assert (∀ path, path ≠ "" → truthy (Some path) = true) as Htruthy.
  { intros path Hne. simpl. apply negb_true_iff. by apply String.eqb_neq. }
  split_and!.
  - unfold findPythonPath.
    destruct (pythonExtension h) as [[[] [| |[first|]]]|];
      try apply fromConfiguration_truthy.
    destruct (truthy (Some first)) eqn:E; [done|apply fromConfiguration_truthy].
  - intros first Hext Hne. unfold findPythonPath. rewrite Hext.
    by rewrite (Htruthy first Hne).
  - intros Hnone.
    assert (findPythonPath h = fromConfiguration h) as ->.
    { unfold findPythonPath.
      destruct (pythonExtension h) as [[[] [| |[first|]]]|]; try done.
      by rewrite (Hnone first eq_refl). }
    unfold fromConfiguration. split.
    + intros path Hp Hne. rewrite Hp. by rewrite !(Htruthy path Hne).
    + intros Hno. rewrite Hno. split.
      * intros path Hp Hne. rewrite Hp. by rewrite (Htruthy path Hne).
      * intros Hno'. by rewrite Hno'.
Qed.

Example findPythonPath_falls_back :
  findPythonPath (mkHost (Some (true, ExecCommand (Some "/venv/bin/python")))
                    (Some "/usr/bin/python3") None "linux") = "/venv/bin/python"
  ∧ findPythonPath (mkHost (Some (false, ExecCommand (Some "/venv/bin/python")))
                      (Some "") (Some "/usr/bin/python3") "linux") = "/usr/bin/python3"
  ∧ findPythonPath (mkHost (Some (true, ApiThrows)) None (Some "") "win32") = "python"
  ∧ findPythonPath (mkHost None None None "darwin") = "python3".
Proof. vm_compute. done. Qed.

End PythonPathFacts.

(** ** The analyzer before it is initialised *)

Module AnalyzerStartupFacts.
Import AnalyzerStartup.

(** The manager a call of [initialize] creates, when [spawn] returns. *)
Definition fresh : Link.t := (Link.start true Link.new).2.

Lemma initialize_early st :
  isInitialized st = false →
  initialize true true st =
    (Suspended,
     mk (Some (length (managers st))) false (cache st) (disk st)
        (managers st ++ [fresh]) (initializing st ++ [(length (managers st), None)])).
Proof. intros H. unfold initialize, initialize_for. rewrite H. reflexivity. Qed.

Lemma running_app ms ms' c d p i b j :
  running (mk p b c d (ms ++ ms') i) = running (mk p b c d ms j) ++ running (mk p b c d ms' j).
Proof. unfold running. simpl. by rewrite filter_app. Qed.

Lemma early_calls snapshot d n :
  let st := Nat.iter n (λ st, (initialize true true st).2) (new snapshot d) in
  isInitialized st = false
  ∧ managers st = replicate n fresh
  ∧ processManager st = match n with 0 => None | S k => Some k end.
Proof.
  induction n as [|n IH]; [done|]. simpl in *.
  destruct IH as (Hi & Hm & Hp). rewrite initialize_early by done. simpl.
  split_and!; [done| |by rewrite Hm, length_replicate].
  rewrite Hm. clear. induction n as [|n IH]; [done|]. simpl. by rewrite IH.
Qed.

Lemma running_fresh n p b c d i :
  running (mk p b c d (replicate n fresh) i) = replicate n fresh.
Proof.
  unfold running. simpl. induction n as [|n IH]; [done|]. simpl.
  rewrite filter_cons. rewrite decide_True by (by eexists). by rewrite IH.
Qed.

(** X16.  Every call of [initialize] made before a worker has signalled
    readiness creates a manager and spawns a worker of its own, and
    [dispose] ends only the one created last: after [n + 1] such calls,
    [n + 1] workers run, and [n] of them still do after [dispose]. *)
Theorem every_early_initialize_spawns_a_worker snapshot d n :
  let st := Nat.iter (S n) (λ st, (initialize true true st).2) (new snapshot d) in
  isInitialized st = false
  ∧ processManager st = Some n
  ∧ length (running st) = S n
  ∧ length (running (dispose st)) = n.
Proof.
  intros st. destruct (early_calls snapshot d (S n)) as (Hi & Hm & Hp).
  fold st in Hi, Hm, Hp. destruct st as [p b c dk ms i]. simpl in Hi, Hm, Hp.
  subst b ms p. split_and!; [done..| |].
  - by rewrite (running_fresh (S n)), length_replicate.
  - unfold dispose. cbn [processManager managers].
    change (replicate (S n) fresh) with (fresh :: replicate n fresh).
    rewrite replicate_cons_app.
    assert (length (replicate n fresh) = n) as Hn by apply length_replicate.
    assert ((replicate n fresh ++ [fresh]) !! n = Some fresh) as ->.
    { rewrite lookup_app_r by lia. by rewrite Hn, Nat.sub_diag. }
    unfold running, set_cache, set_managers. cbn [managers].
    rewrite insert_app_r_alt by lia. rewrite Hn, Nat.sub_diag. simpl.
    rewrite filter_app, length_app.
    pose proof (running_fresh n None false c dk []) as Hr. unfold running in Hr.
    simpl in Hr. rewrite Hr, Hn.
    rewrite filter_cons, filter_nil, decide_False; [simpl; lia|].
    by intros [? ?].
Qed.

(** X17.  While [isInitialized] is false, a call of [analyzeFile] that the
    cache does not serve is rejected when [initialize] throws, because
    the script is missing or [spawn] fails: it does not return the empty
    list, no worker is started, and [isInitialized] stays false. *)
Theorem failed_initialization_rejects_the_call filePath w script_exists spawn_ok st :
  isInitialized st = false →
  (Cache.get (disk st) filePath (cache st)).1 = None →
  script_exists && spawn_ok = false →
  (analyzeFile filePath w script_exists spawn_ok st).1 = Rejected
  ∧ isInitialized (analyzeFile filePath w script_exists spawn_ok st).2 = false
  ∧ running (analyzeFile filePath w script_exists spawn_ok st).2 = running st
  ∧ initializing (analyzeFile filePath w script_exists spawn_ok st).2 = initializing st.
Proof.
  intros Hi Hmiss Hfail. unfold analyzeFile.
  destruct (Cache.get (disk st) filePath (cache st)) as [[cached|] c]; [done|].
  simpl. rewrite Hi. unfold initialize_for. simpl. rewrite Hi.
  destruct script_exists; simpl in *; [subst spawn_ok|].
  - simpl. split_and!; [done..| |done]. unfold running. simpl.
    rewrite filter_app, filter_cons, filter_nil.
    rewrite decide_False by (by intros [? ?]). by rewrite app_nil_r.
  - done.
Qed.

(** [processManager] holds one of the managers created. *)
Definition has_manager (st : t) : Prop :=
  ∃ k, processManager st = Some k ∧ (k < length (managers st))%nat.

Lemma has_manager_insert k m st :
  has_manager st → has_manager (set_managers (<[k := m]> (managers st)) st).
Proof. intros (j & Hj & Hlt). exists j. simpl. by rewrite length_insert. Qed.

Lemma has_manager_request filePath w st :
  has_manager st → has_manager (request filePath w st).2.
Proof.
  intros H. unfold request. destruct (processManager st) as [k|]; [|done].
  destruct (managers st !! k); [|done]. by apply has_manager_insert.
Qed.

Lemma has_manager_resume st call : has_manager st → has_manager (resume st call).
Proof.
  intros H. unfold resume. destruct call as [k [[f w]|]]; simpl.
  - apply has_manager_request. by destruct H as (j & ? & ?); exists j.
  - by destruct H as (j & ? & ?); exists j.
Qed.

Lemma has_manager_resumed calls st :
  has_manager st → has_manager (foldl resume st calls).
Proof.
  revert st. induction calls as [|call calls IH]; intros st H; simpl; [done|].
  by apply IH, has_manager_resume.
Qed.

Lemma isInitialized_request filePath w st :
  isInitialized (request filePath w st).2 = isInitialized st.
Proof.
  unfold request. destruct (processManager st) as [k|]; [|done].
  by destruct (managers st !! k).
Qed.

Lemma initializing_request filePath w st :
  initializing (request filePath w st).2 = initializing st.
Proof.
  unfold request. destruct (processManager st) as [k|]; [|done].
  by destruct (managers st !! k).
Qed.

Lemma initializing_resumed calls st :
  initializing (foldl resume st calls) = initializing st.
Proof.
  revert st. induction calls as [|[k [[f w]|]] calls IH]; intros st; simpl; [done|..].
  - rewrite IH. unfold resume. simpl. by rewrite initializing_request.
  - by rewrite IH.
Qed.

Lemma isInitialized_resumed calls st :
  isInitialized (foldl resume st calls) = true → isInitialized st = true ∨ calls ≠ [].
Proof. destruct calls; [by left|by right]. Qed.

(** The invariant behind the non-null assertion of line 1009. *)
Definition held (st : t) : Prop :=
  isInitialized st = true ∨ initializing st ≠ [] → has_manager st.

Lemma held_initialize_for caller script_exists spawn_ok st :
  held st → held (initialize_for caller script_exists spawn_ok st).2.
Proof.
  intros H. unfold initialize_for. destruct (isInitialized st) eqn:Hi; [done|].
  destruct script_exists; [|done]. simpl.
  destruct (Link.start spawn_ok Link.new) as [[] m] eqn:Hs; simpl.
  - intros _. exists (length (managers st)). simpl. rewrite length_app. simpl.
    split; [done|lia].
  - destruct (Link.readyPromise m); intros _; exists (length (managers st)); simpl;
      rewrite length_app; simpl; (split; [done|lia]).
Qed.

Lemma held_request filePath w st : held st → held (request filePath w st).2.
Proof.
  intros H. unfold held. rewrite isInitialized_request, initializing_request.
  intros ?. by apply has_manager_request, H.
Qed.

Lemma held_step e st : held st → held (step e st).
Proof.
  intros H. destruct e as [s ok|f w s ok|k c lines|k c|]; simpl.
  - by apply held_initialize_for.
  - unfold analyzeFile.
    destruct (Cache.get (disk st) f (cache st)) as [[cached|] c]; [done|]. simpl.
    destruct (isInitialized st) eqn:Hi.
    + apply (held_request f w (set_cache c st)). done.
    + pose proof (held_initialize_for (Some (f, w)) s ok (set_cache c st) H) as H'.
      destruct (initialize_for (Some (f, w)) s ok (set_cache c st)) as [[] st2];
        simpl in *; [|done..]. by apply held_request.
  - unfold stdout. destruct (managers st !! k) as [m|]; [|done].
    destruct (Link.is_child c m); [|done].
    destruct (negb (Link.readyPromise m) && Link.readyPromise _).
    + intros Hpost. apply has_manager_resumed.
      assert (has_manager st) as Hm.
      { apply H. rewrite initializing_resumed in Hpost. simpl in Hpost.
        destruct Hpost as [Hpost|Hpost].
        - apply isInitialized_resumed in Hpost as [?|Hne]; [by left|]. right.
          simpl in Hne. intros E. by rewrite E in Hne.
        - right. intros E. by rewrite E in Hpost. }
      destruct Hm as (j & ? & ?). exists j. simpl. by rewrite length_insert.
    + intros Hpost. by apply has_manager_insert, H.
  - unfold exited. destruct (managers st !! k) as [m|]; [|done].
    destruct (Link.is_child c m); [|done]. intros Hpost. by apply has_manager_insert, H.
  - unfold dispose. destruct (processManager st) as [k|] eqn:Hk; [|done].
    destruct (managers st !! k) as [m|] eqn:Hm; [|done].
    intros Hpost. destruct (H Hpost) as (j & ? & ?). exists j. simpl.
    by rewrite length_insert.
Qed.

Lemma reachable_held st : reachable st → held st.
Proof.
  induction 1; [|by apply held_step]. intros [?|?]; done.
Qed.

(** X18.  Once [isInitialized] is true, [processManager] holds a manager: the
    call [this.processManager!.analyzeFile] of line 1009 does not fail
    on null, and the call that makes it is left waiting for the
    manager. *)
Theorem an_initialised_analyzer_holds_a_manager st filePath w :
  reachable st → isInitialized st = true →
  (request filePath w st).1 = Waiting
  ∧ ∃ k m, processManager st = Some k ∧ managers st !! k = Some m.
Proof.
  intros Hr Hi. destruct (reachable_held st Hr (or_introl Hi)) as (k & Hk & Hlt).
  destruct (lookup_lt_is_Some_2 _ _ Hlt) as [m Hm].
  split; [|by eauto]. unfold request. by rewrite Hk, Hm.
Qed.


Definition ready : Link.Line :=
  Link.Message (Link.mkResponse (Some "ready") None None None).

Definition one_file : Disk := mkDisk {[ "/p/a.py" := 10%Z ]} true.

Lemma failed_initialization_rejects_the_call_witness :
  (analyzeFile "/p/a.py" None false true (new None one_file)).1 = Rejected
  ∧ isInitialized (analyzeFile "/p/a.py" None false true (new None one_file)).2 = false
  ∧ running (analyzeFile "/p/a.py" None false true (new None one_file)).2
    = running (new None one_file)
  ∧ initializing (analyzeFile "/p/a.py" None false true (new None one_file)).2
    = initializing (new None one_file).
Proof.
  apply (failed_initialization_rejects_the_call "/p/a.py" None false true
           (new None one_file)); reflexivity.
Defined.

Lemma an_initialised_analyzer_holds_a_manager_witness :
  let st := run [Initialize true true; Stdout 0 1 [ready]] (new None one_file) in
  (request "/p/a.py" None st).1 = Waiting
  ∧ ∃ k m, processManager st = Some k ∧ managers st !! k = Some m.
Proof.
  apply (an_initialised_analyzer_holds_a_manager
           (run [Initialize true true; Stdout 0 1 [ready]] (new None one_file))
           "/p/a.py" None).
  - apply reachable_step, reachable_step, reachable_new.
  - vm_compute. reflexivity.
Defined.

(** A call of [analyzeFile] made while the first worker starts creates
    a second manager and a second worker, and waits for that one.  When
    the first worker is ready the analyzer counts as initialised; the
    call makes its request once the second worker is ready, to the
    second manager; [dispose] then leaves the first worker running. *)
Example a_call_during_the_start_spawns_a_second_worker :
  let st := run [Initialize true true; AnalyzeFile "/p/a.py" None true true;
                 Stdout 0 1 [ready]] (new None one_file) in
  isInitialized st = true
  ∧ processManager st = Some 1
  ∧ length (running st) = 2
  ∧ initializing st = [(1, Some ("/p/a.py", None))]
  ∧ (Link.log <$> managers (run [Stdout 1 1 [ready]] st) !! 1)
    = Some [Link.Wrote 1 "req_1" "/p/a.py"; Link.ReadyFrom 1; Link.Spawned 1]
  ∧ (Link.log <$> managers (dispose st) !! 0) = Some [Link.ReadyFrom 1; Link.Spawned 1]
  ∧ length (running (dispose st)) = 1.
Proof. vm_compute. done. Qed.

(** *** From the start to the initialised analyzer *)

(** Every manager the analyzer has created is in a state a manager can
    be in. *)
Definition genuine (st : t) : Prop := Forall Link.reachable (managers st).

Lemma genuine_insert k m st :
  genuine st → Link.reachable m → genuine (set_managers (<[k := m]> (managers st)) st).
Proof. intros Hg Hm. unfold genuine. simpl. by apply Forall_insert. Qed.

Lemma genuine_request filePath w st : genuine st → genuine (request filePath w st).2.
Proof.
  intros Hg. unfold request. destruct (processManager st) as [k|]; [|done].
  destruct (managers st !! k) as [m|] eqn:Hm; [|done]. simpl.
  apply genuine_insert; [done|].
  apply (Link.reachable_step (Link.AnalyzeFile filePath w)).
  by apply (Forall_lookup_1 _ _ _ _ Hg Hm).
Qed.

Lemma genuine_initialize_for caller script_exists spawn_ok st :
  genuine st → genuine (initialize_for caller script_exists spawn_ok st).2.
Proof.
  intros Hg. unfold initialize_for. destruct (isInitialized st); [done|].
  destruct script_exists; [|done]. simpl.
  assert (Link.reachable (Link.start spawn_ok Link.new).2) as Hm
    by apply (Link.reachable_step (Link.Start spawn_ok)), Link.reachable_new.
  destruct (Link.start spawn_ok Link.new) as [[|] m]; simpl in *.
  - apply Forall_app. by split; [|constructor].
  - destruct (Link.readyPromise m); simpl; apply Forall_app; by split; [|constructor].
Qed.

Lemma genuine_resumed calls st : genuine st → genuine (foldl resume st calls).
Proof.
  revert st. induction calls as [|[k [[f w]|]] calls IH]; intros st Hg; simpl; [done|..];
    apply IH; unfold resume; simpl; [|done].
  by apply (genuine_request f w (set_isInitialized true st)).
Qed.

Lemma genuine_step e st : genuine st → genuine (step e st).
Proof.
  intros Hg. destruct e as [se so|f w se so|k c lines|k c|]; simpl.
  - by apply genuine_initialize_for.
  - unfold analyzeFile. destruct (Cache.get _ _ _) as [[cached|] c0]; [done|]. simpl.
    destruct (isInitialized st) eqn:Hi.
    + by apply (genuine_request f w (set_cache c0 st)).
    + pose proof (genuine_initialize_for (Some (f, w)) se so (set_cache c0 st) Hg) as Hg'.
      destruct (initialize_for _ _ _ _) as [[| |] st2]; simpl in *; [|done..].
      by apply genuine_request.
  - unfold stdout. destruct (managers st !! k) as [m|] eqn:Hm; [|done].
    destruct (Link.is_child c m) eqn:Hch; [|done].
    assert (genuine (set_managers (<[k := Link.processOutput c lines m]> (managers st)) st))
      as Hg'.
    { apply genuine_insert; [done|].
      pose proof (Link.reachable_step (Link.Stdout c lines) m
                    (Forall_lookup_1 _ _ _ _ Hg Hm)) as H. simpl in H.
      by rewrite Hch in H. }
    destruct (negb _ && _); [|done]. by apply genuine_resumed.
  - unfold exited. destruct (managers st !! k) as [m|] eqn:Hm; [|done].
    destruct (Link.is_child c m) eqn:Hch; [|done].
    apply genuine_insert; [done|].
    pose proof (Link.reachable_step (Link.ChildExit c) m
                  (Forall_lookup_1 _ _ _ _ Hg Hm)) as H. simpl in H.
    by rewrite Hch in H.
  - unfold dispose. destruct (processManager st) as [k|]; [|done].
    destruct (managers st !! k) as [m|] eqn:Hm; [|done].
    apply (genuine_insert k (Link.dispose m) st); [done|].
    apply (Link.reachable_step Link.Dispose). by apply (Forall_lookup_1 _ _ _ _ Hg Hm).
Qed.

Lemma reachable_genuine st : reachable st → genuine st.
Proof. induction 1; [by constructor|by apply genuine_step]. Qed.

(** Once [isInitialized] is true, the analyzer is in a state from which
    [PythonOverrideAnalyzer] starts: it holds a manager, in a state a
    manager can be in, which need not be ready. *)
Lemma initialised_analyzer_is_covered st :
  reachable st → isInitialized st = true →
  ∃ k m, processManager st = Some k ∧ managers st !! k = Some m
         ∧ PythonOverrideAnalyzer.reachable
             (PythonOverrideAnalyzer.initialized_with m (cache st) (disk st)).
Proof.
  intros Hr Hi. destruct (reachable_held st Hr (or_introl Hi)) as (k & Hk & Hlt).
  destruct (lookup_lt_is_Some_2 _ _ Hlt) as [m Hm]. exists k, m. split_and!; [done..|].
  apply PythonOverrideAnalyzer.reachable_initialized.
  by apply (Forall_lookup_1 _ _ _ _ (reachable_genuine st Hr) Hm).
Qed.

(** Two calls of [initialize] before any ready signal, then the ready
    signal of the first manager: [isInitialized] is true, and the manager
    the field holds, the second, is not ready. *)
Example an_initialised_analyzer_may_hold_an_unready_manager :
  let st := run [Initialize true true; Initialize true true; Stdout 0 1 [ready]]
              (new None one_file) in
  isInitialized st = true
  ∧ processManager st = Some 1
  ∧ (Link.readyPromise <$> managers st) = [true; false].
Proof. vm_compute. done. Qed.

End AnalyzerStartupFacts.

(** ** The document managers: disposal, and a callback that is late *)

Module DocumentManagerDisposal.
Import DocumentManagerStatusBar.

(** The part of the state that is the manager without its status bar
    follows the manager's own transitions. *)
Lemma manager_handle e s :
  manager (handle e s)
  = match e with
    | Manager e' => DocumentManager.handle e' (manager s)
    | RefreshAnalysis filePath =>
        DocumentManager.performAnalysis filePath
          (DocumentManager.clearCache filePath (manager s))
    | _ => manager s
    end.
Proof.
  destruct e as [e'| |f|k ok|]; simpl; try done.
  - destruct e'; simpl; try done. unfold timerFires, DocumentManager.timerFires.
    by destruct (DocumentManager.timers (manager s) !! h) as [[f d]|].
  - unfold decorationsUpdated. by destruct (decorating s !! k).
  - unfold statusTimerFires. by destruct (hiding s).
Qed.

Lemma reachable_manager_consistent s :
  reachable s → DocumentManagerFacts.queue_consistent (manager s).
Proof.
  induction 1 as [|e s Hr IH]; [apply DocumentManagerFacts.queue_consistent_new|].
  rewrite manager_handle. destruct e as [e'| |f|k ok|]; try done.
  - by apply DocumentManagerFacts.queue_consistent_handle.
  - destruct IH. by split.
Qed.

(** Once disposed of, always disposed of. *)
Lemma disposed_handle e s : disposed s = true → disposed (handle e s) = true.
Proof.
  intros Hd. destruct e as [e'| |f|k ok|]; simpl; try done.
  - destruct e'; simpl; try done. unfold timerFires.
    by destruct (DocumentManager.timers (manager s) !! h) as [[f d]|].
  - unfold decorationsUpdated. by destruct (decorating s !! k).
  - unfold statusTimerFires. by destruct (hiding s).
Qed.

Lemma disposed_run es s : disposed s = true → disposed (run es s) = true.
Proof.
  revert s. induction es as [|e es IH]; intros s Hd; simpl; [done|].
  by apply IH, disposed_handle.
Qed.

(** X19.  [dispose()] cancels every analysis that is scheduled: the queue
    is empty, no timer of [scheduleAnalysis] is armed, and whichever of
    the handles given out is due afterwards, no callback of
    [scheduleAnalysis] runs.  It leaves alone the timers that hide the
    status bar item: those that are armed stay armed, a call of
    [performAnalysis] that is suspended in [updateDecorations] arms one
    more when it goes on, and whenever such a timer fires afterwards,
    [hide()] is called on the item that has been disposed of. *)
Theorem dispose_cancels_every_scheduled_analysis s :
  reachable s →
  let s' := handle (Manager DocumentManager.Dispose) s in
  DocumentManager.analysisQueue (manager s') = ∅
  ∧ DocumentManager.timers (manager s') = ∅
  ∧ (∀ hs, run ((λ h, Manager (DocumentManager.TimerFires h)) <$> hs) s' = s')
  ∧ hiding s' = hiding s
  ∧ decorating s' = decorating s
  ∧ (∀ k filePath,
       decorating s !! k = Some filePath →
       hiding (handle (DecorationsUpdated k true) s') = S (hiding s))
  ∧ ∀ es,
      (0 < hiding (run es s'))%nat →
      hiding (handle StatusTimerFires (run es s')) = Nat.pred (hiding (run es s'))
      ∧ hides (handle StatusTimerFires (run es s')) = true :: hides (run es s').
Proof.
  intros [Hq Ht Hn]%reachable_manager_consistent s'.
  assert (DocumentManager.timers (manager s') = ∅) as Hts.
  { apply map_eq. intros h. rewrite lookup_empty. unfold s'. simpl.
    destruct (map_fold _ _ _ !! h) as [[f d]|] eqn:E; [|done].
    apply DocumentManagerFacts.clear_queue_lookup in E as [E Hno].
    exfalso. apply (Hno f). by apply (Ht h f d). }
  split_and!; [done|done| |done|done| |].
  - intros hs. induction hs as [|h hs IH]; [done|]. simpl.
    unfold timerFires at 1. rewrite Hts, lookup_empty. apply IH.
  - intros k f Hk. simpl. unfold decorationsUpdated. simpl. by rewrite Hk.
  - intros es Hpos.
    assert (disposed (run es s') = true) as Hd by (by apply disposed_run).
    simpl. unfold statusTimerFires.
    destruct (hiding (run es s')) as [|n]; [lia|]. simpl. by rewrite Hd.
Qed.

(** [/p/a.py] is in the active editor; its analysis has run and armed a
    timer that hides the status bar item; a second analysis of the file
    is suspended in [updateDecorations], and a third is scheduled. *)
Definition busy : t :=
  let a := mkTextDocument "/p/a.py" "python" in
  run [Manager (DocumentManager.DidChangeActiveTextEditor (Some a));
       Manager (DocumentManager.TimerFires 1); DecorationsUpdated 0 true;
       Manager (DocumentManager.DidSaveTextDocument a);
       Manager (DocumentManager.TimerFires 2);
       Manager (DocumentManager.DidChangeTextDocument a)] new.

Lemma dispose_cancels_every_scheduled_analysis_witness :
  let s' := handle (Manager DocumentManager.Dispose) busy in
  DocumentManager.timers (manager busy) = {[ 3 := ("/p/a.py", 1000) ]}
  ∧ DocumentManager.timers (manager s') = ∅
  ∧ hiding s' = 1
  ∧ hiding (handle (DecorationsUpdated 0 true) s') = 2
  ∧ hides (handle StatusTimerFires s') = [true].
Proof.
  assert (reachable busy) as Hr by (repeat apply reachable_handle; apply reachable_new).
  destruct (dispose_cancels_every_scheduled_analysis busy Hr)
    as (_ & Hts & _ & Hh & _ & Hd & Hf).
  split_and!.
  - vm_compute. reflexivity.
  - exact Hts.
  - exact Hh.
  - apply (Hd 0 "/p/a.py"). vm_compute. reflexivity.
  - apply (Hf []). vm_compute. lia.
Defined.

End DocumentManagerDisposal.

(** ** Insertion-ordered maps *)

Module OrderedMapFacts.
Import OrderedMap.
Section OrderedMapFacts.
Context {K V : Type} `{EqDecision K}.
Implicit Types (m : list (K * V)).

Lemma ordered_get_set k v m k' :
  get k' (set k v m) = if decide (k' = k) then Some v else get k' m.
Proof.
  induction m as [|[k0 v0] m IH]; simpl.
  - by destruct (decide (k' = k)).
  - destruct (decide (k = k0)) as [->|]; simpl.
    + by destruct (decide (k' = k0)).
    + rewrite IH. destruct (decide (k' = k0)) as [->|]; [by rewrite decide_False|done].
Qed.

Lemma ordered_keys_set k v m :
  (set k v m).*1 = if decide (k ∈ m.*1) then m.*1 else m.*1 ++ [k].
Proof.
  induction m as [|[k0 v0] m IH].
  - simpl. done.
  - rewrite fmap_cons. simpl set. destruct (decide (k = k0)) as [->|Hne].
    + rewrite decide_True; [done|]. by left.
    + rewrite fmap_cons, IH. simpl. destruct (decide (k ∈ m.*1)) as [Hin|Hin].
      * rewrite decide_True; [done|]. by right.
      * rewrite decide_False; [done|]. intros [?|?]%elem_of_cons; done.
Qed.

Lemma ordered_NoDup_set k v m : NoDup m.*1 → NoDup (set k v m).*1.
Proof.
  intros Hm. rewrite ordered_keys_set. case_decide as Hin; [done|].
  apply NoDup_app. split_and!; [done| |apply NoDup_singleton].
  intros x Hx ->%list_elem_of_singleton. done.
Qed.

Lemma ordered_get_None k m : get k m = None ↔ k ∉ m.*1.
Proof.
  induction m as [|[k0 v0] m IH]; simpl.
  - split; [intros _ ?%elem_of_nil; done|done].
  - case_decide; subst.
    + split; [done|]. intros H. exfalso. apply H. by left.
    + rewrite IH. split.
      * intros Hn [?|?]%elem_of_cons; done.
      * intros Hn ?. apply Hn. by right.
Qed.

Lemma ordered_elem_of_get k v m : NoDup m.*1 → (k, v) ∈ m ↔ get k m = Some v.
Proof.
  induction m as [|[k0 v0] m IH]; simpl; intros Hm.
  - split; [intros ?%elem_of_nil; done|done].
  - apply NoDup_cons in Hm as [Hk0 Hm]. case_decide; subst.
    + split.
      * intros [[= ->]|Hin]%elem_of_cons; [done|].
        exfalso. apply Hk0. apply list_elem_of_fmap. by exists (k0, v).
      * intros [= ->]. by left.
    + rewrite <- (IH Hm). split.
      * intros [[= -> ->]|Hin]%elem_of_cons; done.
      * intros ?. by right.
Qed.

Lemma ordered_elem_of_set k k' v v' m :
  (k', v') ∈ set k v m → (k', v') = (k, v) ∨ (k', v') ∈ m.
Proof.
  induction m as [|[k0 v0] m IH]; simpl.
  - intros ->%list_elem_of_singleton. by left.
  - case_decide; subst.
    + intros [->|?]%elem_of_cons; [by left|]. right. by right.
    + intros [->|?]%elem_of_cons; [right; by left|].
      destruct IH as [?|?]; [done|by left|]. right. by right.
Qed.

Lemma ordered_get_elem_of k v m : get k m = Some v → (k, v) ∈ m.
Proof.
  induction m as [|[k0 v0] m IH]; simpl; [done|].
  case_decide; subst.
  - intros [= ->]. by left.
  - intros ?. right. auto.
Qed.

End OrderedMapFacts.

End OrderedMapFacts.

(** ** Decorations *)

Module OverrideDecorationProviderFacts.
Import OverrideDecorationProvider.

(** Line [l], counted from 0, is a line of a document of [count]
    lines. *)
Definition in_document (count : nat) (l : Z) : bool :=
  (0 <=? l)%Z && (l <? Z.of_nat count)%Z.

(** The last of the [overrides] of type [ty] whose [line] (counted from
    1) is line [l] (counted from 0). *)
Definition last_on_line (ty : string) (l : Z) (overrides : list OverrideInfo)
    : option OverrideInfo :=
  last (filter (λ o, line o = Some (l + 1)%Z ∧ type_ o = Some ty) overrides).

Definition decoration (l : Z) (o : OverrideInfo) : Decoration :=
  mkDecoration l (Some o).

Lemma last_on_line_snoc ty l overrides o :
  last_on_line ty l (overrides ++ [o]) =
    if decide (line o = Some (l + 1)%Z ∧ type_ o = Some ty) then Some o
    else last_on_line ty l overrides.
Proof.
  unfold last_on_line. rewrite filter_app, filter_cons, filter_nil.
  case_decide; [by rewrite last_snoc|by rewrite app_nil_r].
Qed.

Lemma last_on_line_elem ty l overrides o :
  last_on_line ty l overrides = Some o →
  o ∈ overrides ∧ line o = Some (l + 1)%Z ∧ type_ o = Some ty.
Proof.
  unfold last_on_line. intros H%last_Some_elem_of.
  by apply list_elem_of_filter in H as [[? ?] ?].
Qed.

(** What the first loop leaves in [lineMap]. *)
Definition entry_of (l : Z) (overrides : list OverrideInfo) : LineEntry :=
  mkLineEntry (decoration l <$> last_on_line "child_override" l overrides)
              (decoration l <$> last_on_line "parent_overridden" l overrides).

Definition seen (l : Z) (overrides : list OverrideInfo) : bool :=
  bool_decide (Exists (λ o, line o = Some (l + 1)%Z) overrides).

Lemma entry_of_unseen l overrides :
  seen l overrides = false → entry_of l overrides = mkLineEntry None None.
Proof.
  intros Hs. apply bool_decide_eq_false in Hs. unfold entry_of.
  assert (∀ ty, last_on_line ty l overrides = None) as H.
  { intros ty. destruct (last_on_line ty l overrides) as [o|] eqn:E; [|done].
    apply last_on_line_elem in E as (Hin & Hl & _). exfalso. apply Hs.
    apply Exists_exists. eauto. }
  by rewrite !H.
Qed.

Lemma seen_snoc l overrides o :
  seen l (overrides ++ [o]) = seen l overrides || bool_decide (line o = Some (l + 1)%Z).
Proof.
  unfold seen. apply eq_true_iff_eq.
  rewrite orb_true_iff, !bool_decide_eq_true, Exists_app, Exists_cons, Exists_nil.
  tauto.
Qed.

Lemma entry_of_snoc l overrides o :
  entry_of l (overrides ++ [o]) =
    if decide (line o = Some (l + 1)%Z) then
      if is_child_override o
      then mkLineEntry (Some (decoration l o)) (entry_parent (entry_of l overrides))
      else if is_parent_overridden o
      then mkLineEntry (entry_child (entry_of l overrides)) (Some (decoration l o))
      else entry_of l overrides
    else entry_of l overrides.
Proof.
  unfold entry_of, is_child_override, is_parent_overridden.
  rewrite !last_on_line_snoc. simpl.
  destruct (decide (line o = Some (l + 1)%Z)) as [Hl|Hl].
  - destruct (decide (type_ o = Some "child_override")) as [Hc|Hc].
    + rewrite (bool_decide_eq_true_2 _ Hc), decide_True by done.
      rewrite decide_False; [done|]. intros [_ ?]. congruence.
    + rewrite (bool_decide_eq_false_2 _ Hc), (decide_False (P := _ ∧ _ = Some "child_override")) by tauto.
      destruct (decide (type_ o = Some "parent_overridden")) as [Hp|Hp].
      * by rewrite (bool_decide_eq_true_2 _ Hp), decide_True.
      * rewrite (bool_decide_eq_false_2 _ Hp), decide_False by tauto. done.
  - rewrite !decide_False by tauto. done.
Qed.

Lemma lineMap_spec count overrides :
  NoDup (foldl (collect count) ([], []) overrides).1.*1
  ∧ ∀ l, OrderedMap.get l (foldl (collect count) ([], []) overrides).1 =
         if in_document count l && seen l overrides
         then Some (entry_of l overrides) else None.
Proof.
  induction overrides as [|o overrides IH] using rev_ind.
  - simpl. split; [constructor|]. intros l. by rewrite andb_false_r.
  - rewrite foldl_app. simpl.
    destruct (foldl (collect count) ([], []) overrides) as [lineMap classMap].
    simpl in IH. destruct IH as [Hnd Hget].
    assert (∀ l, in_document count l = true →
                 default (mkLineEntry None None) (OrderedMap.get l lineMap)
                 = entry_of l overrides) as Hentry.
    { intros l Hl. rewrite Hget, Hl. simpl.
      destruct (seen l overrides) eqn:Hs; [done|]. by rewrite entry_of_unseen. }
    unfold collect. simpl.
    destruct (line o) as [n|] eqn:Hn.
    + destruct ((0 <=? n - 1)%Z && (n - 1 <? Z.of_nat count)%Z) eqn:Hr; simpl.
      * split; [by apply OrderedMapFacts.ordered_NoDup_set|]. intros l.
        rewrite OrderedMapFacts.ordered_get_set, seen_snoc, entry_of_snoc, Hn.
        destruct (decide (l = (n - 1)%Z)) as [->|Hne].
        -- fold (in_document count (n - 1)) in Hr. rewrite Hr, Hentry by done.
           rewrite decide_True by (f_equal; lia).
           rewrite (bool_decide_eq_true_2 (Some n = Some (n - 1 + 1)%Z)) by (f_equal; lia).
           by rewrite orb_true_r.
        -- rewrite Hget. rewrite decide_False by (intros [= ->]; lia).
           rewrite (bool_decide_eq_false_2 (Some n = Some (l + 1)%Z)) by (intros [= ->]; lia).
           by rewrite orb_false_r.
      * split; [done|]. intros l. rewrite Hget, seen_snoc, entry_of_snoc, Hn.
        destruct (decide (Some n = Some (l + 1)%Z)) as [[= ->]|Hne].
        -- replace (l + 1 - 1)%Z with l in Hr by lia.
           fold (in_document count l) in Hr. by rewrite Hr.
        -- rewrite (bool_decide_eq_false_2 _ Hne). by rewrite orb_false_r.
    + split; [done|]. intros l. rewrite Hget, seen_snoc, entry_of_snoc, Hn.
      rewrite decide_False by done. rewrite bool_decide_eq_false_2 by done.
      by rewrite orb_false_r.
Qed.

Definition pick_child (types : LineEntry) : option Decoration :=
  match entry_child types, entry_parent types with
  | Some child, None => Some child
  | _, _ => None
  end.

Definition pick_parent (types : LineEntry) : option Decoration :=
  match entry_child types, entry_parent types with
  | None, Some parent => Some parent
  | _, _ => None
  end.

Definition pick_both (types : LineEntry) : option Decoration :=
  match entry_child types, entry_parent types with
  | Some child, Some _ => Some child
  | _, _ => None
  end.

Lemma foldl_assign arrays entries :
  foldl assign arrays entries =
    mkDecorations (childOverrideDecorations arrays ++ omap pick_child entries)
      (parentOverriddenDecorations arrays ++ omap pick_parent entries)
      (bothDecorations arrays ++ omap pick_both entries).
Proof.
  revert arrays. induction entries as [|[[c|] [p|]] entries IH]; intros [cs ps bs];
    simpl; rewrite ?IH; simpl; rewrite ?app_nil_r, <- ?(assoc_L (++)); done.
Qed.

Lemma lineMap_elem count overrides types :
  types ∈ (foldl (collect count) ([], []) overrides).1.*2 ↔
  ∃ l, in_document count l = true ∧ seen l overrides = true
       ∧ types = entry_of l overrides.
Proof.
  destruct (lineMap_spec count overrides) as [Hnd Hget].
  rewrite list_elem_of_fmap. split.
  - intros ([l e] & -> & Hin). simpl.
    apply (OrderedMapFacts.ordered_elem_of_get _ _ _ Hnd) in Hin. rewrite Hget in Hin.
    exists l. destruct (in_document count l); [|done].
    destruct (seen l overrides); [|done]. simpl in Hin. by injection Hin as <-.
  - intros (l & Hl & Hs & ->). exists (l, entry_of l overrides). split; [done|].
    apply (OrderedMapFacts.ordered_elem_of_get _ _ _ Hnd). by rewrite Hget, Hl, Hs.
Qed.

Lemma last_on_line_seen ty l overrides o :
  last_on_line ty l overrides = Some o → seen l overrides = true.
Proof.
  intros (Hin & Hl & _)%last_on_line_elem. apply bool_decide_eq_true.
  apply Exists_exists. eauto.
Qed.

(** X20.  Which icon a line gets for its methods.  A line of the document on
    which the overrides hold both a [child_override] and a
    [parent_overridden] gets the combined icon, with the hover of the
    last [child_override] on it; a line with overrides of one of the two
    types only gets the icon of that type, with the hover of the last of
    them; no other decoration is made for methods. *)
Theorem method_icon_follows_the_last_override_on_its_line count overrides d :
  (d ∈ bothDecorations (methodDecorations count overrides) ↔
     ∃ l o, in_document count l = true
            ∧ last_on_line "child_override" l overrides = Some o
            ∧ is_Some (last_on_line "parent_overridden" l overrides)
            ∧ d = decoration l o)
  ∧ (d ∈ childOverrideDecorations (methodDecorations count overrides) ↔
     ∃ l o, in_document count l = true
            ∧ last_on_line "child_override" l overrides = Some o
            ∧ last_on_line "parent_overridden" l overrides = None
            ∧ d = decoration l o)
  ∧ (d ∈ parentOverriddenDecorations (methodDecorations count overrides) ↔
     ∃ l o, in_document count l = true
            ∧ last_on_line "child_override" l overrides = None
            ∧ last_on_line "parent_overridden" l overrides = Some o
            ∧ d = decoration l o).
Proof.
  unfold methodDecorations. rewrite foldl_assign. simpl.
  rewrite !list_elem_of_omap.
  split_and!; split.
  - intros (types & (l & Hl & Hs & ->)%lineMap_elem & Hp). exists l.
    unfold pick_both, entry_of in Hp. simpl in Hp.
    destruct (last_on_line "child_override" l overrides) as [o|]; [|done].
    destruct (last_on_line "parent_overridden" l overrides) as [p|]; [|done].
    simpl in Hp. injection Hp as <-. exists o. eauto.
  - intros (l & o & Hl & Hc & [p Hp] & ->). exists (entry_of l overrides). split.
    + apply lineMap_elem. exists l. split_and!; [done| |done].
      by apply (last_on_line_seen _ _ _ _ Hc).
    + unfold pick_both, entry_of. by rewrite Hc, Hp.
  - intros (types & (l & Hl & Hs & ->)%lineMap_elem & Hp). exists l.
    unfold pick_child, entry_of in Hp. simpl in Hp.
    destruct (last_on_line "child_override" l overrides) as [o|]; [|done].
    destruct (last_on_line "parent_overridden" l overrides) as [p|]; [done|].
    simpl in Hp. injection Hp as <-. exists o. eauto.
  - intros (l & o & Hl & Hc & Hp & ->). exists (entry_of l overrides). split.
    + apply lineMap_elem. exists l. split_and!; [done| |done].
      by apply (last_on_line_seen _ _ _ _ Hc).
    + unfold pick_child, entry_of. by rewrite Hc, Hp.
  - intros (types & (l & Hl & Hs & ->)%lineMap_elem & Hp). exists l.
    unfold pick_parent, entry_of in Hp. simpl in Hp.
    destruct (last_on_line "child_override" l overrides) as [o|]; [done|].
    destruct (last_on_line "parent_overridden" l overrides) as [p|]; [|done].
    simpl in Hp. injection Hp as <-. exists p. eauto.
  - intros (l & o & Hl & Hc & Hp & ->). exists (entry_of l overrides). split.
    + apply lineMap_elem. exists l. split_and!; [done| |done].
      by apply (last_on_line_seen _ _ _ _ Hp).
    + unfold pick_parent, entry_of. by rewrite Hc, Hp.
Qed.

Definition pick_any (types : LineEntry) : option Decoration :=
  match entry_child types, entry_parent types with
  | Some child, _ => Some child
  | None, parent => parent
  end.

Lemma picks_permutation entries :
  omap pick_child entries ++ omap pick_parent entries ++ omap pick_both entries
  ≡ₚ omap pick_any entries.
Proof.
  induction entries as [|[[c|] [p|]] entries IH]; simpl; [done|..].
  - unfold pick_child, pick_parent, pick_both, pick_any at 1. simpl.
    rewrite <- IH. by rewrite <- !Permutation_middle.
  - unfold pick_child, pick_parent, pick_both, pick_any at 1. simpl.
    by rewrite <- IH.
  - unfold pick_child, pick_parent, pick_both, pick_any at 1. simpl.
    rewrite <- IH. by rewrite <- !Permutation_middle.
  - unfold pick_child, pick_parent, pick_both, pick_any at 1. simpl. done.
Qed.

Lemma picked_ranges (lineMap : list (Z * LineEntry)) :
  NoDup lineMap.*1 →
  (∀ l types d, (l, types) ∈ lineMap → pick_any types = Some d → range d = l) →
  NoDup (range <$> omap pick_any lineMap.*2)
  ∧ ∀ l, l ∈ range <$> omap pick_any lineMap.*2 → l ∈ lineMap.*1.
Proof.
  induction lineMap as [|[l types] lineMap IH]; intros Hnd Hr.
  - simpl. split; [constructor|done].
  - rewrite fmap_cons in Hnd. apply NoDup_cons in Hnd as [Hl Hnd].
    destruct IH as [IH1 IH2]; [done|intros; eapply Hr; [by right|done]|].
    rewrite !fmap_cons. simpl.
    destruct (pick_any types) as [d|] eqn:Hd; simpl.
    + rewrite (Hr l types d); [|by left|done]. split.
      * apply NoDup_cons. split; [|done]. intros ?%IH2. done.
      * intros l' [->|?%IH2]%elem_of_cons; [by left|by right].
    + split; [done|]. intros l' ?%IH2. by right.
Qed.

(** X21.  A line carries at most one method-level icon. *)
Theorem a_line_gets_one_method_icon count overrides :
  NoDup (range <$> (childOverrideDecorations (methodDecorations count overrides)
                    ++ parentOverriddenDecorations (methodDecorations count overrides)
                    ++ bothDecorations (methodDecorations count overrides))).
Proof.
  unfold methodDecorations. rewrite foldl_assign. simpl.
  rewrite picks_permutation.
  destruct (lineMap_spec count overrides) as [Hnd Hget].
  apply picked_ranges; [done|].
  intros l types d Hin Hd.
  apply (OrderedMapFacts.ordered_elem_of_get _ _ _ Hnd) in Hin. rewrite Hget in Hin.
  destruct (_ && _); [|done]. injection Hin as <-.
  unfold pick_any, entry_of in Hd. simpl in Hd.
  destruct (last_on_line "child_override" l overrides); simpl in Hd.
  - by injection Hd as <-.
  - destruct (last_on_line "parent_overridden" l overrides); simpl in Hd; [|done].
    by injection Hd as <-.
Qed.

Section ClassPattern.
Variable class_pattern : string → option (string → bool).

Lemma findClassLine_bound editor className classLine :
  findClassLine class_pattern editor className = Some (Some classLine) →
  in_document (lineCount editor) (Z.of_nat classLine) = true.
Proof.
  unfold findClassLine.
  destruct (class_pattern className) as [test|]; [|done].
  destruct (list_find _ _) as [[i t]|] eqn:E; [|done]. simpl. intros [= <-].
  apply list_find_Some in E as (Hi & _). apply lookup_lt_Some in Hi.
  unfold in_document, lineCount. apply andb_true_iff. split.
  - apply Z.leb_le. lia.
  - apply Z.ltb_lt. lia.
Qed.

(** Every decoration of the arrays is on a line of the document. *)
Definition inside (count : nat) (arrays : Decorations) : Prop :=
  ∀ d, d ∈ childOverrideDecorations arrays ++ parentOverriddenDecorations arrays
           ++ bothDecorations arrays →
       in_document count (range d) = true.

Lemma picked_in_document count overrides types d :
  types ∈ (foldl (collect count) ([], []) overrides).1.*2 →
  entry_child types = Some d ∨ entry_parent types = Some d →
  in_document count (range d) = true.
Proof.
  intros (l & Hl & _ & ->)%lineMap_elem. unfold entry_of. simpl.
  intros [H|H].
  - destruct (last_on_line "child_override" l overrides); [|done].
    simpl in H. by injection H as <-.
  - destruct (last_on_line "parent_overridden" l overrides); [|done].
    simpl in H. by injection H as <-.
Qed.

Lemma inside_methodDecorations count overrides :
  inside count (methodDecorations count overrides).
Proof.
  intros d. unfold methodDecorations. rewrite foldl_assign. simpl.
  rewrite !elem_of_app, !list_elem_of_omap.
  intros [(types & Hin & Hp)|[(types & Hin & Hp)|(types & Hin & Hp)]];
    apply (picked_in_document count overrides types d Hin);
    unfold pick_child, pick_parent, pick_both in Hp;
    destruct (entry_child types), (entry_parent types); simplify_eq; auto.
Qed.

Lemma inside_assignClass editor arrays entry arrays' :
  inside (lineCount editor) arrays →
  assignClass class_pattern editor (Some arrays) entry = Some arrays' →
  inside (lineCount editor) arrays'.
Proof.
  intros H. unfold assignClass.
  destruct (findClassLine class_pattern editor entry.1) as [[classLine|]|] eqn:E;
    [|by intros [= <-]|done].
  apply findClassLine_bound in E.
  destruct (flag_child entry.2), (flag_parent entry.2); simpl; intros [= <-];
    try done; intros d; simpl; rewrite !elem_of_app, ?list_elem_of_singleton;
    intros Hd; destruct_or!; subst; try done; apply H; rewrite !elem_of_app; auto.
Qed.

(** X22.  Whatever [updateDecorations] hands to [setDecorations] lies on a
    line of the document, and the document is a Python document. *)
Theorem decorations_lie_inside_the_document editor analysis arrays d :
  updateDecorations class_pattern editor analysis = Some arrays →
  d ∈ childOverrideDecorations arrays ++ parentOverriddenDecorations arrays
      ++ bothDecorations arrays →
  in_document (lineCount editor) (range d) = true
  ∧ is_python (document editor) = true.
Proof.
  unfold updateDecorations. destruct (is_python (document editor)); [|done]. simpl.
  destruct analysis as [overrides|]; [|done]. intros Hf Hd. split; [|done].
  revert Hf d Hd.
  generalize (inside_methodDecorations (lineCount editor) overrides).
  generalize (methodDecorations (lineCount editor) overrides).
  generalize ((foldl (collect (lineCount editor)) ([], []) overrides).2).
  intros classMap. induction classMap as [|entry classMap IH]; intros a Ha; cbn [foldl].
  - by intros [= <-].
  - destruct (assignClass class_pattern editor (Some a) entry) as [a1|] eqn:E.
    + apply IH. by eapply inside_assignClass.
    + intros Hf. exfalso. clear -Hf.
      induction classMap as [|e m IH]; cbn [foldl] in Hf; [done|]. auto.
Qed.

End ClassPattern.


(** *** A document of three lines *)

(** A pattern that matches the lines starting with [class] and the
    name. *)
Definition class_prefix (className : string) : option (string → bool) :=
  Some (String.prefix ("class " +:+ className)).

Definition dog_py : Editor :=
  mkEditor (mkTextDocument "/p/a.py" "python")
    ["class Dog(Animal):"; "    def speak(self):"; "        pass"].

(** [Dog.speak], on line 2, overrides [Animal.speak] and is overridden
    by [Puppy.speak]; [Cat.purr] is reported on a line the document does
    not have. *)
Definition speak : OverrideInfo :=
  mkOverrideInfo "Dog" (Some "speak") (Some 2%Z) None (Some "child_override")
    (Some "Animal") (Some "b.py") (Some "/p/b.py") (Some 2%Z) None
    None None None None None.

Definition speak_overridden : OverrideInfo :=
  mkOverrideInfo "Dog" (Some "speak") (Some 2%Z) None (Some "parent_overridden")
    None None None None None
    (Some "Puppy") (Some "c.py") (Some "/p/c.py") (Some 7%Z) None.

Definition purr : OverrideInfo :=
  mkOverrideInfo "Cat" (Some "purr") (Some 9%Z) None (Some "child_override")
    (Some "Animal") (Some "b.py") (Some "/p/b.py") (Some 4%Z) None
    None None None None None.

Lemma decorations_lie_inside_the_document_witness :
  in_document (lineCount dog_py) (range (mkDecoration 0 None)) = true
  ∧ is_python (document dog_py) = true.
Proof.
  apply (decorations_lie_inside_the_document class_prefix dog_py (Some [speak])
           (mkDecorations [mkDecoration 1 (Some speak); mkDecoration 0 None] [] [])
           (mkDecoration 0 None)).
  - vm_compute. reflexivity.
  - apply (list_elem_of_lookup_2 _ 1). reflexivity.
Defined.

(** With the three overrides, line 2 and the line of [class Dog] get the
    combined icon, line 2 with the hover of the [child_override]; [Cat]
    and its method get nothing. *)
Example both_relations_on_a_line :
  updateDecorations class_prefix dog_py (Some [speak; speak_overridden; purr])
  = Some (mkDecorations [] [] [mkDecoration 1 (Some speak); mkDecoration 0 None]).
Proof. vm_compute. reflexivity. Qed.

End OverrideDecorationProviderFacts.

(** ** Code lenses *)

Module OverrideCodeLensProviderFacts.
Import OverrideCodeLensProvider.
Import OverrideDecorationProviderFacts.

Lemma foldl_option_invariant {A B} (f : option A → B → option A) (P : A → Prop) :
  (∀ b, f None b = None) →
  (∀ a b a', P a → f (Some a) b = Some a' → P a') →
  ∀ bs a a', P a → foldl f (Some a) bs = Some a' → P a'.
Proof.
  intros Hnone Hstep bs. induction bs as [|b bs IH]; intros a a' Ha; simpl.
  - by intros [= <-].
  - destruct (f (Some a) b) as [a1|] eqn:E.
    + apply IH. by eapply Hstep.
    + intros H. exfalso. clear -H Hnone.
      induction bs as [|b' bs IH]; simpl in H; [done|]. rewrite Hnone in H. auto.
Qed.

(** The keys of a map of targets are the names of its targets, each
    once. *)
Definition keyed (targets : list (string * Target)) : Prop :=
  NoDup targets.*1
  ∧ ∀ name target, (name, target) ∈ targets → target_name target = name.

Lemma keyed_nil : keyed [].
Proof. split; [constructor|]. by intros ? ? ?%elem_of_nil. Qed.

Lemma keyed_set name path l targets :
  keyed targets → keyed (OrderedMap.set name (mkTarget name path l) targets).
Proof.
  intros [Hnd Hk]. split; [by apply OrderedMapFacts.ordered_NoDup_set|].
  intros n t [[= -> ->]|Hin]%OrderedMapFacts.ordered_elem_of_set; [done|by apply Hk].
Qed.

Lemma keyed_labels targets :
  keyed targets → item_label <$> items_of targets = targets.*1.
Proof.
  intros [_ Hk]. unfold items_of. rewrite <- !list_fmap_compose.
  apply list_fmap_ext. intros i [name target] Hi. simpl.
  apply Hk. by eapply list_elem_of_lookup_2.
Qed.

Definition detailed (byClassDetail : list (string * ClassDetail)) : Prop :=
  ∀ className detail, (className, detail) ∈ byClassDetail →
    keyed (bases detail) ∧ keyed (children detail).

Lemma detailed_collect byClassDetail o :
  detailed byClassDetail → detailed (collectDetail byClassDetail o).
Proof.
  intros Hd c detail. unfold collectDetail.
  assert (keyed (bases (default (mkClassDetail [] [])
                          (OrderedMap.get (class_ o) byClassDetail)))
          ∧ keyed (children (default (mkClassDetail [] [])
                               (OrderedMap.get (class_ o) byClassDetail)))) as [Hb Hc].
  { destruct (OrderedMap.get (class_ o) byClassDetail) as [e|] eqn:E; simpl.
    - apply OrderedMapFacts.ordered_get_elem_of in E. by apply (Hd _ _ E).
    - split; apply keyed_nil. }
  intros [[= -> ->]|Hin]%OrderedMapFacts.ordered_elem_of_set; [|by apply (Hd _ _ Hin)].
  destruct (_ && _ && _ && _); destruct (_ && _ && _ && _); simpl;
    split; try done; by apply keyed_set.
Qed.

Lemma detailed_collected overrides : detailed (foldl collectDetail [] overrides).
Proof.
  induction overrides as [|o overrides IH] using rev_ind.
  - by intros ? ? ?%elem_of_nil.
  - rewrite foldl_app. by apply detailed_collect.
Qed.

Lemma find_picked items k item :
  NoDup (item_label <$> items) → items !! k = Some item →
  List.find (λ i, bool_decide (item_label i = item_label item)
                  && bool_decide (item_detail i = item_detail item)) items
  = Some item.
Proof.
  revert k. induction items as [|i items IH]; intros k Hnd Hk; [done|].
  rewrite fmap_cons in Hnd. apply NoDup_cons in Hnd as [Hi Hnd]. simpl.
  destruct k as [|k]; simpl in Hk.
  - injection Hk as ->. by rewrite !bool_decide_eq_true_2.
  - rewrite bool_decide_eq_false_2; [by eapply IH|].
    intros Heq. apply Hi. rewrite Heq. apply list_elem_of_fmap.
    exists item. split; [done|]. by eapply list_elem_of_lookup_2.
Qed.

Lemma quickPickRelations_picked items k item :
  NoDup (item_label <$> items) → items !! k = Some item →
  quickPickRelations items (Some k) = Some item.
Proof.
  intros Hnd Hk. unfold quickPickRelations. simpl.
  rewrite list_lookup_fmap, Hk. simpl. by eapply find_picked.
Qed.

Section Editor.
Variable class_pattern : string → option (string → bool).
Variable selection_ok : option Z → bool.

(** The lenses of the loop over the overrides. *)
Definition method_lenses (count : nat) (lenses : list CodeLens) : Prop :=
  ∀ lens, lens ∈ lenses →
    in_document count (lens_range lens) = true
    ∧ ∃ title file selection, lens_command lens = VscodeOpen title file selection.

Lemma method_lenses_step count lenses o lenses' :
  method_lenses count lenses →
  methodLens selection_ok count (Some lenses) o = Some lenses' →
  method_lenses count lenses'.
Proof.
  intros H. unfold methodLens. destruct (line o) as [n|]; [|by intros [= <-]].
  destruct ((0 <=? n - 1)%Z && (n - 1 <? Z.of_nat count)%Z) eqn:Hr;
    [|by intros [= <-]].
  destruct (_ && truthy (base_file_path o)).
  { destruct (selection_ok (base_line o)); [|done]. intros [= <-].
    intros lens [?|Hs%list_elem_of_singleton]%elem_of_app; [by apply H|subst lens].
    split; [done|]. simpl. eauto. }
  destruct (_ && truthy (child_file_path o)).
  { destruct (selection_ok (child_line o)); [|done]. intros [= <-].
    intros lens [?|Hs%list_elem_of_singleton]%elem_of_app; [by apply H|subst lens].
    split; [done|]. simpl. eauto. }
  by intros [= <-].
Qed.

Lemma method_lenses_fold count overrides lenses :
  foldl (methodLens selection_ok count) (Some []) overrides = Some lenses →
  method_lenses count lenses.
Proof.
  apply (foldl_option_invariant (methodLens selection_ok count) (method_lenses count)).
  - done.
  - intros a b a'. apply method_lenses_step.
  - by intros ? ?%elem_of_nil.
Qed.

(** The lenses of both loops: where they are, and what a class lens
    offers. *)
Definition lenses_ok (count : nat) (lenses : list CodeLens) : Prop :=
  ∀ lens, lens ∈ lenses →
    in_document count (lens_range lens) = true
    ∧ ∀ title items, lens_command lens = QuickPickRelations title items →
        NoDup (item_label <$> items).

Lemma lenses_ok_snoc count lenses lens :
  lenses_ok count lenses →
  in_document count (lens_range lens) = true →
  (∀ title items, lens_command lens = QuickPickRelations title items →
     NoDup (item_label <$> items)) →
  lenses_ok count (lenses ++ [lens]).
Proof.
  intros H Hr Hc lens' [?|Hs%list_elem_of_singleton]%elem_of_app; [by apply H|].
  by subst lens'.
Qed.

Lemma lenses_ok_step editor style lenses entry lenses' :
  keyed (bases entry.2) → keyed (children entry.2) →
  lenses_ok (lineCount editor) lenses →
  classLens class_pattern editor style (Some lenses) entry = Some lenses' →
  lenses_ok (lineCount editor) lenses'.
Proof.
  intros Hb Hc H. unfold classLens.
  destruct (OverrideDecorationProvider.findClassLine class_pattern editor entry.1)
    as [[classLine|]|] eqn:E; [|by intros [= <-]|done].
  apply OverrideDecorationProviderFacts.findClassLine_bound in E. intros [= <-].
  assert (lenses_ok (lineCount editor)
            match bases entry.2 with
            | [] => lenses
            | _ :: _ =>
                lenses ++
                [mkCodeLens (Z.of_nat classLine)
                   (QuickPickRelations
                      (if String.eqb style "summary"
                       then BaseCount (length (bases entry.2))
                       else BaseNames (names_of (bases entry.2)))
                      (items_of (bases entry.2)))]
            end) as H1.
  { destruct (bases entry.2) eqn:Eb; [done|]. rewrite <- Eb.
    apply lenses_ok_snoc; [done..|]. simpl. intros ? ? [= _ <-].
    rewrite keyed_labels by (by rewrite Eb). rewrite Eb. apply Hb. }
  destruct (children entry.2) eqn:Ec; [done|]. rewrite <- Ec.
  apply lenses_ok_snoc; [done..|]. simpl. intros ? ? [= _ <-].
  rewrite keyed_labels by (by rewrite Ec). rewrite Ec. apply Hc.
Qed.

Lemma lenses_ok_fold editor style byClassDetail lenses lenses' :
  detailed byClassDetail →
  lenses_ok (lineCount editor) lenses →
  foldl (classLens class_pattern editor style) (Some lenses) byClassDetail
    = Some lenses' →
  lenses_ok (lineCount editor) lenses'.
Proof.
  revert lenses. induction byClassDetail as [|[c detail] m IH]; intros lenses Hd H;
    cbn [foldl].
  - by intros [= <-].
  - destruct (classLens class_pattern editor style (Some lenses) (c, detail))
      as [lenses1|] eqn:E.
    + apply IH.
      * intros c' d' Hin. apply (Hd c' d'). by right.
      * eapply lenses_ok_step; [..|done|exact E]; apply (Hd c detail); by left.
    + intros Hf. exfalso. clear -Hf.
      induction m as [|e m IH]; cbn [foldl] in Hf; [done|]. auto.
Qed.

Lemma provided_lenses_ok editor config analysis :
  lenses_ok (lineCount editor)
    (provideCodeLenses class_pattern selection_ok editor config analysis).
Proof.
  unfold provideCodeLenses.
  destruct (negb (is_python (document editor))); [by intros ? ?%elem_of_nil|].
  destruct analysis as [overrides|]; [|by intros ? ?%elem_of_nil].
  destruct (foldl (methodLens selection_ok (lineCount editor)) (Some []) overrides)
    as [lenses|] eqn:Em.
  - assert (lenses_ok (lineCount editor) lenses) as Hm.
    { intros lens Hin. destruct (method_lenses_fold _ _ _ Em lens Hin) as [? (?&?&?&Hc)].
      split; [done|]. intros ? ?. by rewrite Hc. }
    destruct (classLensEnabled config); [|done].
    destruct (foldl _ (Some lenses) _) as [lenses'|] eqn:Ec;
      [|by intros ? ?%elem_of_nil].
    simpl. eapply lenses_ok_fold; [apply detailed_collected|exact Hm|exact Ec].
  - assert (∀ bs, foldl (classLens class_pattern editor (classLensStyle config)) None bs
                  = None) as Hnone.
    { induction bs as [|b bs IH]; simpl; [done|]. apply IH. }
    destruct (classLensEnabled config); [rewrite Hnone|]; by intros ? ?%elem_of_nil.
Qed.

(** X23.  Every lens sits on a line of the document, which is a Python
    document; with the class lenses switched off, every lens is a
    [vscode.open] lens. *)
Theorem code_lenses_lie_inside_the_document editor config analysis lens :
  lens ∈ provideCodeLenses class_pattern selection_ok editor config analysis →
  in_document (lineCount editor) (lens_range lens) = true
  ∧ is_python (document editor) = true
  ∧ (classLensEnabled config = false →
     ∃ title file selection, lens_command lens = VscodeOpen title file selection).
Proof.
  intros Hin. split_and!.
  - by apply (provided_lenses_ok editor config analysis lens).
  - unfold provideCodeLenses in Hin. destruct (is_python (document editor)); [done|].
    by apply elem_of_nil in Hin.
  - intros Hoff. unfold provideCodeLenses in Hin. rewrite Hoff in Hin.
    destruct (negb (is_python (document editor))); [by apply elem_of_nil in Hin|].
    destruct analysis as [overrides|]; [|by apply elem_of_nil in Hin].
    destruct (foldl (methodLens selection_ok (lineCount editor)) (Some []) overrides)
      as [lenses|] eqn:Em; [|by apply elem_of_nil in Hin].
    simpl in Hin. by apply (method_lenses_fold _ _ _ Em lens Hin).
Qed.

(** X24.  The items of a class lens have pairwise distinct labels ([bases]
    and [children] are maps keyed by the name that becomes the label),
    so the entry picked in the list is the relation that is shown: the
    search of the command by label and detail ends on the item
    picked. *)
Theorem a_picked_relation_is_the_one_shown editor config analysis lens title items :
  lens ∈ provideCodeLenses class_pattern selection_ok editor config analysis →
  lens_command lens = QuickPickRelations title items →
  NoDup (item_label <$> items)
  ∧ ∀ k item, items !! k = Some item → quickPickRelations items (Some k) = Some item.
Proof.
  intros Hin Hc.
  pose proof (proj2 (provided_lenses_ok editor config analysis lens Hin) title items Hc)
    as Hnd.
  split; [done|]. intros k item Hk. by apply quickPickRelations_picked.
Qed.

End Editor.

(** *** The lenses of the document of three lines *)

Definition summary : Configuration := mkConfiguration true "summary".

(** A sample [selection_ok]: the range is built when the line it is
    given, [base_line! - 1] or [child_line! - 1], is not negative, and
    when the override has no such line. *)
Definition not_negative (n : option Z) : bool :=
  match n with
  | Some n => (1 <=? n)%Z
  | None => true
  end.

Lemma code_lenses_lie_inside_the_document_witness :
  let lens := mkCodeLens 1 (VscodeOpen (GoToBase (Some "Animal")) "/p/b.py" (Some 1%Z)) in
  in_document (lineCount dog_py) (lens_range lens) = true
  ∧ is_python (document dog_py) = true
  ∧ (classLensEnabled summary = false →
     ∃ title file selection, lens_command lens = VscodeOpen title file selection).
Proof.
  apply (code_lenses_lie_inside_the_document class_prefix not_negative dog_py summary
           (Some [speak; speak_overridden; purr])
           (mkCodeLens 1 (VscodeOpen (GoToBase (Some "Animal")) "/p/b.py" (Some 1%Z)))).
  apply (list_elem_of_lookup_2 _ 0). vm_compute. reflexivity.
Defined.

(** [Dog.speak] is also overridden by [Poodle.speak]. *)
Definition speak_overridden_again : OverrideInfo :=
  mkOverrideInfo "Dog" (Some "speak") (Some 2%Z) None (Some "parent_overridden")
    None None None None None
    (Some "Poodle") (Some "d.py") (Some "/p/d.py") (Some 3%Z) None.

(** The lens of [Dog] lists two subclasses; the second is picked. *)
Lemma a_picked_relation_is_the_one_shown_witness :
  let items := [mkItem "Puppy" "/p/c.py" "/p/c.py" 7; mkItem "Poodle" "/p/d.py" "/p/d.py" 3] in
  NoDup (item_label <$> items)
  ∧ ∀ k item, items !! k = Some item → quickPickRelations items (Some k) = Some item.
Proof.
  apply (a_picked_relation_is_the_one_shown class_prefix not_negative dog_py summary
           (Some [speak; speak_overridden; speak_overridden_again])
           (mkCodeLens 0
              (QuickPickRelations (OverriddenByCount 2)
                 [mkItem "Puppy" "/p/c.py" "/p/c.py" 7;
                  mkItem "Poodle" "/p/d.py" "/p/d.py" 3]))
           (OverriddenByCount 2)).
  - apply (list_elem_of_lookup_2 _ 4). vm_compute. reflexivity.
  - reflexivity.
Defined.

(** The command on a list no class lens passes: of two items with the
    same label and detail, the first is found whichever is picked. *)
Example quickPickRelations_needs_distinct_labels :
  quickPickRelations
    [mkItem "Animal" "/p/b.py" "/p/b.py" 2; mkItem "Animal" "/p/b.py" "/p/b.py" 9] (Some 1)
  = Some (mkItem "Animal" "/p/b.py" "/p/b.py" 2).
Proof. reflexivity. Qed.

(** The four lenses of that document.  Under [not_negative] an override
    whose base line is 0 costs the document all its lenses: the
    exception leaves the loop for the [catch] block, which returns the
    empty array. *)
Example lenses_of_the_document :
  provideCodeLenses class_prefix not_negative dog_py summary
    (Some [speak; speak_overridden; purr])
  = [mkCodeLens 1 (VscodeOpen (GoToBase (Some "Animal")) "/p/b.py" (Some 1%Z));
     mkCodeLens 1 (VscodeOpen (GoToOverride (Some "Puppy")) "/p/c.py" (Some 6%Z));
     mkCodeLens 0
       (QuickPickRelations (BaseCount 1) [mkItem "Animal" "/p/b.py" "/p/b.py" 2]);
     mkCodeLens 0
       (QuickPickRelations (OverriddenByCount 1) [mkItem "Puppy" "/p/c.py" "/p/c.py" 7])]
  ∧ provideCodeLenses class_prefix not_negative dog_py summary
      (Some [speak;
             mkOverrideInfo "Dog" (Some "run") (Some 3%Z) None (Some "child_override")
               (Some "Animal") None (Some "/p/b.py") (Some 0%Z) None
               None None None None None])
    = [].
Proof. vm_compute. done. Qed.

End OverrideCodeLensProviderFacts.

(** ** The earlier listing: cache and analyses *)

Module AnalysisCacheFacts.
Import AnalysisCache.

Lemma analysis_get_set now later filePath overrides (c : t) :
  get later filePath (set now filePath overrides c) =
    if (later - now <=? 30000)%Z
    then (Some overrides, set now filePath overrides c)
    else (None, delete filePath c).
Proof.
  unfold get, set, CACHE_DURATION, t in *. rewrite lookup_insert_eq. simpl.
  destruct (Z.ltb_spec 30000 (later - now)), (Z.leb_spec (later - now) 30000);
    try lia; [|done].
  by rewrite delete_insert_eq.
Qed.

(** X25.  A stored result is served for thirty seconds, the bound included,
    and dropped by the first [get] after that; the entries of other
    files stay as they are. *)
Theorem stored_result_is_served_for_thirty_seconds now later filePath overrides
    (c : t) :
  get later filePath (set now filePath overrides c) =
    (if (later - now <=? 30000)%Z
     then (Some overrides, set now filePath overrides c)
     else (None, delete filePath c))
  ∧ ∀ other, other ≠ filePath →
      (get later filePath (set now filePath overrides c)).2 !! other = c !! other.
Proof.
  split; [apply analysis_get_set|]. intros other Hne. rewrite analysis_get_set.
  unfold set, t in *. destruct (_ <=? _)%Z; simpl.
  - by rewrite lookup_insert_ne.
  - by rewrite lookup_delete_ne.
Qed.

End AnalysisCacheFacts.

Module ProcessAnalyzerFacts.
Import ProcessAnalyzer.

(** Every promise that is not settled is the one [pendingAnalysis] holds
    for its file, and conversely. *)
Definition linked (st : t) : Prop :=
  ∀ p filePath, analyses st !! p = Some filePath ↔ pendingAnalysis st !! filePath = Some p.

Record bounded (st : t) : Prop := {
  bounded_analyses : ∀ p, is_Some (analyses st !! p) → (p ≤ spawned st)%nat;
  bounded_linked : linked st
}.

Lemma bounded_new : bounded new.
Proof.
  split.
  - intros p [? H]. simpl in H. by rewrite lookup_empty in H.
  - intros p f. simpl. by rewrite !lookup_empty.
Qed.

Lemma bounded_settled p filePath c r j st :
  bounded st → analyses st !! p = Some filePath →
  bounded (mk c (delete filePath (pendingAnalysis st)) (spawned st)
              (delete p (analyses st)) j r).
Proof.
  intros [Hb Hl] Hp. split; simpl.
  - intros q [f Hq]. apply lookup_delete_Some in Hq as [_ Hq]. apply Hb. by rewrite Hq.
  - unfold linked. simpl. intros q f. rewrite !lookup_delete_Some. split.
    + intros [Hne Hq]. split; [|by apply Hl]. intros <-.
      apply Hl in Hq. apply Hl in Hp. congruence.
    + intros [Hne Hq]. split; [|by apply Hl]. intros <-.
      apply Hl in Hq. congruence.
Qed.

Lemma bounded_step e st : bounded st → bounded (step e st).
Proof.
  intros Hst. destruct e as [now f|p code parsed now|p| |f]; simpl.
  - unfold analyzeFile. destruct (AnalysisCache.get now f (cache st)) as [[cached|] c].
    + destruct Hst. by split.
    + destruct (pendingAnalysis st !! f) as [pending|] eqn:Hf.
      * destruct Hst. by split.
      * destruct Hst as [Hb Hl]. split; simpl.
        -- intros q [g Hq]. apply lookup_insert_Some in Hq as [[<- _]|[_ Hq]]; [lia|].
           assert (q ≤ spawned st)%nat by (apply Hb; by rewrite Hq). lia.
        -- unfold linked. simpl. intros q g. rewrite !lookup_insert_Some. split.
           ++ intros [[<- <-]|[Hne Hq]]; [by left|]. right. split; [|by apply Hl].
              intros <-. apply Hl in Hq. congruence.
           ++ intros [[<- <-]|[Hne Hq]]; [by left|]. right. split; [|by apply Hl].
              intros <-. apply Hl in Hq.
              assert (S (spawned st) ≤ spawned st)%nat by (apply Hb; by rewrite Hq). lia.
  - unfold closed. destruct (analyses st !! p) as [f|] eqn:Hp; [|done].
    by apply bounded_settled.
  - unfold failed. destruct (analyses st !! p) as [f|] eqn:Hp; [|done].
    by apply bounded_settled.
  - destruct Hst. by split.
  - destruct Hst. by split.
Qed.

Lemma reachable_bounded st : reachable st → bounded st.
Proof. induction 1; [apply bounded_new|by apply bounded_step]. Qed.

(** X26.  At any time at most one analysis of a file is under way, and while
    it is, a call for that file which the cache does not serve spawns no
    process: it joins the analysis. *)
Theorem one_analysis_per_file_at_a_time st :
  reachable st →
  (∀ p q filePath,
     analyses st !! p = Some filePath → analyses st !! q = Some filePath → p = q)
  ∧ (∀ p now filePath,
       analyses st !! p = Some filePath →
       (AnalysisCache.get now filePath (cache st)).1 = None →
       spawned (analyzeFile now filePath st) = spawned st
       ∧ analyses (analyzeFile now filePath st) = analyses st
       ∧ joined (analyzeFile now filePath st) !! p
         = Some (S (default 0 (joined st !! p)))).
Proof.
  intros [Hb Hl]%reachable_bounded. split.
  - intros p q f Hp%Hl Hq%Hl. congruence.
  - intros p now f Hp%Hl Hmiss. unfold analyzeFile.
    destruct (AnalysisCache.get now f (cache st)) as [[cached|] c]; [done|].
    rewrite Hp. simpl. by rewrite lookup_insert_eq.
Qed.



(** An analysis of [/p/a.py] is under way. *)
Definition analysing : t := run [AnalyzeFile 0 "/p/a.py"] new.

Lemma one_analysis_per_file_at_a_time_witness :
  (∀ p q filePath,
     analyses analysing !! p = Some filePath → analyses analysing !! q = Some filePath →
     p = q)
  ∧ (∀ p now filePath,
       analyses analysing !! p = Some filePath →
       (AnalysisCache.get now filePath (cache analysing)).1 = None →
       spawned (analyzeFile now filePath analysing) = spawned analysing
       ∧ analyses (analyzeFile now filePath analysing) = analyses analysing
       ∧ joined (analyzeFile now filePath analysing) !! p
         = Some (S (default 0 (joined analysing !! p)))).
Proof.
  apply (one_analysis_per_file_at_a_time analysing).
  apply reachable_step, reachable_new.
Defined.


(** Three calls for the same file while its analysis runs spawn one
    process; when it closes, the three calls return, and a call more
    than thirty seconds later spawns again. *)
Example calls_for_a_file_share_its_analysis :
  let st := run [AnalyzeFile 0 "/p/a.py"; AnalyzeFile 5 "/p/a.py"; AnalyzeFile 9 "/p/a.py";
                 Close 1 (Some 0%Z) (Some []) 50] new in
  spawned st = 1
  ∧ returned st = [("/p/a.py", Some []); ("/p/a.py", Some []); ("/p/a.py", Some [])]
  ∧ pendingAnalysis st = ∅
  ∧ spawned (step (AnalyzeFile 30050 "/p/a.py") st) = 1
  ∧ spawned (step (AnalyzeFile 30051 "/p/a.py") st) = 2.
Proof. vm_compute. done. Qed.

End ProcessAnalyzerFacts.

Module EditorDocumentManagerCallbacks.
Import EditorDocumentManager EditorDocumentManagerFacts.

(** X28.  In the manager of the earlier listing the callback of a timer
    removes the entry of its file when [updateDecorations] has finished,
    whichever timer the entry names by then.  A timer armed for the file
    in the meantime stays armed but is no longer registered: neither a
    further [scheduleAnalysis] nor the closing of the document cancels
    it, and two timers are armed for the file after the next
    [scheduleAnalysis]. *)
Theorem a_late_callback_unregisters_the_newer_timer s k filePath h :
  reachable s →
  updating s !! k = Some filePath →
  debounceTimers s !! filePath = Some h →
  timers s !! h = Some filePath →
  debounceTimers (callbackFinishes k s) !! filePath = None
  ∧ timers (callbackFinishes k s) !! h = Some filePath
  ∧ timers (didClose (mkTextDocument filePath "python") (callbackFinishes k s)) !! h
    = Some filePath
  ∧ timers (scheduleAnalysis filePath (callbackFinishes k s)) !! h = Some filePath
  ∧ timers (scheduleAnalysis filePath (callbackFinishes k s)) !! S (nextTimer s)
    = Some filePath
  ∧ h ≠ S (nextTimer s).
Proof.
  intros [Hq Hb]%reachable_handles_bounded Hk Hh Ht.
  pose proof (Hq filePath h Hh) as Hle.
  unfold callbackFinishes. rewrite Hk. unfold didClose, scheduleAnalysis. simpl.
  rewrite !lookup_delete_eq. simpl.
  rewrite lookup_insert_eq, lookup_insert_ne by lia.
  split_and!; try done. lia.
Qed.

Lemma a_late_callback_unregisters_the_newer_timer_witness :
  let a := mkTextDocument "/p/a.py" "python" in
  let s := run [DidChangeActiveTextEditor (Some a); TimerFires 1; DidSaveTextDocument a]
             new in
  debounceTimers (callbackFinishes 0 s) !! "/p/a.py" = None
  ∧ timers (callbackFinishes 0 s) !! 2 = Some "/p/a.py"
  ∧ timers (didClose (mkTextDocument "/p/a.py" "python") (callbackFinishes 0 s)) !! 2
    = Some "/p/a.py"
  ∧ timers (scheduleAnalysis "/p/a.py" (callbackFinishes 0 s)) !! 2 = Some "/p/a.py"
  ∧ timers (scheduleAnalysis "/p/a.py" (callbackFinishes 0 s)) !! S (nextTimer s)
    = Some "/p/a.py"
  ∧ 2 ≠ S (nextTimer s).
Proof.
  apply (a_late_callback_unregisters_the_newer_timer
           (run [DidChangeActiveTextEditor (Some (mkTextDocument "/p/a.py" "python"));
                 TimerFires 1;
                 DidSaveTextDocument (mkTextDocument "/p/a.py" "python")] new)
           0 "/p/a.py" 2).
  - repeat apply reachable_handle. apply reachable_new.
  - vm_compute. reflexivity.
  - vm_compute. reflexivity.
  - vm_compute. reflexivity.
Defined.

End EditorDocumentManagerCallbacks.
